(** * A character-level LSTM trainer (src/lstm.py): model and properties

    The development embeds [lstm.py] shallowly.

    - A numpy [float64] 2-D array is a list of rows of real numbers
      ([ndarray]); every array of the program is 2-D (column vectors have
      shape (n,1)).  Arithmetic is the arithmetic of [R]: rounding, overflow
      and underflow of [float64] are idealised away.  The one place where
      the program relies on IEEE special values (a division whose divisor
      may be zero, in the gradient checker) is modelled with an explicit
      three-valued result, [npfloat].
    - A Python [dict] keyed by the time step is a [gmap Z ndarray]; a missing
      key raises [KeyError].
    - Exceptions are values of [exn], threaded by the [result] monad.
    - Module-level globals that are mutated (the parameters, the Adagrad
      accumulators, the corpus cursor, ...) are threaded explicitly.
    - numpy raises (or broadcasts) when the shapes of two operands differ; the
      model zips.  The two agree on arrays of matching shapes, which is what
      [wf_params] and [has_shape] record. *)

From Stdlib Require Import Reals Lra ZArith List String Ascii.
From stdpp Require Import gmap strings pretty.

Local Open Scope R_scope.

(** ** Exceptions *)

Inductive exn : Type :=
| IndexError
| KeyError
| NameError
| ValueError
| ZeroDivisionError
| AssertionError (msg : string).

Inductive result (A : Type) : Type :=
| Ok (a : A)
| Raise (e : exn).
Arguments Ok {A} a.
Arguments Raise {A} e.

#[global] Instance result_ret : MRet result := fun A a => Ok a.
#[global] Instance result_bind : MBind result := fun A B k m =>
  match m with
  | Ok a => k a
  | Raise e => Raise e
  end.

(** ** Arrays *)

Abbreviation ndarray := (list (list R)).

(** [a.shape] *)
Definition shape (a : ndarray) : nat * nat :=
  (length a, match a with [] => O | r :: _ => length r end).

Definition has_shape (r c : nat) (a : ndarray) : Prop :=
  length a = r /\ Forall (fun row => length row = c) a.

(** [np.zeros((r, c))] and [np.zeros_like(a)] *)
Definition zeros (r c : nat) : ndarray := replicate r (replicate c 0).
Definition zeros_like (a : ndarray) : ndarray := map (map (fun _ => 0)) a.

(** a function applied to every element ([np.exp], [np.tanh], [np.log],
    [np.sqrt], scalar-with-array arithmetic) *)
Definition amap (f : R -> R) (a : ndarray) : ndarray := map (map f) a.

(** element-wise binary operations on arrays of one shape *)
Definition azip (f : R -> R -> R) (a b : ndarray) : ndarray :=
  zip_with (zip_with f) a b.

Definition aadd : ndarray -> ndarray -> ndarray := azip Rplus.
Definition asub : ndarray -> ndarray -> ndarray := azip Rminus.
Definition amul : ndarray -> ndarray -> ndarray := azip Rmult.
Definition adiv : ndarray -> ndarray -> ndarray := azip Rdiv.

(** [a.flat] (row-major), [a.sum()] and [a.size] *)
Definition flat (a : ndarray) : list R := concat a.
Definition rsum (l : list R) : R := foldr Rplus 0 l.
Definition asum (a : ndarray) : R := rsum (flat a).
Definition size_of (a : ndarray) : nat := length (flat a).

(** [a.T] *)
Definition transpose (a : ndarray) : ndarray :=
  match a with
  | [] => []
  | r :: _ => map (fun j => map (fun row => nth j row 0) a) (seq 0 (length r))
  end.

(** [np.dot(a, b)] *)
Definition dotp (u v : list R) : R := rsum (zip_with Rmult u v).
Definition dot (a b : ndarray) : ndarray :=
  map (fun row => map (fun col => dotp row col) (transpose b)) a.

(** [np.row_stack((a, b))] *)
Definition row_stack (a b : ndarray) : ndarray := a ++ b.

(** [l[i]] on a Python list: negative indices count from the end *)
Definition py_index {A : Type} (l : list A) (i : Z) : result A :=
  let n := Z.of_nat (length l) in
  let j := if (i <? 0)%Z then (n + i)%Z else i in
  if ((0 <=? j)%Z && (j <? n)%Z)%bool
  then match l !! Z.to_nat j with
       | Some x => Ok x
       | None => Raise IndexError
       end
  else Raise IndexError.

(** [a[i] = v] on a 2-D array: every element of row [i] becomes [v] *)
Definition setitem_row (a : ndarray) (i : Z) (v : R) : result ndarray :=
  let n := Z.of_nat (length a) in
  let j := if (i <? 0)%Z then (n + i)%Z else i in
  if ((0 <=? j)%Z && (j <? n)%Z)%bool
  then Ok (alter (map (fun _ => v)) (Z.to_nat j) a)
  else Raise IndexError.

(** [d[k]] on a dict *)
Definition dict_get (d : gmap Z ndarray) (k : Z) : result ndarray :=
  match d !! k with
  | Some a => Ok a
  | None => Raise KeyError
  end.

(** ** Numeric primitives (lines 15-32) *)

Definition sigmoid (x : ndarray) : ndarray :=
  amap (fun v => 1 / (1 + exp (- v))) x.

Definition dsigmoid (y : ndarray) : ndarray :=
  amul y (amap (fun v => 1 - v) y).

Definition dtanh (x : ndarray) : ndarray :=
  asub (amap (fun _ => 1) x) (amul x x).

(** [np.max(x)] raises [ValueError] on an array without elements *)
Definition np_max (x : ndarray) : result R :=
  match flat x with
  | [] => Raise ValueError
  | v :: l => Ok (foldl Rmax v l)
  end.

Definition softmax (x : ndarray) : result ndarray :=
  m ← np_max x;
  let e_x := amap (fun v => exp (v - m)) x in
  let s := asum e_x in
  Ok (amap (fun v => v / s) e_x).

(** ** Hyperparameters (lines 42-53) *)

Definition std : R := 1 / 10.
Definition emb_size : nat := 4.
Definition hidden_size : nat := 32.
Definition seq_length : nat := 64.
Definition learning_rate : R := 5 / 100.
#[warnings="-abstract-large-number"]
Definition max_updates : nat := 500000.
Definition concat_size : nat := emb_size + hidden_size.

(** ** Model parameters (lines 55-72) *)

Record params : Type := mkParams {
  Wex : ndarray;
  Wf : ndarray; Wi : ndarray; Wo : ndarray; Wc : ndarray;
  bf : ndarray; bi : ndarray; bo : ndarray; bc : ndarray;
  Why : ndarray; by_ : ndarray
}.

(** The shapes the module-level initialisation gives the parameters, for a
    vocabulary of [V] characters. *)
Record wf_params (V : nat) (P : params) : Prop := mkWf {
  wf_Wex : has_shape emb_size V (Wex P);
  wf_Wf : has_shape hidden_size concat_size (Wf P);
  wf_Wi : has_shape hidden_size concat_size (Wi P);
  wf_Wo : has_shape hidden_size concat_size (Wo P);
  wf_Wc : has_shape hidden_size concat_size (Wc P);
  wf_bf : has_shape hidden_size 1 (bf P);
  wf_bi : has_shape hidden_size 1 (bi P);
  wf_bo : has_shape hidden_size 1 (bo P);
  wf_bc : has_shape hidden_size 1 (bc P);
  wf_Why : has_shape V hidden_size (Why P);
  wf_by : has_shape V 1 (by_ P)
}.

(** The results of the six [np.random.randn] calls. *)
Record randn_draws : Type := mkDraws {
  r_Wex : ndarray; r_Wf : ndarray; r_Wi : ndarray; r_Wo : ndarray;
  r_Wc : ndarray; r_Why : ndarray
}.

Definition init_params (V : nat) (d : randn_draws) : params :=
  {| Wex := amap (fun v => v * std) (r_Wex d);
     Wf := amap (fun v => v * std) (r_Wf d);
     Wi := amap (fun v => v * std) (r_Wi d);
     Wo := amap (fun v => v * std) (r_Wo d);
     Wc := amap (fun v => v * std) (r_Wc d);
     bf := zeros hidden_size 1;
     bi := zeros hidden_size 1;
     bo := zeros hidden_size 1;
     bc := zeros hidden_size 1;
     Why := amap (fun v => v * (1 / 100)) (r_Why d);
     by_ := zeros V 1 |}.

(** ** Forward pass (lines 75-171) *)

Record activations : Type := mkActs {
  hs : gmap Z ndarray; cs : gmap Z ndarray; xs : gmap Z ndarray;
  zs : gmap Z ndarray; wes : gmap Z ndarray; os : gmap Z ndarray;
  ps : gmap Z ndarray; ys : gmap Z ndarray;
  f_gate : gmap Z ndarray; i_gate : gmap Z ndarray;
  o_gate : gmap Z ndarray; c_cand : gmap Z ndarray
}.

Abbreviation memory := (list (list R) * list (list R))%type.

(** The body of [for t in range(len(inputs))], lines 106-165. *)
Definition forward_step (V : nat) (P : params) (inputs targets : list Z)
    (t : nat) (st : activations * R) : result (activations * R) :=
  let '(a, loss) := st in
  let k := Z.of_nat t in
  ix ← py_index inputs k;
  x ← setitem_row (zeros V 1) ix 1;
  let we := dot (Wex P) x in
  hprev ← dict_get (hs a) (k - 1);
  let z := row_stack hprev we in
  let f := sigmoid (aadd (dot (Wf P) z) (bf P)) in
  let i := sigmoid (aadd (dot (Wi P) z) (bi P)) in
  let cc := amap tanh (aadd (dot (Wc P) z) (bc P)) in
  cprev ← dict_get (cs a) (k - 1);
  let c := aadd (amul f cprev) (amul i cc) in
  let o := sigmoid (aadd (dot (Wo P) z) (bo P)) in
  let h := amul o (amap tanh c) in
  let lg := aadd (dot (Why P) h) (by_ P) in
  p ← softmax lg;
  tx ← py_index targets k;
  y ← setitem_row (zeros V 1) tx 1;
  let loss_t := asum (amul (amap (fun v => - ln v) p) y) in
  Ok ({| hs := <[k := h]> (hs a); cs := <[k := c]> (cs a);
         xs := <[k := x]> (xs a); zs := <[k := z]> (zs a);
         wes := <[k := we]> (wes a); os := <[k := lg]> (os a);
         ps := <[k := p]> (ps a); ys := <[k := y]> (ys a);
         f_gate := <[k := f]> (f_gate a); i_gate := <[k := i]> (i_gate a);
         o_gate := <[k := o]> (o_gate a); c_cand := <[k := cc]> (c_cand a) |},
      loss + loss_t).

Fixpoint forward_loop (V : nat) (P : params) (inputs targets : list Z)
    (ts : list nat) (st : activations * R) : result (activations * R) :=
  match ts with
  | [] => Ok st
  | t :: ts' =>
      st' ← forward_step V P inputs targets t st;
      forward_loop V P inputs targets ts' st'
  end.

Definition init_activations (m : memory) : activations :=
  {| hs := {[ (-1)%Z := fst m ]}; cs := {[ (-1)%Z := snd m ]};
     xs := ∅; zs := ∅; wes := ∅; os := ∅; ps := ∅; ys := ∅;
     f_gate := ∅; i_gate := ∅; o_gate := ∅; c_cand := ∅ |}.

Definition forward (V : nat) (P : params) (inputs targets : list Z)
    (m : memory) : result (R * activations * memory) :=
  '(a, loss) ← forward_loop V P inputs targets (seq 0 (length inputs))
                  (init_activations m, 0);
  let last := (Z.of_nat (length inputs) - 1)%Z in
  h ← dict_get (hs a) last;
  c ← dict_get (cs a) last;
  Ok (loss, a, (h, c)).

(** A call of [forward] as the callers see it: the global parameter store
    goes in and comes out.  [forward] reads the parameters and assigns to
    none of them, nor to any of their elements. *)
Definition forward_call (V : nat) (inputs targets : list Z) (m : memory)
    (P : params) : result ((R * activations * memory) * params) :=
  r ← forward V P inputs targets m;
  Ok (r, P).

(** ** Backward pass (lines 174-286) *)

Record gradients : Type := mkGrads {
  dWex : ndarray;
  dWf : ndarray; dWi : ndarray; dWo : ndarray; dWc : ndarray;
  dbf : ndarray; dbi : ndarray; dbo : ndarray; dbc : ndarray;
  dWhy : ndarray; dby : ndarray
}.

(** What the loop carries from one time step to the one before it. *)
Record bstate : Type := mkBState {
  acc : gradients;
  dhnext : ndarray;
  dcnext : ndarray
}.

(** The local variables of one iteration of the loop of lines 193-277. *)
Record blocals : Type := mkBLocals {
  l_do : ndarray; l_dh : ndarray; l_dh_o : ndarray; l_dh_c : ndarray;
  l_dc_f : ndarray; l_dc_i : ndarray; l_dc_c : ndarray;
  l_dz : ndarray; l_dwes : ndarray
}.

Definition backward_step (P : params) (a : activations) (t : nat)
    (st : bstate) : result (blocals * bstate) :=
  let k := Z.of_nat t in
  let g := acc st in
  p ← dict_get (ps a) k;
  y ← dict_get (ys a) k;
  let do := asub p y in
  h ← dict_get (hs a) k;
  let dWhy' := aadd (dWhy g) (dot do (transpose h)) in
  let dby' := aadd (dby g) do in
  let dh := aadd (dot (transpose (Why P)) do) (dhnext st) in
  o ← dict_get (o_gate a) k;
  c ← dict_get (cs a) k;
  let dh_o := amul (amul (dsigmoid o) dh) (amap tanh c) in
  let dh_c := aadd (amul (amul o dh) (dtanh (amap tanh c))) (dcnext st) in
  f ← dict_get (f_gate a) k;
  cprev ← dict_get (cs a) (k - 1);
  let dc_f := amul (amul (dsigmoid f) cprev) dh_c in
  i ← dict_get (i_gate a) k;
  cc ← dict_get (c_cand a) k;
  let dc_i := amul (amul (dsigmoid i) cc) dh_c in
  let dc_c := amul (amul (dtanh cc) i) dh_c in
  z ← dict_get (zs a) k;
  let dWo' := aadd (dWo g) (dot dh_o (transpose z)) in
  let dWf' := aadd (dWf g) (dot dc_f (transpose z)) in
  let dWi' := aadd (dWi g) (dot dc_i (transpose z)) in
  let dWc' := aadd (dWc g) (dot dc_c (transpose z)) in
  let dbo' := aadd (dbo g) dh_o in
  let dbf' := aadd (dbf g) dc_f in
  let dbi' := aadd (dbi g) dc_i in
  let dbc' := aadd (dbc g) dc_c in
  let dz_o := dot (transpose (Wo P)) dh_o in
  let dz_i := dot (transpose (Wi P)) dc_i in
  let dz_f := dot (transpose (Wf P)) dc_f in
  let dz_c := dot (transpose (Wc P)) dc_c in
  let dz := aadd (aadd (aadd dz_o dz_i) dz_f) dz_c in
  let dhnext' := take hidden_size dz in
  let dcnext' := amul f dh_c in
  let dwes := drop hidden_size dz in
  x ← dict_get (xs a) k;
  let dWex' := aadd (dWex g) (dot dwes (transpose x)) in
  Ok ({| l_do := do; l_dh := dh; l_dh_o := dh_o; l_dh_c := dh_c;
         l_dc_f := dc_f; l_dc_i := dc_i; l_dc_c := dc_c;
         l_dz := dz; l_dwes := dwes |},
      {| acc := {| dWex := dWex'; dWf := dWf'; dWi := dWi'; dWo := dWo';
                   dWc := dWc'; dbf := dbf'; dbi := dbi'; dbo := dbo';
                   dbc := dbc'; dWhy := dWhy'; dby := dby' |};
         dhnext := dhnext'; dcnext := dcnext' |}).

Fixpoint backward_loop (P : params) (a : activations) (ts : list nat)
    (st : bstate) : result bstate :=
  match ts with
  | [] => Ok st
  | t :: ts' =>
      r ← backward_step P a t st;
      backward_loop P a ts' (snd r)
  end.

(** [np.clip(dparam, -5, 5, out=dparam)] *)
Definition clip (a : ndarray) : ndarray :=
  amap (fun v => Rmin (Rmax v (-5)) 5) a.

Definition gmap_all (f : ndarray -> ndarray) (g : gradients) : gradients :=
  {| dWex := f (dWex g); dWf := f (dWf g); dWi := f (dWi g);
     dWo := f (dWo g); dWc := f (dWc g); dbf := f (dbf g); dbi := f (dbi g);
     dbo := f (dbo g); dbc := f (dbc g); dWhy := f (dWhy g);
     dby := f (dby g) |}.

Definition zero_gradients (P : params) : gradients :=
  {| dWex := zeros_like (Wex P); dWf := zeros_like (Wf P);
     dWi := zeros_like (Wi P); dWo := zeros_like (Wo P);
     dWc := zeros_like (Wc P); dbf := zeros_like (bf P);
     dbi := zeros_like (bi P); dbo := zeros_like (bo P);
     dbc := zeros_like (bc P); dWhy := zeros_like (Why P);
     dby := zeros_like (by_ P) |}.

(** [backward(activations, clipping)].  [inputs] is the module-level global
    of that name, which line 193 reads for the number of time steps. *)
Definition backward (P : params) (inputs : list Z) (a : activations)
    (clipping : bool) : result gradients :=
  h0 ← dict_get (hs a) 0;
  c0 ← dict_get (cs a) 0;
  st ← backward_loop P a (rev (seq 0 (length inputs)))
         {| acc := zero_gradients P;
            dhnext := zeros_like h0; dcnext := zeros_like c0 |};
  Ok (if clipping then gmap_all clip (acc st) else acc st).

(** ** Corpus and vocabulary (lines 36-41) *)

(** [chars = list(set(data))].  Python leaves the iteration order of a set
    unspecified; the model lists the characters by first occurrence. *)
Definition chars_of (data : list ascii) : list ascii := remove_dups data.

(** [char_to_ix = { ch:i for i,ch in enumerate(chars) }] *)
Definition char_to_ix_of (chars : list ascii) : gmap ascii Z :=
  list_to_map (imap (fun i ch => (ch, Z.of_nat i)) chars).

(** [[char_to_ix[ch] for ch in s]] *)
Fixpoint encode (c2i : gmap ascii Z) (s : list ascii) : result (list Z) :=
  match s with
  | [] => Ok []
  | ch :: s' =>
      match c2i !! ch with
      | Some i => l ← encode c2i s'; Ok (i :: l)
      | None => Raise KeyError
      end
  end.

(** [data[i:j]] for [0 <= i] *)
Definition slice {A : Type} (l : list A) (i j : nat) : list A :=
  take (j - i) (drop i l).

(** ** Training mode (lines 356-405) *)

Record momentum : Type := mkMomentum {
  mWex : ndarray;
  mWf : ndarray; mWi : ndarray; mWo : ndarray; mWc : ndarray;
  mbf : ndarray; mbi : ndarray; mbo : ndarray; mbc : ndarray;
  mWhy : ndarray; mby : ndarray
}.

Definition zero_momentum (P : params) : momentum :=
  {| mWex := zeros_like (Wex P); mWf := zeros_like (Wf P);
     mWi := zeros_like (Wi P); mWo := zeros_like (Wo P);
     mWc := zeros_like (Wc P); mbf := zeros_like (bf P);
     mbi := zeros_like (bi P); mbo := zeros_like (bo P);
     mbc := zeros_like (bc P); mWhy := zeros_like (Why P);
     mby := zeros_like (by_ P) |}.

(** The module-level variables the loop of line 370 reads and writes.
    [t_memory] is [(hprev, cprev)], unbound before the first iteration. *)
Record train_state : Type := mkTrain {
  t_n : nat;
  t_p : nat;
  t_n_updates : nat;
  t_memory : option memory;
  t_inputs : list Z;
  t_targets : list Z;
  t_smooth_loss : R;
  t_params : params;
  t_momentum : momentum
}.

(** Lines 398-399 for one (param, dparam, mem) triple: the new [mem] and the
    new [param]. *)
Definition adagrad_mem (dparam mem : ndarray) : ndarray :=
  aadd mem (amul dparam dparam).

Definition adagrad_param (param dparam mem' : ndarray) : ndarray :=
  aadd param
    (adiv (amap (fun v => - learning_rate * v) dparam)
          (amap (fun v => sqrt (v + 1 / 100000000)) mem')).

Definition adagrad_momentum (g : gradients) (M : momentum) : momentum :=
  {| mWex := adagrad_mem (dWex g) (mWex M);
     mWf := adagrad_mem (dWf g) (mWf M); mWi := adagrad_mem (dWi g) (mWi M);
     mWo := adagrad_mem (dWo g) (mWo M); mWc := adagrad_mem (dWc g) (mWc M);
     mbf := adagrad_mem (dbf g) (mbf M); mbi := adagrad_mem (dbi g) (mbi M);
     mbo := adagrad_mem (dbo g) (mbo M); mbc := adagrad_mem (dbc g) (mbc M);
     mWhy := adagrad_mem (dWhy g) (mWhy M);
     mby := adagrad_mem (dby g) (mby M) |}.

Definition adagrad_params (P : params) (g : gradients) (M' : momentum)
    : params :=
  {| Wex := adagrad_param (Wex P) (dWex g) (mWex M');
     Wf := adagrad_param (Wf P) (dWf g) (mWf M');
     Wi := adagrad_param (Wi P) (dWi g) (mWi M');
     Wo := adagrad_param (Wo P) (dWo g) (mWo M');
     Wc := adagrad_param (Wc P) (dWc g) (mWc M');
     bf := adagrad_param (bf P) (dbf g) (mbf M');
     bi := adagrad_param (bi P) (dbi g) (mbi M');
     bo := adagrad_param (bo P) (dbo g) (mbo M');
     bc := adagrad_param (bc P) (dbc g) (mbc M');
     Why := adagrad_param (Why P) (dWhy g) (mWhy M');
     by_ := adagrad_param (by_ P) (dby g) (mby M') |}.

(** The test of line 372. *)
Definition must_reset (data : list ascii) (st : train_state) : bool :=
  (length data <=? t_p st + seq_length + 1)%nat || (t_n st =? 0)%nat.

(** Lines 372-377: chunk preparation. *)
Definition prepare (c2i : gmap ascii Z) (data : list ascii)
    (st : train_state) : result train_state :=
  let st1 :=
    if must_reset data st
    then {| t_n := t_n st; t_p := 0; t_n_updates := t_n_updates st;
            t_memory := Some (zeros hidden_size 1, zeros hidden_size 1);
            t_inputs := t_inputs st; t_targets := t_targets st;
            t_smooth_loss := t_smooth_loss st;
            t_params := t_params st; t_momentum := t_momentum st |}
    else st in
  let p := t_p st1 in
  inputs ← encode c2i (slice data p (p + seq_length));
  targets ← encode c2i (slice data (p + 1) (p + seq_length + 1));
  Ok {| t_n := t_n st1; t_p := p; t_n_updates := t_n_updates st1;
        t_memory := t_memory st1;
        t_inputs := inputs; t_targets := targets;
        t_smooth_loss := t_smooth_loss st1;
        t_params := t_params st1; t_momentum := t_momentum st1 |}.

(** Lines 386-403: forward, backward, the Adagrad update and the counters.
    The call of [sample] (lines 380-383) is left out: it draws from numpy's
    random generator and prints; it reads the parameters and the recurrent
    state, assigns neither, and is taken not to raise. *)
Definition update (V : nat) (st : train_state) : result train_state :=
  m ← match t_memory st with Some m => Ok m | None => Raise NameError end;
  rP ← forward_call V (t_inputs st) (t_targets st) m (t_params st);
  let '(loss, activations, m', P) := rP in
  g ← backward P (t_inputs st) activations true;
  let M' := adagrad_momentum g (t_momentum st) in
  Ok {| t_n := t_n st + 1; t_p := t_p st + seq_length;
        t_n_updates := t_n_updates st + 1;
        t_memory := Some m';
        t_inputs := t_inputs st; t_targets := t_targets st;
        t_smooth_loss := t_smooth_loss st * (999 / 1000) + loss * (1 / 1000);
        t_params := adagrad_params P g M';
        t_momentum := M' |}.

Definition train_iteration (V : nat) (c2i : gmap ascii Z) (data : list ascii)
    (st : train_state) : result train_state :=
  st1 ← prepare c2i data st;
  update V st1.

(** [while True: ...; if n_updates >= max_updates: break].  The body runs
    before the test; [fuel] bounds the number of further iterations. *)
Fixpoint train_loop (fuel : nat) (V : nat) (c2i : gmap ascii Z)
    (data : list ascii) (st : train_state) : result train_state :=
  st' ← train_iteration V c2i data st;
  if (max_updates <=? t_n_updates st')%nat then Ok st'
  else match fuel with
       | O => Ok st'
       | S fuel' => train_loop fuel' V c2i data st'
       end.

(** Lines 358-368. [1.0/vocab_size] raises on an empty vocabulary. *)
Definition initial_state (V : nat) (P : params) : train_state :=
  {| t_n := 0; t_p := 0; t_n_updates := 0; t_memory := None;
     t_inputs := []; t_targets := [];
     t_smooth_loss := - ln (1 / INR V) * INR seq_length;
     t_params := P; t_momentum := zero_momentum P |}.

Definition train_init (V : nat) (P : params) : result train_state :=
  if (V =? 0)%nat then Raise ZeroDivisionError
  else Ok (initial_state V P).

Definition train (V : nat) (c2i : gmap ascii Z) (data : list ascii)
    (P : params) : result train_state :=
  st ← train_init V P;
  train_loop max_updates V c2i data st.

(** ** Gradient-check mode (lines 407-449) *)

Inductive pname : Type :=
| PWf | PWi | PWo | PWc | Pbf | Pbi | Pbo | Pbc | PWex | PWhy | Pby.

Definition get_param (n : pname) (P : params) : ndarray :=
  match n with
  | PWf => Wf P | PWi => Wi P | PWo => Wo P | PWc => Wc P
  | Pbf => bf P | Pbi => bi P | Pbo => bo P | Pbc => bc P
  | PWex => Wex P | PWhy => Why P | Pby => by_ P
  end.

Definition set_param (n : pname) (v : ndarray) (P : params) : params :=
  match n with
  | PWf => mkParams (Wex P) v (Wi P) (Wo P) (Wc P) (bf P) (bi P) (bo P) (bc P) (Why P) (by_ P)
  | PWi => mkParams (Wex P) (Wf P) v (Wo P) (Wc P) (bf P) (bi P) (bo P) (bc P) (Why P) (by_ P)
  | PWo => mkParams (Wex P) (Wf P) (Wi P) v (Wc P) (bf P) (bi P) (bo P) (bc P) (Why P) (by_ P)
  | PWc => mkParams (Wex P) (Wf P) (Wi P) (Wo P) v (bf P) (bi P) (bo P) (bc P) (Why P) (by_ P)
  | Pbf => mkParams (Wex P) (Wf P) (Wi P) (Wo P) (Wc P) v (bi P) (bo P) (bc P) (Why P) (by_ P)
  | Pbi => mkParams (Wex P) (Wf P) (Wi P) (Wo P) (Wc P) (bf P) v (bo P) (bc P) (Why P) (by_ P)
  | Pbo => mkParams (Wex P) (Wf P) (Wi P) (Wo P) (Wc P) (bf P) (bi P) v (bc P) (Why P) (by_ P)
  | Pbc => mkParams (Wex P) (Wf P) (Wi P) (Wo P) (Wc P) (bf P) (bi P) (bo P) v (Why P) (by_ P)
  | PWex => mkParams v (Wf P) (Wi P) (Wo P) (Wc P) (bf P) (bi P) (bo P) (bc P) (Why P) (by_ P)
  | PWhy => mkParams (Wex P) (Wf P) (Wi P) (Wo P) (Wc P) (bf P) (bi P) (bo P) (bc P) v (by_ P)
  | Pby => mkParams (Wex P) (Wf P) (Wi P) (Wo P) (Wc P) (bf P) (bi P) (bo P) (bc P) (Why P) v
  end.

(** [a.flat[i]] and [a.flat[i] = v], for [i] in [range(a.size)] *)
Definition flat_get (a : ndarray) (i : nat) : result R :=
  match flat a !! i with
  | Some v => Ok v
  | None => Raise IndexError
  end.

Fixpoint row_set (a : ndarray) (i : nat) (v : R) : ndarray :=
  match a with
  | [] => []
  | r :: a' =>
      if (i <? length r)%nat then <[i := v]> r :: a'
      else r :: row_set a' (i - length r) v
  end.

Definition flat_set (a : ndarray) (i : nat) (v : R) : result ndarray :=
  if (i <? size_of a)%nat then Ok (row_set a i v) else Raise IndexError.

(** The value of a [float64] division: numpy divides by zero without
    raising and yields [inf] or [nan]. *)
Inductive npfloat : Type :=
| Finite (r : R)
| Inf
| NaN.

(** [x / y] for a divisor that may be zero and [0 <= x] *)
Definition np_divide (x y : R) : npfloat :=
  if Req_dec_T y 0
  then (if Req_dec_T x 0 then NaN else Inf)
  else Finite (x / y).

(** [v > c]: every comparison with [nan] is false *)
Definition np_gt (v : npfloat) (c : R) : bool :=
  match v with
  | Finite r => if Rlt_dec c r then true else false
  | Inf => true
  | NaN => false
  end.

Inductive event : Type :=
| PrintName (name : string)
| PrintWarning (grad_numerical grad_analytic : R) (rel_error : npfloat).

Definition delta : R := 1 / 1000.

(** Line 446. *)
Definition rel_error (grad_analytic grad_numerical : R) : npfloat :=
  np_divide (Rabs (grad_analytic - grad_numerical))
            (Rabs (grad_numerical + grad_analytic)).

(** Lines 442-449: what is compared and printed for one element. *)
Definition compare_element (grad_analytic loss_positive loss_negative : R)
    : list event :=
  let grad_numerical := (loss_positive - loss_negative) / (2 * delta) in
  let e := rel_error grad_analytic grad_numerical in
  if np_gt e (1 / 100)
  then [PrintWarning grad_numerical grad_analytic e]
  else [].

(** Lines 435-449: the body of [for i in range(weight.size)].  The weight is
    one of the global parameter arrays, so writing its element changes what
    [forward] reads. *)
Definition check_element (V : nat) (inputs targets : list Z) (m : memory)
    (n : pname) (grad : ndarray) (i : nat) (P : params)
    : result (list event * params) :=
  w ← flat_get (get_param n P) i;
  wp ← flat_set (get_param n P) i (w + delta);
  let P1 := set_param n wp P in
  rp ← forward_call V inputs targets m P1;
  let '(loss_positive, _, _, P1) := rp in
  wn ← flat_set (get_param n P1) i (w - delta);
  let P2 := set_param n wn P1 in
  rn ← forward_call V inputs targets m P2;
  let '(loss_negative, _, _, P2) := rn in
  w0 ← flat_set (get_param n P2) i w;
  let P3 := set_param n w0 P2 in
  grad_analytic ← flat_get grad i;
  Ok (compare_element grad_analytic loss_positive loss_negative, P3).

(** A run that prints and may then raise: the lines printed so far, and
    either the final value or the exception. *)
Definition logged (A : Type) : Type := (list event * result A)%type.

Fixpoint check_elements (V : nat) (inputs targets : list Z) (m : memory)
    (n : pname) (grad : ndarray) (idx : list nat) (P : params)
    : logged params :=
  match idx with
  | [] => ([], Ok P)
  | i :: idx' =>
      match check_element V inputs targets m n grad i P with
      | Raise e => ([], Raise e)
      | Ok (out, P') =>
          let '(out', r) := check_elements V inputs targets m n grad idx' P' in
          (out ++ out', r)
      end
  end.

Definition show_shape (s : nat * nat) : string :=
  "(" +:+ pretty (fst s) +:+ ", " +:+ pretty (snd s) +:+ ")".

(** Line 428. *)
Definition mismatch_message (weight grad : ndarray) : string :=
  "Dimensions dont match between weight and gradient "
  +:+ show_shape (shape weight) +:+ " and " +:+ show_shape (shape grad) +:+ ".".

Definition shape_eqb (s1 s2 : nat * nat) : bool :=
  (fst s1 =? fst s2)%nat && (snd s1 =? snd s2)%nat.

(** Lines 424-449: the loop over the (weight, grad, name) triples. *)
Fixpoint check_pairs (V : nat) (inputs targets : list Z) (m : memory)
    (triples : list (pname * ndarray * string)) (P : params)
    : logged params :=
  match triples with
  | [] => ([], Ok P)
  | (n, grad, name) :: rest =>
      let weight := get_param n P in
      let str_ := mismatch_message weight grad in
      if shape_eqb (shape weight) (shape grad)
      then
        let '(out, r) :=
          check_elements V inputs targets m n grad
            (seq 0 (size_of weight)) P in
        match r with
        | Raise e => (PrintName name :: out, Raise e)
        | Ok P' =>
            let '(out', r') := check_pairs V inputs targets m rest P' in
            (PrintName name :: out ++ out', r')
        end
      else ([], Raise (AssertionError str_))
  end.

Definition gradcheck_triples (g : gradients)
    : list (pname * ndarray * string) :=
  [ (PWf, dWf g, "Wf"%string); (PWi, dWi g, "Wi"%string);
    (PWo, dWo g, "Wo"%string); (PWc, dWc g, "Wc"%string);
    (Pbf, dbf g, "bf"%string); (Pbi, dbi g, "bi"%string);
    (Pbo, dbo g, "bo"%string); (Pbc, dbc g, "bc"%string);
    (PWex, dWex g, "Wex"%string); (PWhy, dWhy g, "Why"%string);
    (Pby, dby g, "by"%string) ].

Definition gradcheck (V : nat) (c2i : gmap ascii Z) (data : list ascii)
    (P : params) : logged params :=
  let p := O in
  match
    (inputs ← encode c2i (slice data p (p + seq_length));
     targets ← encode c2i (slice data (p + 1) (p + seq_length + 1));
     let m := (zeros hidden_size 1, zeros hidden_size 1) in
     rP ← forward_call V inputs targets m P;
     let '(loss, activations, _, P) := rP in
     g ← backward P inputs activations false;
     Ok (inputs, targets, m, g, P))
  with
  | Raise e => ([], Raise e)
  | Ok (inputs, targets, m, g, P) =>
      check_pairs V inputs targets m (gradcheck_triples g) P
  end.

(** ** The program (lines 36-44, 356, 407) *)

Definition main (option : string) (data : list ascii) (d : randn_draws)
    : logged unit :=
  let chars := chars_of data in
  let vocab_size := length chars in
  let char_to_ix := char_to_ix_of chars in
  let P := init_params vocab_size d in
  if String.eqb option "train" then
    match train vocab_size char_to_ix data P with
    | Ok _ => ([], Ok tt)
    | Raise e => ([], Raise e)
    end
  else if String.eqb option "gradcheck" then
    match gradcheck vocab_size char_to_ix data P with
    | (out, Ok _) => (out, Ok tt)
    | (out, Raise e) => (out, Raise e)
    end
  else ([], Ok tt).

(** ** The forward recurrence as spec.md 4.1 words it

    These definitions follow the specification's text (steps 1-7 of its
    section 4.1), not the code; the theorems below compare [forward] with
    them. *)
Module Spec.

(** step 1: the one-hot column of index [i] *)
Definition onehot (V i : nat) : ndarray :=
  map (fun j => [if (j =? i)%nat then 1 else 0]) (seq 0 V).

Definition sigma (v : R) : R := 1 / (1 + exp (- v)).

(** step 4: [act(W . concat + b)] *)
Definition gate (act : R -> R) (W b concat : ndarray) : ndarray :=
  amap act (aadd (dot W concat) b).

(** the softmax function, [exp(x_i) / sum_j exp(x_j)] *)
Definition softmax (x : ndarray) : ndarray :=
  let s := asum (amap exp x) in
  amap (fun v => exp v / s) x.

(** steps 1-6: from (hidden_{t-1}, cell_{t-1}) and input_t to
    (hidden_t, cell_t) *)
Definition step (V : nat) (P : params) (hc : memory) (input : Z) : memory :=
  let embedded := dot (Wex P) (onehot V (Z.to_nat input)) in
  let concat := row_stack (fst hc) embedded in
  let forget := gate sigma (Wf P) (bf P) concat in
  let input_gate := gate sigma (Wi P) (bi P) concat in
  let output := gate sigma (Wo P) (bo P) concat in
  let candidate := gate tanh (Wc P) (bc P) concat in
  let cell := aadd (amul forget (snd hc)) (amul input_gate candidate) in
  let hidden := amul output (amap tanh cell) in
  (hidden, cell).

(** (hidden_t, cell_t), the state after the time steps [0..t] *)
Definition state (V : nat) (P : params) (m : memory) (inputs : list Z)
    (t : nat) : memory :=
  foldl (step V P) m (take (S t) inputs).

(** step 7: p_t *)
Definition probs (P : params) (hidden : ndarray) : ndarray :=
  softmax (aadd (dot (Why P) hidden) (by_ P)).

(** [p[k]] for a column [p] *)
Definition entry (p : ndarray) (k : Z) : R :=
  match p !! Z.to_nat k with
  | Some (v :: _) => v
  | _ => 0
  end.

(** the sum over [t = 0..T-1] of [-log(p_t[target_t])] *)
Definition loss (V : nat) (P : params) (m : memory)
    (inputs targets : list Z) : R :=
  rsum (map (fun t =>
               - ln (entry (probs P (fst (state V P m inputs t)))
                           (nth t targets 0%Z)))
            (seq 0 (length inputs))).

End Spec.

(** ** One time step of [forward] as a function of the carried state

    [cell] is the body of the loop of [forward] with the two dictionary reads
    [hs[t-1]] and [cs[t-1]] replaced by arguments; [record_step] is what the
    body stores.  [forward_step_cell] below relates them to [forward_step]. *)

Record tvals : Type := mkTvals {
  v_x : ndarray; v_we : ndarray; v_z : ndarray;
  v_f : ndarray; v_i : ndarray; v_cc : ndarray; v_c : ndarray;
  v_o : ndarray; v_h : ndarray; v_lg : ndarray; v_p : ndarray;
  v_y : ndarray; v_loss : R
}.

Definition cell (V : nat) (P : params) (inputs targets : list Z) (t : nat)
    (hprev cprev : ndarray) : result tvals :=
  let k := Z.of_nat t in
  ix ← py_index inputs k;
  x ← setitem_row (zeros V 1) ix 1;
  let we := dot (Wex P) x in
  let z := row_stack hprev we in
  let f := sigmoid (aadd (dot (Wf P) z) (bf P)) in
  let i := sigmoid (aadd (dot (Wi P) z) (bi P)) in
  let cc := amap tanh (aadd (dot (Wc P) z) (bc P)) in
  let c := aadd (amul f cprev) (amul i cc) in
  let o := sigmoid (aadd (dot (Wo P) z) (bo P)) in
  let h := amul o (amap tanh c) in
  let lg := aadd (dot (Why P) h) (by_ P) in
  p ← softmax lg;
  tx ← py_index targets k;
  y ← setitem_row (zeros V 1) tx 1;
  Ok {| v_x := x; v_we := we; v_z := z; v_f := f; v_i := i; v_cc := cc;
        v_c := c; v_o := o; v_h := h; v_lg := lg; v_p := p; v_y := y;
        v_loss := asum (amul (amap (fun v => - ln v) p) y) |}.

Definition record_step (a : activations) (k : Z) (v : tvals) : activations :=
  {| hs := <[k := v_h v]> (hs a); cs := <[k := v_c v]> (cs a);
     xs := <[k := v_x v]> (xs a); zs := <[k := v_z v]> (zs a);
     wes := <[k := v_we v]> (wes a); os := <[k := v_lg v]> (os a);
     ps := <[k := v_p v]> (ps a); ys := <[k := v_y v]> (ys a);
     f_gate := <[k := v_f v]> (f_gate a); i_gate := <[k := v_i v]> (i_gate a);
     o_gate := <[k := v_o v]> (o_gate a);
     c_cand := <[k := v_cc v]> (c_cand a) |}.

(** The time steps [ts] from the state [hc]: the values of every step. *)
Fixpoint run_cells (V : nat) (P : params) (inputs targets : list Z)
    (ts : list nat) (hc : memory) : result (list tvals) :=
  match ts with
  | [] => Ok []
  | t :: ts' =>
      v ← cell V P inputs targets t (fst hc) (snd hc);
      vs ← run_cells V P inputs targets ts' (v_h v, v_c v);
      Ok (v :: vs)
  end.

Fixpoint record_all (a : activations) (s : nat) (vs : list tvals)
    : activations :=
  match vs with
  | [] => a
  | v :: vs' => record_all (record_step a (Z.of_nat s) v) (S s) vs'
  end.

Definition last_memory (m : memory) (vs : list tvals) : memory :=
  match last vs with
  | Some v => (v_h v, v_c v)
  | None => m
  end.

Definition total_loss (l : R) (vs : list tvals) : R :=
  foldl (fun l v => l + v_loss v) l vs.

(** The twelve dictionaries of the activation record, and the value each
    receives at a time step. *)
Inductive field : Type :=
| Fhs | Fcs | Fxs | Fzs | Fwes | Fos | Fps | Fys | Ff | Fi | Fo | Fcc.

Definition dict_of (fl : field) (a : activations) : gmap Z ndarray :=
  match fl with
  | Fhs => hs a | Fcs => cs a | Fxs => xs a | Fzs => zs a | Fwes => wes a
  | Fos => os a | Fps => ps a | Fys => ys a | Ff => f_gate a
  | Fi => i_gate a | Fo => o_gate a | Fcc => c_cand a
  end.

Definition val_of (fl : field) (v : tvals) : ndarray :=
  match fl with
  | Fhs => v_h v | Fcs => v_c v | Fxs => v_x v | Fzs => v_z v
  | Fwes => v_we v | Fos => v_lg v | Fps => v_p v | Fys => v_y v
  | Ff => v_f v | Fi => v_i v | Fo => v_o v | Fcc => v_cc v
  end.

(** The values of one time step, written with the specification's one-hot
    columns and softmax; [cell_ok] shows that [cell] computes them. *)
Definition tvals_of (V : nat) (P : params) (h c : ndarray) (ix tx : Z)
    : tvals :=
  let x := Spec.onehot V (Z.to_nat ix) in
  let we := dot (Wex P) x in
  let z := row_stack h we in
  let f := sigmoid (aadd (dot (Wf P) z) (bf P)) in
  let i := sigmoid (aadd (dot (Wi P) z) (bi P)) in
  let cc := amap tanh (aadd (dot (Wc P) z) (bc P)) in
  let c' := aadd (amul f c) (amul i cc) in
  let o := sigmoid (aadd (dot (Wo P) z) (bo P)) in
  let h' := amul o (amap tanh c') in
  let lg := aadd (dot (Why P) h') (by_ P) in
  let p := Spec.softmax lg in
  {| v_x := x; v_we := we; v_z := z; v_f := f; v_i := i; v_cc := cc;
     v_c := c'; v_o := o; v_h := h'; v_lg := lg; v_p := p;
     v_y := Spec.onehot V (Z.to_nat tx);
     v_loss := - ln (Spec.entry p tx) |}.

Record tvals_wf (V : nat) (v : tvals) : Prop := mkTvalsWf {
  wfv_x : has_shape V 1 (v_x v);
  wfv_we : has_shape emb_size 1 (v_we v);
  wfv_z : has_shape concat_size 1 (v_z v);
  wfv_f : has_shape hidden_size 1 (v_f v);
  wfv_i : has_shape hidden_size 1 (v_i v);
  wfv_cc : has_shape hidden_size 1 (v_cc v);
  wfv_c : has_shape hidden_size 1 (v_c v);
  wfv_o : has_shape hidden_size 1 (v_o v);
  wfv_h : has_shape hidden_size 1 (v_h v);
  wfv_lg : has_shape V 1 (v_lg v);
  wfv_p : has_shape V 1 (v_p v);
  wfv_y : has_shape V 1 (v_y v)
}.

(** A chunk the program can build: as many targets as inputs, every index
    that of a vocabulary character. *)
Definition valid_index (V : nat) (i : Z) : Prop := (0 <= i < Z.of_nat V)%Z.

Record valid_chunk (V : nat) (inputs targets : list Z) : Prop := mkChunk {
  chunk_length : length inputs = length targets;
  chunk_inputs : Forall (valid_index V) inputs;
  chunk_targets : Forall (valid_index V) targets
}.

Definition wf_memory (m : memory) : Prop :=
  has_shape hidden_size 1 m.1 /\ has_shape hidden_size 1 m.2.

(** The values of all the time steps of a chunk, from the carried state. *)
Fixpoint trace (V : nat) (P : params) (hc : memory) (inputs targets : list Z)
    : list tvals :=
  match inputs, targets with
  | ix :: inputs', tx :: targets' =>
      let v := tvals_of V P hc.1 hc.2 ix tx in
      v :: trace V P (v_h v, v_c v) inputs' targets'
  | _, _ => []
  end.

(** Parameters of the right shapes whose entries are all zero, and the
    zero recurrent state; they serve as concrete inputs. *)
Definition zero_params (V : nat) : params :=
  {| Wex := zeros emb_size V;
     Wf := zeros hidden_size concat_size; Wi := zeros hidden_size concat_size;
     Wo := zeros hidden_size concat_size; Wc := zeros hidden_size concat_size;
     bf := zeros hidden_size 1; bi := zeros hidden_size 1;
     bo := zeros hidden_size 1; bc := zeros hidden_size 1;
     Why := zeros V hidden_size; by_ := zeros V 1 |}.

Definition zero_memory : memory := (zeros hidden_size 1, zeros hidden_size 1).

(** ** Backpropagation through time as spec.md 4.2 words it

    The specification's backward pass consumes the activation record of a
    chunk: here the list of the values of its time steps and the cell state
    carried into it.  It walks the record's own time steps from the last to
    the first. *)
Module SpecBPTT.

(** one step of the derivation, for the record [v] of a time step whose
    previous cell state is [cell_prev] *)
Definition step (P : params) (cell_prev : ndarray) (v : tvals)
    (st : bstate) : blocals * bstate :=
  let g := acc st in
  let d_logits := asub (v_p v) (v_y v) in
  let dhidden := aadd (dot (transpose (Why P)) d_logits) (dhnext st) in
  let d_output := amul (amul (dsigmoid (v_o v)) dhidden)
                       (amap tanh (v_c v)) in
  let dcell := aadd (amul (amul (v_o v) dhidden)
                          (dtanh (amap tanh (v_c v)))) (dcnext st) in
  let d_forget := amul (amul (dsigmoid (v_f v)) cell_prev) dcell in
  let d_input := amul (amul (dsigmoid (v_i v)) (v_cc v)) dcell in
  let d_candidate := amul (amul (dtanh (v_cc v)) (v_i v)) dcell in
  let concat_T := transpose (v_z v) in
  let d_concat :=
    aadd (aadd (aadd (dot (transpose (Wo P)) d_output)
                     (dot (transpose (Wi P)) d_input))
               (dot (transpose (Wf P)) d_forget))
         (dot (transpose (Wc P)) d_candidate) in
  let d_embedding := drop hidden_size d_concat in
  ({| l_do := d_logits; l_dh := dhidden; l_dh_o := d_output;
      l_dh_c := dcell; l_dc_f := d_forget; l_dc_i := d_input;
      l_dc_c := d_candidate; l_dz := d_concat; l_dwes := d_embedding |},
   {| acc :=
        {| dWex := aadd (dWex g) (dot d_embedding (transpose (v_x v)));
           dWf := aadd (dWf g) (dot d_forget concat_T);
           dWi := aadd (dWi g) (dot d_input concat_T);
           dWo := aadd (dWo g) (dot d_output concat_T);
           dWc := aadd (dWc g) (dot d_candidate concat_T);
           dbf := aadd (dbf g) d_forget;
           dbi := aadd (dbi g) d_input;
           dbo := aadd (dbo g) d_output;
           dbc := aadd (dbc g) d_candidate;
           dWhy := aadd (dWhy g) (dot d_logits (transpose (v_h v)));
           dby := aadd (dby g) d_logits |};
      dhnext := take hidden_size d_concat;
      dcnext := amul (v_f v) dcell |}).

(** the time steps of the record [vs] in strictly reverse order; the first
    step of [vs] has previous cell state [cell_prev] *)
Fixpoint run (P : params) (cell_prev : ndarray) (vs : list tvals)
    (st : bstate) : bstate :=
  match vs with
  | [] => st
  | v :: vs' => snd (step P cell_prev v (run P (v_c v) vs' st))
  end.

(** zeroed accumulators and zero-initialised carried gradients *)
Definition init (P : params) : bstate :=
  {| acc := zero_gradients P;
     dhnext := zeros hidden_size 1;
     dcnext := zeros hidden_size 1 |}.

(** the gradients of the chunk, before the optional clipping *)
Definition bptt (P : params) (m : memory) (vs : list tvals) : gradients :=
  acc (run P m.2 vs (init P)).

End SpecBPTT.

Record grads_wf (V : nat) (g : gradients) : Prop := mkGradsWf {
  wfg_Wex : has_shape emb_size V (dWex g);
  wfg_Wf : has_shape hidden_size concat_size (dWf g);
  wfg_Wi : has_shape hidden_size concat_size (dWi g);
  wfg_Wo : has_shape hidden_size concat_size (dWo g);
  wfg_Wc : has_shape hidden_size concat_size (dWc g);
  wfg_bf : has_shape hidden_size 1 (dbf g);
  wfg_bi : has_shape hidden_size 1 (dbi g);
  wfg_bo : has_shape hidden_size 1 (dbo g);
  wfg_bc : has_shape hidden_size 1 (dbc g);
  wfg_Why : has_shape V hidden_size (dWhy g);
  wfg_by : has_shape V 1 (dby g)
}.

Record bstate_wf (V : nat) (st : bstate) : Prop := mkBStateWf {
  wfb_acc : grads_wf V (acc st);
  wfb_dh : has_shape hidden_size 1 (dhnext st);
  wfb_dc : has_shape hidden_size 1 (dcnext st)
}.

(** The dictionaries of [a] hold the steps [vs] at the keys [s, s+1, ...],
    and the cell state [cprev] at the key [s - 1]. *)
Definition acts_hold (a : activations) (s : nat) (cprev : ndarray)
    (vs : list tvals) : Prop :=
  cs a !! (Z.of_nat s - 1)%Z = Some cprev /\
  forall (fl : field) (j : nat) (v : tvals),
    vs !! j = Some v ->
    dict_of fl a !! Z.of_nat (s + j) = Some (val_of fl v).

(** The (hidden, cell) pair that enters time step [t] of the steps [vs]. *)
Definition prev_memory (m : memory) (vs : list tvals) (t : nat) : memory :=
  match t with
  | O => m
  | S t' => match vs !! t' with
            | Some w => (v_h w, v_c w)
            | None => m
            end
  end.

(** [np.clip] applied to every gradient, or not (lines 279-282) *)
Definition clip_if (clipping : bool) (g : gradients) : gradients :=
  if clipping then gmap_all clip g else g.

(** A concrete run: a vocabulary of two characters, all-zero parameters,
    the chunk with inputs [0; 1] and targets [1; 0], from the zero state. *)
Definition ex_P : params := zero_params 2.
Definition ex_inputs : list Z := [0; 1]%Z.
Definition ex_targets : list Z := [1; 0]%Z.
Definition ex_trace : list tvals :=
  trace 2 ex_P zero_memory ex_inputs ex_targets.
Definition ex_acts : activations :=
  record_all (init_activations zero_memory) 0 ex_trace.
Definition ex_v0 : tvals :=
  tvals_of 2 ex_P zero_memory.1 zero_memory.2 0 1.
Definition ex_v1 : tvals :=
  tvals_of 2 ex_P (v_h ex_v0) (v_c ex_v0) 1 0.

(** ** Training: matched triples and runs of several iterations *)

(** The gradient and the Adagrad accumulator zipped with each parameter in
    lines 395-397. *)
Definition get_grad (n : pname) (g : gradients) : ndarray :=
  match n with
  | PWf => dWf g | PWi => dWi g | PWo => dWo g | PWc => dWc g
  | Pbf => dbf g | Pbi => dbi g | Pbo => dbo g | Pbc => dbc g
  | PWex => dWex g | PWhy => dWhy g | Pby => dby g
  end.

Definition get_mom (n : pname) (M : momentum) : ndarray :=
  match n with
  | PWf => mWf M | PWi => mWi M | PWo => mWo M | PWc => mWc M
  | Pbf => mbf M | Pbi => mbi M | Pbo => mbo M | Pbc => mbc M
  | PWex => mWex M | PWhy => mWhy M | Pby => mby M
  end.

(** [a[r, c]] *)
Definition elem (a : ndarray) (r c : nat) : option R :=
  match a !! r with
  | Some row => row !! c
  | None => None
  end.

(** The shape of each parameter (lines 57-72), which is also the shape of
    its gradient and of its Adagrad accumulator. *)
Definition pshape (V : nat) (n : pname) : nat * nat :=
  match n with
  | PWf | PWi | PWo | PWc => (hidden_size, concat_size)
  | Pbf | Pbi | Pbo | Pbc => (hidden_size, 1%nat)
  | PWex => (emb_size, V)
  | PWhy => (V, hidden_size)
  | Pby => (V, 1%nat)
  end.

Definition mom_wf (V : nat) (M : momentum) : Prop :=
  forall n : pname, has_shape (pshape V n).1 (pshape V n).2 (get_mom n M).

Definition train_wf (V : nat) (st : train_state) : Prop :=
  wf_params V (t_params st) /\ mom_wf V (t_momentum st) /\
  forall m : memory, t_memory st = Some m -> wf_memory m.

(** The cursor and the recurrent state with which an iteration calls
    [forward] (lines 372-375). *)
Definition chunk_start (data : list ascii) (st : train_state) : nat :=
  if must_reset data st then O else t_p st.

Definition chunk_memory (data : list ascii) (st : train_state)
    : option memory :=
  if must_reset data st then Some zero_memory else t_memory st.

(** The state an iteration leaves, from what it computed. *)
Definition next_state (data : list ascii) (st : train_state)
    (inputs targets : list Z) (loss : R) (m' : memory) (g : gradients)
    : train_state :=
  {| t_n := t_n st + 1;
     t_p := chunk_start data st + seq_length;
     t_n_updates := t_n_updates st + 1;
     t_memory := Some m';
     t_inputs := inputs; t_targets := targets;
     t_smooth_loss := t_smooth_loss st * (999 / 1000) + loss * (1 / 1000);
     t_params :=
       adagrad_params (t_params st) g (adagrad_momentum g (t_momentum st));
     t_momentum := adagrad_momentum g (t_momentum st) |}.

(** [k] iterations of the body of the training loop, one after the other. *)
Fixpoint iterations (k : nat) (V : nat) (c2i : gmap ascii Z)
    (data : list ascii) (st : train_state) : result train_state :=
  match k with
  | O => Ok st
  | S k' => st' ← train_iteration V c2i data st;
            iterations k' V c2i data st'
  end.

(** The vocabulary and the iteration of the program run on the corpus
    [data]. *)
Definition vocab_size_of (data : list ascii) : nat := length (chars_of data).
Definition char_to_ix (data : list ascii) : gmap ascii Z :=
  char_to_ix_of (chars_of data).

(** Every index of the character table is an index into the vocabulary. *)
Definition c2i_valid (V : nat) (c2i : gmap ascii Z) : Prop :=
  forall (ch : ascii) (i : Z), c2i !! ch = Some i -> valid_index V i.

(** A concrete training run: the corpus of 130 letters [a], all-zero
    parameters, and its first two iterations. *)
Definition ex_data : list ascii := replicate 130 "a"%char.
Definition ex_st0 : train_state :=
  initial_state (vocab_size_of ex_data) (zero_params (vocab_size_of ex_data)).
Definition ex_iterate (st : train_state) : train_state :=
  match train_iteration (vocab_size_of ex_data) (char_to_ix ex_data)
          ex_data st with
  | Ok st' => st'
  | Raise _ => st
  end.
Definition ex_st1 : train_state := ex_iterate ex_st0.
Definition ex_st2 : train_state := ex_iterate ex_st1.

(** The shapes [np.random.randn] is asked for (lines 57-71). *)
Record wf_draws (V : nat) (d : randn_draws) : Prop := mkWfDraws {
  wfd_Wex : has_shape emb_size V (r_Wex d);
  wfd_Wf : has_shape hidden_size concat_size (r_Wf d);
  wfd_Wi : has_shape hidden_size concat_size (r_Wi d);
  wfd_Wo : has_shape hidden_size concat_size (r_Wo d);
  wfd_Wc : has_shape hidden_size concat_size (r_Wc d);
  wfd_Why : has_shape V hidden_size (r_Why d)
}.

Definition zero_draws (V : nat) : randn_draws :=
  {| r_Wex := zeros emb_size V;
     r_Wf := zeros hidden_size concat_size;
     r_Wi := zeros hidden_size concat_size;
     r_Wo := zeros hidden_size concat_size;
     r_Wc := zeros hidden_size concat_size;
     r_Why := zeros V hidden_size |}.

(** The corpus [ab], shorter than a chunk. *)
Definition short_data : list ascii := ["a"%char; "b"%char].

(** ** The index-to-character table and decoding (lines 41, 382) *)

(** [ix_to_char = { i:ch for i,ch in enumerate(chars) }] *)
Definition ix_to_char_of (chars : list ascii) : gmap Z ascii :=
  list_to_map (imap (fun i ch => (Z.of_nat i, ch)) chars).

Definition ix_to_char (data : list ascii) : gmap Z ascii :=
  ix_to_char_of (chars_of data).

(** [[ix_to_char[ix] for ix in l]] *)
Fixpoint decode (i2c : gmap Z ascii) (l : list Z) : result (list ascii) :=
  match l with
  | [] => Ok []
  | i :: l' =>
      match i2c !! i with
      | Some ch => s ← decode i2c l'; Ok (ch :: s)
      | None => Raise KeyError
      end
  end.

(** ** Sampling (lines 289-354)

    [np.random.multinomial(1, pvals)] is a step of a random generator: from
    the generator's state and the probabilities it gives the vector of counts
    and the next state.  The generator is a parameter of the model. *)

Record sstate : Type := mkSState {
  s_h : ndarray;
  s_c : ndarray;
  s_x : ndarray;
  s_index : option nat;
  s_result : list nat
}.

(** Lines 345-347: [for j in range(len(ix)): if ix[j] == 1: index = j].
    [index] keeps its value when no count is 1. *)
Definition pick_index (ix : list Z) (index : option nat) : option nat :=
  foldl (fun idx j =>
           match ix !! j with
           | Some 1%Z => Some j
           | _ => idx
           end)
        index (seq 0 (length ix)).

(** The body of [for t in range(n)], lines 300-352. *)
Definition sample_step {G : Type} (multinomial : G -> list R -> list Z * G)
    (V : nat) (P : params) (st : sstate) (g : G) : result (sstate * G) :=
  let wes_ := dot (Wex P) (s_x st) in
  let zs_ := row_stack (s_h st) wes_ in
  let f := sigmoid (aadd (dot (Wf P) zs_) (bf P)) in
  let i := sigmoid (aadd (dot (Wi P) zs_) (bi P)) in
  let cc := amap tanh (aadd (dot (Wc P) zs_) (bc P)) in
  let c := aadd (amul f (s_c st)) (amul i cc) in
  let o := sigmoid (aadd (dot (Wo P) zs_) (bo P)) in
  let h := amul o (amap tanh c) in
  let os_ := aadd (dot (Why P) h) (by_ P) in
  ps_ ← softmax os_;
  let '(ix, g') := multinomial g (flat ps_) in
  let index := pick_index ix (s_index st) in
  j ← match index with Some j => Ok j | None => Raise NameError end;
  x ← setitem_row (zeros V 1) (Z.of_nat j) 1;
  Ok ({| s_h := h; s_c := c; s_x := x; s_index := index;
         s_result := s_result st ++ [j] |}, g').

Fixpoint sample_loop {G : Type} (multinomial : G -> list R -> list Z * G)
    (V : nat) (P : params) (n : nat) (st : sstate) (g : G)
    : result (sstate * G) :=
  match n with
  | O => Ok (st, g)
  | S n' =>
      r ← sample_step multinomial V P st g;
      sample_loop multinomial V P n' r.1 r.2
  end.

(** [sample(memory, seed_ix, n)], with the generator state before and
    after. *)
Definition sample {G : Type} (multinomial : G -> list R -> list Z * G)
    (V : nat) (P : params) (m : memory) (seed_ix : Z) (n : nat) (g : G)
    : result (list nat * G) :=
  x ← setitem_row (zeros V 1) seed_ix 1;
  r ← sample_loop multinomial V P n
        {| s_h := m.1; s_c := m.2; s_x := x; s_index := None;
           s_result := [] |} g;
  Ok (s_result r.1, r.2).

(** What numpy promises of [multinomial(1, pvals)]: as many counts as
    probabilities, one of them 1. *)
Definition one_trial {G : Type} (multinomial : G -> list R -> list Z * G)
    : Prop :=
  forall (g : G) (pvals : list R),
    pvals <> [] ->
    length (multinomial g pvals).1 = length pvals /\
    exists j : nat, (multinomial g pvals).1 !! j = Some 1%Z.

(** A generator that always draws the first outcome. *)
Definition first_outcome (g : unit) (pvals : list R) : list Z * unit :=
  (match pvals with
   | [] => []
   | _ :: l => 1%Z :: map (fun _ => 0%Z) l
   end, g).

(** The names printed by a run of the gradient checker. *)
Definition printed_names (out : list event) : list string :=
  omap (fun e => match e with
                 | PrintName s => Some s
                 | PrintWarning _ _ _ => None
                 end) out.

(** Every element of every Adagrad accumulator is non-negative. *)
Definition mom_nonneg (M : momentum) : Prop :=
  forall (n : pname) (r c : nat) (mv : R),
    elem (get_mom n M) r c = Some mv -> 0 <= mv.

(** ** Predicates on arrays *)

(** The elements of [p] lie in (0, 1] and sum to 1. *)
Definition is_distribution (p : ndarray) : Prop :=
  asum p = 1 /\
  forall (r c : nat) (v : R), elem p r c = Some v -> 0 < v <= 1.

(** Every element of [a] lies in the closed interval [lo, hi]. *)
Definition within (lo hi : R) (a : ndarray) : Prop :=
  forall (r c : nat) (v : R), elem a r c = Some v -> lo <= v <= hi.

(** Every element of [a] lies strictly between [lo] and [hi]. *)
Definition strictly_within (lo hi : R) (a : ndarray) : Prop :=
  forall (r c : nat) (v : R), elem a r c = Some v -> lo < v < hi.

(** ** The state of the training loop between two iterations *)

(** What holds of the module-level variables before every iteration on the
    corpus [data]: the shapes, the two counters in step, the cursor a
    multiple of [seq_length], and after the first iteration a recurrent
    state and a cursor inside the corpus. *)
Definition train_inv (V : nat) (data : list ascii) (st : train_state)
    : Prop :=
  train_wf V st /\ t_n_updates st = t_n st /\
  (exists j : nat, t_p st = (j * seq_length)%nat) /\
  (t_n st = O \/
   (is_Some (t_memory st) /\
    (seq_length <= t_p st)%nat /\ (t_p st < length data)%nat)).

(** ** A concrete run of the sampler

    One step from the zero state with the seed 0, all-zero parameters over a
    vocabulary of two characters and the generator [first_outcome]. *)
Definition ex_sample_init : sstate :=
  {| s_h := zero_memory.1; s_c := zero_memory.2;
     s_x := Spec.onehot 2 (Z.to_nat 0);
     s_index := None; s_result := [] |}.

Definition ex_sample_state : sstate :=
  match sample_loop first_outcome 2 ex_P 1 ex_sample_init tt with
  | Ok (st, _) => st
  | Raise _ => ex_sample_init
  end.

(** ** One iteration of the training loop, as the next state shows it

    The iteration that leads from [st] to [st'] took its chunk at the cursor
    [p], called [forward] on it with the recurrent state [m] and the
    parameters of [st], called [backward] on the record [forward] returned,
    and left in [st'] the state [m'] that [forward] returned, the cursor
    [p + seq_length], the loss mixed into [smooth_loss] and the Adagrad
    update by the gradient (lines 376-403). *)
Definition iteration_runs (V : nat) (c2i : gmap ascii Z) (data : list ascii)
    (st st' : train_state) (p : nat) (m m' : memory) : Prop :=
  exists (inputs targets : list Z) (loss : R) (acts : activations)
         (g : gradients),
    encode c2i (slice data p (p + seq_length)) = Ok inputs /\
    encode c2i (slice data (p + 1) (p + seq_length + 1)) = Ok targets /\
    forward V (t_params st) inputs targets m = Ok (loss, acts, m') /\
    backward (t_params st) inputs acts true = Ok g /\
    st' = {| t_n := t_n st + 1; t_p := p + seq_length;
             t_n_updates := t_n_updates st + 1;
             t_memory := Some m';
             t_inputs := inputs; t_targets := targets;
             t_smooth_loss :=
               t_smooth_loss st * (999 / 1000) + loss * (1 / 1000);
             t_params :=
               adagrad_params (t_params st) g
                 (adagrad_momentum g (t_momentum st));
             t_momentum := adagrad_momentum g (t_momentum st) |}.

(** * Properties *)

(** ** The exception monad *)

Lemma bind_Ok {A B : Type} (a : A) (k : A -> result B) : (Ok a ≫= k) = k a.
Proof. reflexivity. Qed.

Lemma bind_Raise {A B : Type} (e : exn) (k : A -> result B) :
  (Raise e ≫= k) = Raise e.
Proof. reflexivity. Qed.

Lemma bind_inv_Ok {A B : Type} (m : result A) (k : A -> result B) (b : B) :
  (m ≫= k) = Ok b -> exists a, m = Ok a /\ k a = Ok b.
Proof. destruct m as [a|e]; [eauto | discriminate]. Qed.

(** ** Shapes *)

Lemma hidden_size_pos : (0 < hidden_size)%nat.
Proof. unfold hidden_size. lia. Qed.

Lemma concat_size_eq : concat_size = (hidden_size + emb_size)%nat.
Proof. unfold concat_size. lia. Qed.

Lemma has_shape_amap (f : R -> R) (r c : nat) (a : ndarray) :
  has_shape r c a -> has_shape r c (amap f a).
Proof.
  intros [Hl Hr]. split.
  - unfold amap. by rewrite length_map.
  - unfold amap. apply Forall_map. eapply Forall_impl; [exact Hr|].
    intros row Hrow. simpl. by rewrite length_map.
Qed.

Lemma has_shape_azip (f : R -> R -> R) (r c : nat) (a b : ndarray) :
  has_shape r c a -> has_shape r c b -> has_shape r c (azip f a b).
Proof.
  intros [Hla Hra] [Hlb Hrb]. unfold azip. split.
  - rewrite length_zip_with. lia.
  - clear Hla Hlb. revert b Hrb.
    induction Hra as [|ra a Hra1 Hra2 IH]; intros b Hrb; [constructor|].
    destruct Hrb as [|rb b Hrb1 Hrb2]; [constructor|].
    simpl. constructor; [|by apply IH].
    rewrite length_zip_with. lia.
Qed.

Lemma has_shape_app (r1 r2 c : nat) (a b : ndarray) :
  has_shape r1 c a -> has_shape r2 c b -> has_shape (r1 + r2) c (row_stack a b).
Proof.
  intros [Hla Hra] [Hlb Hrb]. unfold row_stack. split.
  - rewrite length_app. lia.
  - by apply Forall_app.
Qed.

Lemma has_shape_zeros (r c : nat) : has_shape r c (zeros r c).
Proof.
  unfold zeros. split; [by rewrite length_replicate|].
  apply Forall_replicate. by rewrite length_replicate.
Qed.

Lemma has_shape_zeros_like (r c : nat) (a : ndarray) :
  has_shape r c a -> has_shape r c (zeros_like a).
Proof. apply (has_shape_amap (fun _ => 0)). Qed.

Lemma length_transpose (r c : nat) (b : ndarray) :
  has_shape r c b -> (0 < r)%nat -> has_shape c r (transpose b).
Proof.
  intros [Hl Hr] Hpos. destruct b as [|row b]; [simpl in Hl; lia|].
  unfold transpose. inversion Hr as [|? ? Hrow ?]; subst.
  split.
  - by rewrite length_map, length_seq.
  - apply Forall_map, Forall_forall. intros j _. simpl.
    by rewrite length_map.
Qed.

Lemma has_shape_dot (r k c : nat) (a b : ndarray) :
  has_shape r k a -> has_shape k c b -> (0 < k)%nat ->
  has_shape r c (dot a b).
Proof.
  intros [Hla Hra] Hb Hk. unfold dot. split.
  - by rewrite length_map.
  - apply Forall_map, Forall_forall. intros row _. simpl.
    rewrite length_map. by apply (length_transpose k c b).
Qed.

Lemma has_shape_take (n r c : nat) (a : ndarray) :
  has_shape r c a -> has_shape (n `min` r) c (take n a).
Proof.
  intros [Hl Hr]. split.
  - rewrite length_take. lia.
  - by apply Forall_take.
Qed.

Lemma has_shape_drop (n r c : nat) (a : ndarray) :
  has_shape r c a -> has_shape (r - n) c (drop n a).
Proof.
  intros [Hl Hr]. split.
  - rewrite length_drop. lia.
  - by apply Forall_drop.
Qed.

Lemma has_shape_sigmoid (r c : nat) (a : ndarray) :
  has_shape r c a -> has_shape r c (sigmoid a).
Proof. apply has_shape_amap. Qed.

Lemma has_shape_dsigmoid (r c : nat) (a : ndarray) :
  has_shape r c a -> has_shape r c (dsigmoid a).
Proof.
  intros H. unfold dsigmoid, amul.
  apply has_shape_azip; [done | by apply has_shape_amap].
Qed.

Lemma has_shape_dtanh (r c : nat) (a : ndarray) :
  has_shape r c a -> has_shape r c (dtanh a).
Proof.
  intros H. unfold dtanh, asub, amul.
  apply has_shape_azip; [by apply has_shape_amap | by apply has_shape_azip].
Qed.

Lemma has_shape_unique (r c r' c' : nat) (a : ndarray) :
  has_shape r c a -> has_shape r' c' a -> (0 < r)%nat -> r = r' /\ c = c'.
Proof.
  intros [Hl Hr] [Hl' Hr'] Hpos. split; [lia|].
  destruct a as [|row a]; [simpl in Hl; lia|].
  inversion Hr; inversion Hr'; subst. lia.
Qed.

Lemma shape_has_shape (r c : nat) (a : ndarray) :
  has_shape r c a -> (0 < r)%nat -> shape a = (r, c).
Proof.
  intros [Hl Hr] Hpos. unfold shape.
  destruct a as [|row a]; [simpl in Hl; lia|].
  inversion Hr; subst. reflexivity.
Qed.

Create HintDb shapes.
#[local] Hint Resolve has_shape_amap has_shape_azip has_shape_app
  has_shape_zeros has_shape_zeros_like has_shape_sigmoid has_shape_dsigmoid
  has_shape_dtanh hidden_size_pos : shapes.

(** ** Sums, one-hot columns and the softmax *)

Lemma rsum_app (l1 l2 : list R) : rsum (l1 ++ l2) = rsum l1 + rsum l2.
Proof.
  unfold rsum. induction l1 as [|x l1 IH]; simpl; [lra|]. rewrite IH. lra.
Qed.

Lemma asum_cons (row : list R) (a : ndarray) :
  asum (row :: a) = rsum row + asum a.
Proof. unfold asum, flat. simpl. apply rsum_app. Qed.

Lemma amap_amap (f g : R -> R) (a : ndarray) :
  amap f (amap g a) = amap (fun v => f (g v)) a.
Proof.
  unfold amap. rewrite map_map. apply map_ext. intros row.
  by rewrite map_map.
Qed.

Lemma amap_ext (f g : R -> R) (a : ndarray) :
  (forall v, f v = g v) -> amap f a = amap g a.
Proof.
  intros H. unfold amap. apply map_ext. intros row. by apply map_ext.
Qed.

Lemma asum_amap_scale (f : R -> R) (k : R) (a : ndarray) :
  asum (amap (fun v => f v * k) a) = asum (amap f a) * k.
Proof.
  induction a as [|row a IH]; [unfold asum, rsum; simpl; lra|].
  unfold amap in *. simpl. rewrite !asum_cons, IH.
  assert (rsum (map (fun v => f v * k) row) = rsum (map f row) * k) as ->.
  { unfold rsum. induction row as [|x row IHr]; simpl; [lra|].
    rewrite IHr. lra. }
  lra.
Qed.

Lemma onehot_setitem (V : nat) (ix : Z) :
  (0 <= ix < Z.of_nat V)%Z ->
  setitem_row (zeros V 1) ix 1 = Ok (Spec.onehot V (Z.to_nat ix)).
Proof.
  intros Hix. unfold setitem_row, zeros.
  rewrite length_replicate.
  destruct (ix <? 0)%Z eqn:Hneg; [lia|].
  destruct ((0 <=? ix)%Z && (ix <? Z.of_nat V)%Z)%bool eqn:Hin;
    [|apply andb_false_iff in Hin; destruct Hin; lia].
  f_equal. unfold Spec.onehot. apply list_eq. intros j.
  rewrite list_lookup_fmap.
  destruct (decide (j < V)%nat) as [Hj|Hj].
  - rewrite lookup_seq_lt by done.
    destruct (decide (Z.to_nat ix = j)) as [->|Hne].
    + rewrite list_lookup_alter_eq. rewrite lookup_replicate_2 by done. simpl.
      by rewrite Nat.eqb_refl.
    + rewrite list_lookup_alter_ne by done. rewrite lookup_replicate_2 by done.
      simpl. destruct (j =? Z.to_nat ix)%nat eqn:E; [|done].
      apply Nat.eqb_eq in E. congruence.
  - rewrite lookup_seq_ge by lia. simpl.
    apply lookup_ge_None. rewrite length_alter, length_replicate. lia.
Qed.

Lemma has_shape_onehot (V i : nat) : has_shape V 1 (Spec.onehot V i).
Proof.
  unfold Spec.onehot. split; [by rewrite length_map, length_seq|].
  apply Forall_map, Forall_forall. intros j _. reflexivity.
Qed.

(** The sum of a column multiplied by a one-hot column is the selected
    element. *)
Lemma asum_onehot_from (f : R -> R) (i : nat) (p : ndarray) (s : nat) :
  Forall (fun row => length row = 1%nat) p ->
  asum (amul (amap f p)
          (map (fun j => [if (j =? i)%nat then 1 else 0]) (seq s (length p))))
  = if decide (s <= i < s + length p)%nat
    then f (Spec.entry p (Z.of_nat (i - s)))
    else 0.
Proof.
  intros Hp. revert s. induction Hp as [|row p Hrow Hp IH]; intros s.
  - simpl. case_decide; [lia|]. reflexivity.
  - destruct row as [|v [|? ?]]; try discriminate.
    unfold amul, azip, amap in *. simpl. rewrite asum_cons.
    specialize (IH (S s)).
    simpl in IH. rewrite IH. unfold rsum. simpl.
    destruct (s =? i)%nat eqn:E.
    + apply Nat.eqb_eq in E. subst s.
      repeat case_decide; try lia.
      replace (i - i)%nat with O by lia. unfold Spec.entry. simpl. lra.
    + apply Nat.eqb_neq in E.
      repeat case_decide; try lia; [|lra].
      unfold Spec.entry. rewrite !Nat2Z.id.
      replace (i - s)%nat with (S (i - S s)) by lia. simpl. lra.
Qed.

Lemma cross_entropy_entry (f : R -> R) (V : nat) (tx : Z) (p : ndarray) :
  has_shape V 1 p -> (0 <= tx < Z.of_nat V)%Z ->
  asum (amul (amap f p) (Spec.onehot V (Z.to_nat tx))) = f (Spec.entry p tx).
Proof.
  intros [Hl Hr] Htx. unfold Spec.onehot. rewrite <- Hl.
  rewrite (asum_onehot_from f (Z.to_nat tx) p 0 Hr).
  rewrite decide_True by lia.
  rewrite Nat.sub_0_r, Z2Nat.id by lia. reflexivity.
Qed.

(** The shifted ("stable") softmax of line 31 is the softmax function. *)
Lemma softmax_stable (x : ndarray) :
  flat x <> [] -> softmax x = Ok (Spec.softmax x).
Proof.
  intros Hne. unfold softmax, np_max.
  destruct (flat x) as [|v l] eqn:Hx; [done|]. clear Hne.
  set (m := foldl Rmax v l). simpl. f_equal.
  unfold Spec.softmax. rewrite amap_amap.
  rewrite (amap_ext (fun v0 => exp (v0 - m)) (fun v0 => exp v0 * exp (- m))).
  2:{ intros w. unfold Rminus. apply exp_plus. }
  rewrite (asum_amap_scale exp (exp (- m))).
  apply amap_ext. intros w.
  unfold Rminus, Rdiv. rewrite exp_plus, Rinv_mult.
  assert (exp (- m) <> 0) as Hm by (apply Rgt_not_eq, exp_pos).
  generalize (/ asum (amap exp x)). intros s.
  field. exact Hm.
Qed.

(** ** The loop of [forward] and the recurrence it computes *)

Lemma py_index_lookup {A : Type} (l : list A) (t : nat) (x : A) :
  l !! t = Some x -> py_index l (Z.of_nat t) = Ok x.
Proof.
  intros Hx. pose proof (lookup_lt_Some _ _ _ Hx) as Hlt.
  unfold py_index.
  destruct (Z.of_nat t <? 0)%Z eqn:Hneg; [lia|].
  destruct ((0 <=? Z.of_nat t)%Z && (Z.of_nat t <? Z.of_nat (length l))%Z)%bool
    eqn:Hin; [|apply andb_false_iff in Hin; destruct Hin; lia].
  by rewrite Nat2Z.id, Hx.
Qed.

Lemma py_index_range {A : Type} (l : list A) (t : nat) :
  (length l <= t)%nat -> py_index l (Z.of_nat t) = Raise IndexError.
Proof.
  intros Hge. unfold py_index.
  destruct (Z.of_nat t <? 0)%Z eqn:Hneg; [lia|].
  destruct ((0 <=? Z.of_nat t)%Z && (Z.of_nat t <? Z.of_nat (length l))%Z)%bool
    eqn:Hin; [|done].
  apply andb_true_iff in Hin. lia.
Qed.

Lemma forward_step_cell (V : nat) (P : params) (inputs targets : list Z)
    (t : nat) (a : activations) (loss : R) (hprev cprev : ndarray) :
  hs a !! (Z.of_nat t - 1)%Z = Some hprev ->
  cs a !! (Z.of_nat t - 1)%Z = Some cprev ->
  forward_step V P inputs targets t (a, loss)
  = (v ← cell V P inputs targets t hprev cprev;
     Ok (record_step a (Z.of_nat t) v, loss + v_loss v)).
Proof.
  intros Hh Hc. unfold forward_step, cell, dict_get. rewrite Hh, Hc.
  destruct (py_index inputs (Z.of_nat t)) as [ix|e]; [|done]. simpl.
  destruct (setitem_row (zeros V 1) ix 1) as [x|e]; [|done]. simpl.
  match goal with |- context [softmax ?lg] =>
    destruct (softmax lg) as [p|e]; [|done] end. simpl.
  destruct (py_index targets (Z.of_nat t)) as [tx|e]; [|done]. simpl.
  destruct (setitem_row (zeros V 1) tx 1) as [y|e]; [|done]. reflexivity.
Qed.

Lemma forward_loop_cells (V : nat) (P : params) (inputs targets : list Z)
    (n s : nat) (a : activations) (loss : R) (h c : ndarray) :
  hs a !! (Z.of_nat s - 1)%Z = Some h ->
  cs a !! (Z.of_nat s - 1)%Z = Some c ->
  forward_loop V P inputs targets (seq s n) (a, loss)
  = (vs ← run_cells V P inputs targets (seq s n) (h, c);
     Ok (record_all a s vs, total_loss loss vs)).
Proof.
  revert s a loss h c. induction n as [|n IH]; intros s a loss h c Hh Hc.
  - reflexivity.
  - cbn [seq forward_loop run_cells].
    rewrite (forward_step_cell _ _ _ _ _ _ _ h c Hh Hc).
    cbn [fst snd].
    destruct (cell V P inputs targets s h c) as [v|e]; [|done].
    rewrite !bind_Ok.
    rewrite (IH (S s) _ _ (v_h v) (v_c v)).
    + destruct (run_cells V P inputs targets (seq (S s) n) (v_h v, v_c v));
        reflexivity.
    + simpl. replace (Z.of_nat (S s) - 1)%Z with (Z.of_nat s) by lia.
      apply lookup_insert_eq.
    + simpl. replace (Z.of_nat (S s) - 1)%Z with (Z.of_nat s) by lia.
      apply lookup_insert_eq.
Qed.

Lemma run_cells_length (V : nat) (P : params) (inputs targets : list Z)
    (ts : list nat) (hc : memory) (vs : list tvals) :
  run_cells V P inputs targets ts hc = Ok vs -> length vs = length ts.
Proof.
  revert hc vs. induction ts as [|t ts IH]; intros hc vs H; simpl in H.
  - by inversion H.
  - destruct (cell V P inputs targets t hc.1 hc.2) as [v|e]; [|done].
    simpl in H.
    destruct (run_cells V P inputs targets ts (v_h v, v_c v)) as [vs'|e] eqn:E;
      [|done].
    simpl in H. inversion H; subst. simpl. f_equal. by eapply IH.
Qed.

Lemma dict_of_record_step (fl : field) (a : activations) (k : Z) (v : tvals) :
  dict_of fl (record_step a k v) = <[k := val_of fl v]> (dict_of fl a).
Proof. by destruct fl. Qed.

(** What the activation record holds after the steps [s..s+length vs-1]. *)
Lemma lookup_record_all (fl : field) (vs : list tvals) (a : activations)
    (s : nat) (k : Z) :
  dict_of fl (record_all a s vs) !! k
  = if decide (Z.of_nat s <= k < Z.of_nat (s + length vs))%Z
    then val_of fl <$> vs !! (Z.to_nat k - s)%nat
    else dict_of fl a !! k.
Proof.
  revert a s. induction vs as [|v vs IH]; intros a s; simpl.
  - case_decide; [lia|done].
  - rewrite IH, dict_of_record_step.
    destruct (decide (k = Z.of_nat s)) as [->|Hne].
    + rewrite decide_False by lia. rewrite decide_True by lia.
      rewrite lookup_insert_eq, Nat2Z.id, Nat.sub_diag. reflexivity.
    + rewrite lookup_insert_ne by done.
      repeat case_decide; try lia; [|done].
      replace (Z.to_nat k - s)%nat with (S (Z.to_nat k - S s)) by lia.
      reflexivity.
Qed.

Lemma dict_of_init (fl : field) (m : memory) (k : Z) :
  dict_of fl (init_activations m) !! k
  = if decide (k = (-1)%Z)
    then match fl with Fhs => Some m.1 | Fcs => Some m.2 | _ => None end
    else None.
Proof.
  case_decide as Hk.
  - subst k. destruct fl; simpl; try apply lookup_empty;
      apply lookup_singleton_eq.
  - destruct fl; simpl; try apply lookup_empty;
      by apply lookup_singleton_ne.
Qed.

(** [forward] in terms of the recurrence. *)
Lemma forward_cells (V : nat) (P : params) (inputs targets : list Z)
    (m : memory) :
  forward V P inputs targets m
  = (vs ← run_cells V P inputs targets (seq 0 (length inputs)) m;
     Ok (total_loss 0 vs, record_all (init_activations m) 0 vs,
         last_memory m vs)).
Proof.
  unfold forward.
  rewrite (forward_loop_cells _ _ _ _ _ _ _ _ m.1 m.2);
    [|apply lookup_singleton_eq..].
  destruct m as [h0 c0]. simpl.
  destruct (run_cells V P inputs targets (seq 0 (length inputs)) (h0, c0))
    as [vs|e] eqn:Hvs; [|done].
  simpl. apply run_cells_length in Hvs. rewrite length_seq in Hvs.
  unfold dict_get.
  pose proof (lookup_record_all Fhs vs (init_activations (h0, c0)) 0
                (Z.of_nat (length inputs) - 1)) as Hh.
  pose proof (lookup_record_all Fcs vs (init_activations (h0, c0)) 0
                (Z.of_nat (length inputs) - 1)) as Hc.
  simpl in Hh, Hc. rewrite Hh, Hc. clear Hh Hc.
  unfold last_memory. rewrite last_lookup, Hvs.
  destruct vs as [|v vs].
  - simpl in Hvs. rewrite <- Hvs. simpl.
    rewrite !lookup_singleton_eq. reflexivity.
  - replace (Z.to_nat (Z.of_nat (length inputs) - 1) - 0)%nat
      with (pred (length inputs)) by lia.
    assert (is_Some ((v :: vs) !! pred (length inputs))) as [w Hw].
    { apply lookup_lt_is_Some. simpl in *. lia. }
    rewrite Hw. simpl in Hvs.
    repeat case_decide; try lia. reflexivity.
Qed.

(** ** One time step on a valid chunk *)

Lemma flat_nonempty (r c : nat) (a : ndarray) :
  has_shape r c a -> (0 < r)%nat -> (0 < c)%nat -> flat a <> [].
Proof.
  intros [Hl Hr] Hr0 Hc0. destruct a as [|row a]; [simpl in Hl; lia|].
  inversion Hr; subst. destruct row; [simpl in Hc0; lia|]. done.
Qed.

Lemma concat_size_pos : (0 < concat_size)%nat.
Proof. unfold concat_size, emb_size. lia. Qed.

Lemma emb_size_pos : (0 < emb_size)%nat.
Proof. unfold emb_size. lia. Qed.

Lemma has_shape_gate (W b z : ndarray) (r k : nat) :
  has_shape r k W -> has_shape r 1 b -> has_shape k 1 z -> (0 < k)%nat ->
  has_shape r 1 (aadd (dot W z) b).
Proof.
  intros HW Hb Hz Hk. apply has_shape_azip; [|done].
  by apply (has_shape_dot r k 1).
Qed.

Lemma has_shape_softmax (r c : nat) (a : ndarray) :
  has_shape r c a -> has_shape r c (Spec.softmax a).
Proof. apply has_shape_amap. Qed.

Lemma tvals_of_wf (V : nat) (P : params) (h c : ndarray) (ix tx : Z) :
  wf_params V P -> (0 < V)%nat ->
  has_shape hidden_size 1 h -> has_shape hidden_size 1 c ->
  tvals_wf V (tvals_of V P h c ix tx).
Proof.
  intros HP HV Hh Hc. destruct HP.
  pose proof hidden_size_pos. pose proof concat_size_pos.
  set (v := tvals_of V P h c ix tx).
  assert (has_shape V 1 (v_x v)) as Hx by apply has_shape_onehot.
  assert (has_shape emb_size 1 (v_we v)) as Hwe
    by by apply (has_shape_dot emb_size V 1).
  assert (has_shape concat_size 1 (v_z v)) as Hz.
  { rewrite concat_size_eq. by apply has_shape_app. }
  assert (has_shape hidden_size 1 (v_f v)) as Hf
    by by apply has_shape_sigmoid, (has_shape_gate _ _ _ _ concat_size).
  assert (has_shape hidden_size 1 (v_i v)) as Hi
    by by apply has_shape_sigmoid, (has_shape_gate _ _ _ _ concat_size).
  assert (has_shape hidden_size 1 (v_cc v)) as Hcc
    by by apply has_shape_amap, (has_shape_gate _ _ _ _ concat_size).
  assert (has_shape hidden_size 1 (v_o v)) as Ho
    by by apply has_shape_sigmoid, (has_shape_gate _ _ _ _ concat_size).
  assert (has_shape hidden_size 1 (v_c v)) as Hc'.
  { apply has_shape_azip; by apply has_shape_azip. }
  assert (has_shape hidden_size 1 (v_h v)) as Hh'.
  { apply has_shape_azip; [done | by apply has_shape_amap]. }
  assert (has_shape V 1 (v_lg v)) as Hlg
    by by apply (has_shape_gate _ _ _ _ hidden_size).
  constructor; try done.
  - by apply has_shape_softmax.
  - apply has_shape_onehot.
Qed.

Lemma cell_ok (V : nat) (P : params) (inputs targets : list Z) (t : nat)
    (h c : ndarray) (ix tx : Z) :
  wf_params V P ->
  has_shape hidden_size 1 h -> has_shape hidden_size 1 c ->
  inputs !! t = Some ix -> targets !! t = Some tx ->
  valid_index V ix -> valid_index V tx ->
  cell V P inputs targets t h c = Ok (tvals_of V P h c ix tx).
Proof.
  intros HP Hh Hc Hix Htx Vix Vtx.
  assert (0 < V)%nat as HV by (unfold valid_index in Vix; lia).
  pose proof (tvals_of_wf V P h c ix tx HP HV Hh Hc) as Hwf.
  unfold cell.
  rewrite (py_index_lookup _ _ _ Hix), bind_Ok.
  rewrite (onehot_setitem V ix Vix), bind_Ok.
  rewrite softmax_stable, bind_Ok.
  2:{ apply (flat_nonempty V 1); [apply (wfv_lg _ _ Hwf) | done | lia]. }
  rewrite (py_index_lookup _ _ _ Htx), bind_Ok.
  rewrite (onehot_setitem V tx Vtx), bind_Ok.
  unfold tvals_of. f_equal. f_equal.
  apply (cross_entropy_entry (fun v => - ln v)); [|done].
  apply (wfv_p _ _ Hwf).
Qed.

Lemma tvals_of_step (V : nat) (P : params) (h c : ndarray) (ix tx : Z) :
  (v_h (tvals_of V P h c ix tx), v_c (tvals_of V P h c ix tx))
  = Spec.step V P (h, c) ix.
Proof. reflexivity. Qed.

(** ** A valid chunk: the recurrence never raises *)

Lemma wf_zero_params (V : nat) : wf_params V (zero_params V).
Proof. constructor; apply has_shape_zeros. Qed.

Lemma wf_zero_memory : wf_memory zero_memory.
Proof. split; apply has_shape_zeros. Qed.

Lemma valid_chunk_pos (V : nat) (inputs targets : list Z) :
  valid_chunk V inputs targets -> inputs <> [] -> (0 < V)%nat.
Proof.
  intros [_ Hin _] Hne. destruct inputs as [|ix inputs]; [done|].
  inversion Hin as [|? ? Hix ?]; subst. unfold valid_index in Hix. lia.
Qed.

Lemma run_cells_trace (V : nat) (P : params) (inputs targets : list Z) :
  wf_params V P -> valid_chunk V inputs targets ->
  forall (n s : nat) (hc : memory),
    wf_memory hc -> (s + n)%nat = length inputs ->
    run_cells V P inputs targets (seq s n) hc
    = Ok (trace V P hc (drop s inputs) (drop s targets)).
Proof.
  intros HP [Hlen Hin Htg]. induction n as [|n IH]; intros s hc [Hh Hc] Hs.
  - simpl. rewrite !drop_ge by lia. reflexivity.
  - assert (is_Some (inputs !! s)) as [ix Hix]
      by (apply lookup_lt_is_Some; lia).
    assert (is_Some (targets !! s)) as [tx Htx]
      by (apply lookup_lt_is_Some; lia).
    pose proof (Forall_lookup_1 _ _ _ _ Hin Hix) as Vix.
    pose proof (Forall_lookup_1 _ _ _ _ Htg Htx) as Vtx.
    rewrite (drop_S _ _ _ Hix), (drop_S _ _ _ Htx).
    cbn [seq run_cells trace].
    rewrite (cell_ok V P inputs targets s _ _ ix tx) by done.
    rewrite bind_Ok.
    assert (0 < V)%nat as HV by (unfold valid_index in Vix; lia).
    pose proof (tvals_of_wf V P hc.1 hc.2 ix tx HP HV Hh Hc) as Hwf.
    rewrite IH; [reflexivity | | lia].
    split; [apply (wfv_h _ _ Hwf) | apply (wfv_c _ _ Hwf)].
Qed.

Lemma forward_trace (V : nat) (P : params) (inputs targets : list Z)
    (m : memory) :
  wf_params V P -> wf_memory m -> valid_chunk V inputs targets ->
  forward V P inputs targets m
  = Ok (total_loss 0 (trace V P m inputs targets),
        record_all (init_activations m) 0 (trace V P m inputs targets),
        last_memory m (trace V P m inputs targets)).
Proof.
  intros HP Hm Hch. rewrite forward_cells.
  by rewrite (run_cells_trace V P inputs targets HP Hch _ 0 m).
Qed.

Lemma trace_length (V : nat) (P : params) (hc : memory)
    (inputs targets : list Z) :
  length inputs = length targets ->
  length (trace V P hc inputs targets) = length inputs.
Proof.
  revert hc targets. induction inputs as [|ix inputs IH];
    intros hc [|tx targets] Hlen; try done.
  simpl. f_equal. apply IH. simpl in Hlen. lia.
Qed.

Lemma trace_wf (V : nat) (P : params) (inputs targets : list Z) :
  wf_params V P -> (0 < V)%nat ->
  forall hc : memory, wf_memory hc ->
    Forall (tvals_wf V) (trace V P hc inputs targets).
Proof.
  intros HP HV. revert targets. induction inputs as [|ix inputs IH];
    intros [|tx targets] hc [Hh Hc]; try constructor.
  - by apply tvals_of_wf.
  - apply IH.
    pose proof (tvals_of_wf V P hc.1 hc.2 ix tx HP HV Hh Hc) as Hwf.
    split; [apply (wfv_h _ _ Hwf) | apply (wfv_c _ _ Hwf)].
Qed.

Lemma total_loss_shift (l : R) (vs : list tvals) :
  total_loss l vs = l + total_loss 0 vs.
Proof.
  unfold total_loss. revert l. induction vs as [|v vs IH]; intros l; simpl.
  - lra.
  - rewrite (IH (l + v_loss v)), (IH (0 + v_loss v)). lra.
Qed.

Lemma total_loss_app (l : R) (vs ws : list tvals) :
  total_loss l (vs ++ ws) = total_loss l vs + total_loss 0 ws.
Proof.
  unfold total_loss. rewrite foldl_app.
  apply (total_loss_shift (foldl (fun l v => l + v_loss v) l vs) ws).
Qed.

Lemma last_memory_cons (m : memory) (v : tvals) (vs : list tvals) :
  last_memory m (v :: vs) = last_memory (v_h v, v_c v) vs.
Proof.
  unfold last_memory. rewrite last_cons. by destruct (last vs).
Qed.

Lemma last_memory_app (m : memory) (vs ws : list tvals) :
  last_memory m (vs ++ ws) = last_memory (last_memory m vs) ws.
Proof.
  revert m. induction vs as [|v vs IH]; intros m; [done|].
  rewrite <- app_comm_cons, !last_memory_cons. apply IH.
Qed.

(** The recurrence and the specification's recurrence *)
Lemma last_memory_trace (V : nat) (P : params) (inputs targets : list Z)
    (hc : memory) :
  length inputs = length targets ->
  last_memory hc (trace V P hc inputs targets) = foldl (Spec.step V P) hc inputs.
Proof.
  revert hc targets. induction inputs as [|ix inputs IH];
    intros hc [|tx targets] Hlen; try done.
  cbn [trace foldl]. rewrite last_memory_cons, IH by (simpl in Hlen; lia).
  by destruct hc.
Qed.

Lemma total_loss_trace (V : nat) (P : params) (inputs targets : list Z)
    (hc : memory) :
  length inputs = length targets ->
  total_loss 0 (trace V P hc inputs targets) = Spec.loss V P hc inputs targets.
Proof.
  revert hc targets. induction inputs as [|ix inputs IH];
    intros hc [|tx targets] Hlen; try done.
  cbn [trace]. unfold total_loss. cbn [foldl].
  fold (total_loss (0 + v_loss (tvals_of V P hc.1 hc.2 ix tx))
          (trace V P (v_h (tvals_of V P hc.1 hc.2 ix tx),
                      v_c (tvals_of V P hc.1 hc.2 ix tx)) inputs targets)).
  rewrite total_loss_shift, IH by (simpl in Hlen; lia).
  unfold Spec.loss. cbn [length seq map]. rewrite <- seq_shift, map_map.
  unfold rsum at 2. cbn [foldr]. fold (rsum).
  unfold Spec.state. cbn [take foldl nth].
  destruct hc as [h c]. cbn [fst snd].
  rewrite tvals_of_step, take_0. cbn [foldl]. unfold rsum.
  change (v_loss (tvals_of V P h c ix tx))
    with (- ln (Spec.entry (Spec.probs P (Spec.step V P (h, c) ix).1) tx)).
  lra.
Qed.

Lemma trace_app (V : nat) (P : params) (A tA B tB : list Z) (hc : memory) :
  length A = length tA ->
  trace V P hc (A ++ B) (tA ++ tB)
  = trace V P hc A tA ++ trace V P (last_memory hc (trace V P hc A tA)) B tB.
Proof.
  revert hc tA. induction A as [|ix A IH]; intros hc [|tx tA] Hlen; try done.
  cbn [app trace]. rewrite last_memory_cons, IH by (simpl in Hlen; lia).
  reflexivity.
Qed.

Lemma wf_last_memory (V : nat) (P : params) (inputs targets : list Z)
    (m : memory) :
  wf_params V P -> wf_memory m -> valid_chunk V inputs targets ->
  wf_memory (last_memory m (trace V P m inputs targets)).
Proof.
  intros HP Hm Hch. unfold last_memory.
  destruct (last (trace V P m inputs targets)) as [v|] eqn:Hlast; [|done].
  destruct inputs as [|ix inputs]; [done|].
  assert (0 < V)%nat as HV by (by eapply valid_chunk_pos).
  pose proof (trace_wf V P (ix :: inputs) targets HP HV m Hm) as Hall.
  rewrite last_lookup in Hlast.
  pose proof (Forall_lookup_1 _ _ _ _ Hall Hlast) as Hv.
  split; [apply (wfv_h _ _ Hv) | apply (wfv_c _ _ Hv)].
Qed.

Lemma valid_chunk_app (V : nat) (A tA B tB : list Z) :
  valid_chunk V A tA -> valid_chunk V B tB ->
  valid_chunk V (A ++ B) (tA ++ tB).
Proof.
  intros [HlA HiA HtA] [HlB HiB HtB]. constructor.
  - rewrite !length_app. lia.
  - by apply Forall_app.
  - by apply Forall_app.
Qed.

(** ** Forward pass: the claims *)

(** C1.  For a non-empty chunk of equally many inputs and targets with
    indices in [0, V) and any initial (hidden, cell) pair of the right shape,
    [forward] returns the loss [sum_t -log(p_t[target_t])] of the gate
    recurrence of spec.md 4.1 and the final memory
    [(hidden_{T-1}, cell_{T-1})], and the parameter store comes back as it
    went in. *)
Theorem C1_forward_loss_memory_params (V : nat) (P : params)
    (inputs targets : list Z) (m : memory) :
  wf_params V P -> wf_memory m -> valid_chunk V inputs targets ->
  inputs <> [] ->
  exists acts : activations,
    forward_call V inputs targets m P
    = Ok ((Spec.loss V P m inputs targets, acts,
           Spec.state V P m inputs (length inputs - 1)), P).
Proof.
  intros HP Hm Hch Hne. unfold forward_call.
  rewrite (forward_trace V P inputs targets m HP Hm Hch), bind_Ok.
  eexists. repeat f_equal.
  - apply total_loss_trace, Hch.
  - rewrite last_memory_trace by apply Hch. unfold Spec.state.
    rewrite take_ge; [done|]. destruct inputs; [done | simpl; lia].
Qed.

Lemma C1_forward_witness :
  exists acts : activations,
    forward_call 2 [0; 1]%Z [1; 0]%Z zero_memory (zero_params 2)
    = Ok ((Spec.loss 2 (zero_params 2) zero_memory [0; 1]%Z [1; 0]%Z, acts,
           Spec.state 2 (zero_params 2) zero_memory [0; 1]%Z 1),
          zero_params 2).
Proof.
  apply (C1_forward_loss_memory_params 2 (zero_params 2) [0; 1]%Z [1; 0]%Z
           zero_memory).
  - apply wf_zero_params.
  - apply wf_zero_memory.
  - constructor; [reflexivity | |];
      repeat constructor; unfold valid_index; simpl; lia.
  - discriminate.
Defined.

(** C4.  For two consecutive valid chunks A and B and any initial state of
    the right shape, the run on A, the run on B from the memory the run on A
    returned, and the single run on A ++ B all succeed; the loss of the
    single run is the sum of the two losses and its final memory is the final
    memory of the run on B. *)
Theorem C4_chunk_concatenation (V : nat) (P : params) (A tA B tB : list Z)
    (m : memory) :
  wf_params V P -> wf_memory m ->
  valid_chunk V A tA -> valid_chunk V B tB ->
  exists (l1 l2 : R) (a1 a2 a : activations) (m1 m2 : memory),
    forward V P A tA m = Ok (l1, a1, m1) /\
    forward V P B tB m1 = Ok (l2, a2, m2) /\
    forward V P (A ++ B) (tA ++ tB) m = Ok (l1 + l2, a, m2).
Proof.
  intros HP Hm HA HB.
  pose proof (wf_last_memory V P A tA m HP Hm HA) as Hm1.
  do 7 eexists. split; [by apply forward_trace|].
  split; [by apply forward_trace|].
  rewrite (forward_trace V P (A ++ B) (tA ++ tB) m HP Hm)
    by by apply valid_chunk_app.
  rewrite trace_app by apply HA.
  by rewrite total_loss_app, last_memory_app.
Qed.

Lemma C4_chunk_concatenation_witness :
  exists (l1 l2 : R) (a1 a2 a : activations) (m1 m2 : memory),
    forward 2 (zero_params 2) [0]%Z [1]%Z zero_memory = Ok (l1, a1, m1) /\
    forward 2 (zero_params 2) [1]%Z [0]%Z m1 = Ok (l2, a2, m2) /\
    forward 2 (zero_params 2) ([0] ++ [1])%Z ([1] ++ [0])%Z zero_memory
    = Ok (l1 + l2, a, m2).
Proof.
  apply (C4_chunk_concatenation 2 (zero_params 2) [0]%Z [1]%Z [1]%Z [0]%Z
           zero_memory).
  - apply wf_zero_params.
  - apply wf_zero_memory.
  - constructor; [reflexivity | |];
      repeat constructor; unfold valid_index; simpl; lia.
  - constructor; [reflexivity | |];
      repeat constructor; unfold valid_index; simpl; lia.
Defined.

(** ** The loop of [backward] and the derivation it computes *)

Lemma backward_step_spec (P : params) (a : activations) (t : nat)
    (st : bstate) (cprev : ndarray) (v : tvals) :
  (forall fl : field, dict_of fl a !! Z.of_nat t = Some (val_of fl v)) ->
  cs a !! (Z.of_nat t - 1)%Z = Some cprev ->
  backward_step P a t st = Ok (SpecBPTT.step P cprev v st).
Proof.
  intros H Hc.
  pose proof (H Fps) as Hps. pose proof (H Fys) as Hys.
  pose proof (H Fhs) as Hhs. pose proof (H Fo) as Ho.
  pose proof (H Fcs) as Hcs. pose proof (H Ff) as Hf.
  pose proof (H Fi) as Hi. pose proof (H Fcc) as Hcc.
  pose proof (H Fzs) as Hzs. pose proof (H Fxs) as Hxs.
  cbn [dict_of val_of] in *.
  unfold backward_step, dict_get.
  rewrite Hps, Hys, Hhs, Ho, Hcs, Hf, Hc, Hi, Hcc, Hzs, Hxs.
  reflexivity.
Qed.

Lemma backward_step_missing (P : params) (a : activations) (t : nat)
    (st : bstate) :
  ps a !! Z.of_nat t = None -> backward_step P a t st = Raise KeyError.
Proof. intros H. unfold backward_step, dict_get. by rewrite H. Qed.

Lemma backward_loop_app (P : params) (a : activations) (ts1 ts2 : list nat)
    (st : bstate) :
  backward_loop P a (ts1 ++ ts2) st
  = (st1 ← backward_loop P a ts1 st; backward_loop P a ts2 st1).
Proof.
  revert st. induction ts1 as [|t ts1 IH]; intros st; [done|].
  cbn [app backward_loop].
  destruct (backward_step P a t st) as [r|e]; [|done].
  rewrite !bind_Ok. apply IH.
Qed.

Lemma acts_hold_tail (a : activations) (s : nat) (cprev : ndarray)
    (v : tvals) (vs : list tvals) :
  acts_hold a s cprev (v :: vs) -> acts_hold a (S s) (v_c v) vs.
Proof.
  intros [Hc H]. split.
  - replace (Z.of_nat (S s) - 1)%Z with (Z.of_nat (s + 0)) by lia.
    apply (H Fcs 0%nat v). reflexivity.
  - intros fl j w Hw.
    replace (S s + j)%nat with (s + S j)%nat by lia.
    by apply H.
Qed.

Lemma backward_loop_run (P : params) (a : activations) (vs : list tvals) :
  forall (s : nat) (cprev : ndarray) (st : bstate),
    acts_hold a s cprev vs ->
    backward_loop P a (rev (seq s (length vs))) st
    = Ok (SpecBPTT.run P cprev vs st).
Proof.
  induction vs as [|v vs IH]; intros s cprev st Hold; [done|].
  cbn [length seq rev]. rewrite backward_loop_app.
  rewrite (IH (S s) (v_c v) st) by (by eapply acts_hold_tail).
  rewrite bind_Ok. cbn [backward_loop].
  destruct Hold as [Hc H].
  rewrite (backward_step_spec P a s _ cprev v); [done | | done].
  intros fl. replace s with (s + 0)%nat at 1 by lia. by apply H.
Qed.

Lemma acts_hold_forward (V : nat) (P : params) (m : memory)
    (inputs targets : list Z) (n : nat) :
  acts_hold
    (record_all (init_activations m) 0 (trace V P m inputs targets))
    0 m.2 (take n (trace V P m inputs targets)).
Proof.
  split.
  - pose proof (lookup_record_all Fcs (trace V P m inputs targets)
                  (init_activations m) 0 (Z.of_nat 0 - 1)) as H.
    cbn [dict_of] in H. rewrite H. rewrite decide_False by lia.
    apply lookup_singleton_eq.
  - intros fl j v Hv. rewrite lookup_record_all.
    apply lookup_take_Some in Hv as [Hv Hj].
    pose proof (lookup_lt_Some _ _ _ Hv) as Hlt.
    rewrite decide_True by lia.
    replace (Z.to_nat (Z.of_nat (0 + j)) - 0)%nat with j by lia.
    by rewrite Hv.
Qed.

Lemma record_all_missing (fl : field) (m : memory) (vs : list tvals)
    (t : nat) :
  (length vs <= t)%nat ->
  dict_of fl (record_all (init_activations m) 0 vs) !! Z.of_nat t = None.
Proof.
  intros Hge. rewrite lookup_record_all. rewrite decide_False by lia.
  rewrite dict_of_init. by rewrite decide_False by lia.
Qed.

Lemma rev_seq_S (n : nat) : rev (seq 0 (S n)) = n :: rev (seq 0 n).
Proof. by rewrite seq_S, rev_app_distr. Qed.

(** ** Shapes in the backward pass *)

Lemma has_shape_dot_T (r k c : nat) (a b : ndarray) :
  has_shape k r a -> has_shape k c b -> (0 < k)%nat ->
  has_shape r c (dot (transpose a) b).
Proof.
  intros Ha Hb Hk. apply (has_shape_dot r k c); [|done..].
  by apply length_transpose.
Qed.

Lemma has_shape_outer (r c : nat) (a b : ndarray) :
  has_shape r 1 a -> has_shape c 1 b -> (0 < c)%nat ->
  has_shape r c (dot a (transpose b)).
Proof.
  intros Ha Hb Hc. apply (has_shape_dot r 1 c); [done| |lia].
  by apply length_transpose.
Qed.

Lemma has_shape_take_hidden (a : ndarray) :
  has_shape concat_size 1 a -> has_shape hidden_size 1 (take hidden_size a).
Proof.
  intros H. apply (has_shape_take hidden_size) in H.
  replace (hidden_size `min` concat_size)%nat with hidden_size in H; [done|].
  rewrite concat_size_eq. lia.
Qed.

Lemma has_shape_drop_hidden (a : ndarray) :
  has_shape concat_size 1 a -> has_shape emb_size 1 (drop hidden_size a).
Proof.
  intros H. apply (has_shape_drop hidden_size) in H.
  replace (concat_size - hidden_size)%nat with emb_size in H; [done|].
  rewrite concat_size_eq. lia.
Qed.

Ltac shape_tac :=
  repeat first
    [ assumption
    | apply has_shape_dsigmoid | apply has_shape_dtanh
    | apply has_shape_amap | apply has_shape_azip ].

Lemma bptt_step_wf (V : nat) (P : params) (cprev : ndarray) (v : tvals)
    (st : bstate) :
  wf_params V P -> (0 < V)%nat -> tvals_wf V v ->
  has_shape hidden_size 1 cprev -> bstate_wf V st ->
  bstate_wf V (SpecBPTT.step P cprev v st).2 /\
  has_shape concat_size 1 (l_dz (SpecBPTT.step P cprev v st).1) /\
  has_shape emb_size 1 (l_dwes (SpecBPTT.step P cprev v st).1).
Proof.
  intros HP HV Hv Hc [Hg Hdh Hdc]. destruct HP, Hv, Hg.
  pose proof hidden_size_pos as HH. pose proof concat_size_pos as HC.
  set (r := SpecBPTT.step P cprev v st).
  assert (has_shape V 1 (l_do r.1)) as Hdo by by apply has_shape_azip.
  assert (has_shape hidden_size 1 (l_dh r.1)) as Hdh'.
  { apply has_shape_azip; [|done]. by apply (has_shape_dot_T _ V). }
  assert (has_shape hidden_size 1 (l_dh_o r.1)) as Hdho by shape_tac.
  assert (has_shape hidden_size 1 (l_dh_c r.1)) as Hdhc by shape_tac.
  assert (has_shape hidden_size 1 (l_dc_f r.1)) as Hdcf by shape_tac.
  assert (has_shape hidden_size 1 (l_dc_i r.1)) as Hdci by shape_tac.
  assert (has_shape hidden_size 1 (l_dc_c r.1)) as Hdcc by shape_tac.
  assert (has_shape concat_size 1 (l_dz r.1)) as Hdz.
  { apply has_shape_azip; [apply has_shape_azip; [apply has_shape_azip|]|];
      by apply (has_shape_dot_T _ hidden_size). }
  assert (has_shape emb_size 1 (l_dwes r.1)) as Hdw
    by by apply has_shape_drop_hidden.
  split; [|done].
  constructor; [constructor|..]; cbn [r SpecBPTT.step snd acc dWex dWf dWi
    dWo dWc dbf dbi dbo dbc dWhy dby dhnext dcnext].
  - apply has_shape_azip; [done|]. by apply has_shape_outer.
  - apply has_shape_azip; [done|]. by apply has_shape_outer.
  - apply has_shape_azip; [done|]. by apply has_shape_outer.
  - apply has_shape_azip; [done|]. by apply has_shape_outer.
  - apply has_shape_azip; [done|]. by apply has_shape_outer.
  - by apply has_shape_azip.
  - by apply has_shape_azip.
  - by apply has_shape_azip.
  - by apply has_shape_azip.
  - apply has_shape_azip; [done|]. by apply has_shape_outer.
  - by apply has_shape_azip.
  - by apply has_shape_take_hidden.
  - by apply has_shape_azip.
Qed.

Lemma zero_gradients_wf (V : nat) (P : params) :
  wf_params V P -> grads_wf V (zero_gradients P).
Proof. intros []. constructor; by apply has_shape_zeros_like. Qed.

Lemma bptt_init_wf (V : nat) (P : params) :
  wf_params V P -> bstate_wf V (SpecBPTT.init P).
Proof.
  intros HP. constructor; [by apply zero_gradients_wf|..];
    apply has_shape_zeros.
Qed.

Lemma bptt_run_wf (V : nat) (P : params) (vs : list tvals) :
  wf_params V P -> (0 < V)%nat -> Forall (tvals_wf V) vs ->
  forall (cprev : ndarray) (st : bstate),
    has_shape hidden_size 1 cprev -> bstate_wf V st ->
    bstate_wf V (SpecBPTT.run P cprev vs st).
Proof.
  intros HP HV Hvs. induction Hvs as [|v vs Hv Hvs IH]; intros cprev st Hc Hst.
  - done.
  - cbn [SpecBPTT.run]. apply bptt_step_wf; try done.
    apply IH; [apply (wfv_c _ _ Hv) | done].
Qed.

Lemma zeros_like_shape (r c : nat) (a : ndarray) :
  has_shape r c a -> zeros_like a = zeros r c.
Proof.
  intros [Hl Hr]. unfold zeros_like, zeros. subst r.
  induction Hr as [|row a Hrow Hr IH]; [done|].
  cbn [map length replicate]. f_equal; [|done].
  subst c. clear. induction row as [|x row IH]; [done|].
  cbn [map length replicate]. by f_equal.
Qed.

Lemma has_shape_clip (r c : nat) (a : ndarray) :
  has_shape r c a -> has_shape r c (clip a).
Proof. apply has_shape_amap. Qed.

Lemma grads_wf_clip (V : nat) (g : gradients) :
  grads_wf V g -> grads_wf V (gmap_all clip g).
Proof. intros []. constructor; by apply has_shape_clip. Qed.

(** ** [backward] on the record of a chunk *)

Lemma prev_memory_cons (hc : memory) (v0 : tvals) (vs : list tvals)
    (t : nat) :
  (t <= length vs)%nat ->
  prev_memory hc (v0 :: vs) (S t) = prev_memory (v_h v0, v_c v0) vs t.
Proof.
  intros Ht. destruct t as [|t]; [done|]. cbn [prev_memory].
  change ((v0 :: vs) !! S t) with (vs !! t).
  destruct (vs !! t) as [w|] eqn:Hw; [done|].
  apply lookup_ge_None in Hw. lia.
Qed.

Lemma trace_lookup (V : nat) (P : params) (inputs targets : list Z) :
  forall (hc : memory) (t : nat) (v : tvals),
    trace V P hc inputs targets !! t = Some v ->
    exists ix tx : Z,
      inputs !! t = Some ix /\ targets !! t = Some tx /\
      v = tvals_of V P
            (prev_memory hc (trace V P hc inputs targets) t).1
            (prev_memory hc (trace V P hc inputs targets) t).2 ix tx.
Proof.
  revert targets. induction inputs as [|ix inputs IH];
    intros [|tx targets] hc t v Hv; try done.
  destruct t as [|t].
  - exists ix, tx. cbn [trace] in *. inversion Hv. done.
  - cbn [trace] in *.
    set (v0 := tvals_of V P hc.1 hc.2 ix tx) in *.
    change ((v0 :: trace V P (v_h v0, v_c v0) inputs targets) !! S t)
      with (trace V P (v_h v0, v_c v0) inputs targets !! t) in Hv.
    pose proof (lookup_lt_Some _ _ _ Hv) as Hlt.
    destruct (IH targets _ t v Hv) as (ix' & tx' & Hi & Ht & Heq).
    exists ix', tx'. split; [done|]. split; [done|].
    rewrite prev_memory_cons by lia. exact Heq.
Qed.

Lemma prev_memory_wf (V : nat) (m : memory) (vs : list tvals) (t : nat) :
  wf_memory m -> Forall (tvals_wf V) vs -> wf_memory (prev_memory m vs t).
Proof.
  intros Hm Hvs. destruct t as [|t]; [done|]. cbn [prev_memory].
  destruct (vs !! t) as [w|] eqn:Hw; [|done].
  pose proof (Forall_lookup_1 _ _ _ _ Hvs Hw) as Hwf.
  split; [apply (wfv_h _ _ Hwf) | apply (wfv_c _ _ Hwf)].
Qed.

Lemma record_prev (m : memory) (vs : list tvals) (t : nat) :
  (t <= length vs)%nat ->
  hs (record_all (init_activations m) 0 vs) !! (Z.of_nat t - 1)%Z
  = Some (prev_memory m vs t).1 /\
  cs (record_all (init_activations m) 0 vs) !! (Z.of_nat t - 1)%Z
  = Some (prev_memory m vs t).2.
Proof.
  intros Ht.
  pose proof (lookup_record_all Fhs vs (init_activations m) 0
                (Z.of_nat t - 1)) as Hh.
  pose proof (lookup_record_all Fcs vs (init_activations m) 0
                (Z.of_nat t - 1)) as Hc.
  cbn [dict_of] in Hh, Hc. rewrite Hh, Hc. clear Hh Hc.
  destruct t as [|t].
  - rewrite !decide_False by lia. cbn [prev_memory init_activations hs cs].
    by rewrite !lookup_singleton_eq.
  - rewrite !decide_True by lia. cbn [prev_memory].
    replace (Z.to_nat (Z.of_nat (S t) - 1) - 0)%nat with t by lia.
    assert (is_Some (vs !! t)) as [w Hw] by (apply lookup_lt_is_Some; lia).
    by rewrite Hw.
Qed.

Lemma backward_record (V : nat) (P : params) (inputs targets g_inputs : list Z)
    (m : memory) (clipping : bool) :
  wf_params V P -> wf_memory m -> valid_chunk V inputs targets ->
  inputs <> [] ->
  backward P g_inputs
    (record_all (init_activations m) 0 (trace V P m inputs targets)) clipping
  = if decide (length g_inputs <= length inputs)%nat
    then Ok (clip_if clipping
               (SpecBPTT.bptt P m
                  (take (length g_inputs) (trace V P m inputs targets))))
    else Raise KeyError.
Proof.
  intros HP Hm Hch Hne.
  assert (0 < V)%nat as HV by (by eapply valid_chunk_pos).
  pose proof (trace_wf V P inputs targets HP HV m Hm) as Hwf.
  pose proof (trace_length V P m inputs targets (chunk_length _ _ _ Hch))
    as Hlen.
  set (tr := trace V P m inputs targets) in *.
  set (a := record_all (init_activations m) 0 tr).
  assert (0 < length inputs)%nat as HT
    by (destruct inputs; [done | simpl; lia]).
  assert (is_Some (tr !! 0%nat)) as [v0 Hv0]
    by (apply lookup_lt_is_Some; lia).
  pose proof (Forall_lookup_1 _ _ _ _ Hwf Hv0) as Hwf0.
  pose proof (acts_hold_forward V P m inputs targets (length tr)) as Hold.
  fold tr in Hold. fold a in Hold. rewrite take_ge in Hold by lia.
  destruct Hold as [_ Hold].
  pose proof (Hold Fhs 0%nat v0 Hv0) as Hh0.
  pose proof (Hold Fcs 0%nat v0 Hv0) as Hc0.
  cbn [dict_of val_of] in Hh0, Hc0.
  unfold backward, dict_get. change (Z.of_nat (0 + 0)) with 0%Z in *.
  rewrite Hh0, Hc0, !bind_Ok.
  rewrite (zeros_like_shape hidden_size 1) by apply (wfv_h _ _ Hwf0).
  rewrite (zeros_like_shape hidden_size 1) by apply (wfv_c _ _ Hwf0).
  fold (SpecBPTT.init P).
  case_decide as Hn.
  - pose proof (acts_hold_forward V P m inputs targets (length g_inputs))
      as Hold'.
    fold tr in Hold'. fold a in Hold'.
    pose proof (backward_loop_run P a _ 0 m.2 (SpecBPTT.init P) Hold') as Hrun.
    rewrite length_take, Nat.min_l in Hrun by lia.
    rewrite Hrun, bind_Ok. reflexivity.
  - destruct (length g_inputs) as [|n] eqn:Hg; [lia|].
    rewrite rev_seq_S. cbn [backward_loop].
    rewrite backward_step_missing; [done|].
    apply (record_all_missing Fps). lia.
Qed.

(** ** Backward pass: the claims *)

Lemma dict_get_Ok (d : gmap Z ndarray) (k : Z) (x : ndarray) :
  dict_get d k = Ok x -> d !! k = Some x.
Proof. unfold dict_get. destruct (d !! k); [congruence | discriminate]. Qed.

Lemma zip_self_map (f : R -> R -> R) (g : R -> R) (row : list R) :
  zip_with f row (map g row) = map (fun v => f v (g v)) row.
Proof. induction row as [|x row IH]; [done|]. simpl. by f_equal. Qed.

Lemma dsigmoid_amap (y : ndarray) :
  dsigmoid y = amap (fun v => v * (1 - v)) y.
Proof.
  unfold dsigmoid, amul, azip, amap.
  induction y as [|row y IH]; [done|]. cbn [map zip_with].
  f_equal; [apply zip_self_map | apply IH].
Qed.

Lemma dtanh_amap (x : ndarray) :
  dtanh x = amap (fun v => 1 - v * v) x.
Proof.
  unfold dtanh, asub, amul, azip, amap.
  induction x as [|row x IH]; [done|]. cbn [map zip_with].
  f_equal; [|apply IH]. clear.
  induction row as [|v row IH]; [done|]. cbn [map zip_with]. by f_equal.
Qed.

Ltac inv_bind H :=
  match type of H with
  | (?m ≫= _) = Ok _ =>
      let E := fresh "E" in
      destruct m eqn:E; [rewrite bind_Ok in H | discriminate H]
  end.

(** C2.  In every iteration of the loop of [backward], for the time step [t]
    and whatever the loop carries into it: the output-gate pre-activation
    gradient is the sigmoid derivative [o (1 - o)] at the stored activation
    [o = o_gate[t]], times [dh], times [tanh(cs[t])]; the cell gradient is
    [o * dh * (1 - tanh(cs[t])^2) + dcnext]; and the iteration hands
    [f_gate[t] * dcell] as [dcnext] to the rest of the loop, which starts
    with the time step before [t]. *)
Theorem C2_output_gate_and_cell_gradient (P : params) (a : activations)
    (t : nat) (st st' : bstate) (l : blocals) :
  backward_step P a t st = Ok (l, st') ->
  exists o c f p y : ndarray,
    o_gate a !! Z.of_nat t = Some o /\
    cs a !! Z.of_nat t = Some c /\
    f_gate a !! Z.of_nat t = Some f /\
    ps a !! Z.of_nat t = Some p /\
    ys a !! Z.of_nat t = Some y /\
    l_dh l = aadd (dot (transpose (Why P)) (asub p y)) (dhnext st) /\
    l_dh_o l
    = amul (amul (amap (fun v => v * (1 - v)) o) (l_dh l)) (amap tanh c) /\
    l_dh_c l
    = aadd (amul (amul o (l_dh l))
                 (amap (fun v => 1 - tanh v * tanh v) c))
           (dcnext st) /\
    dcnext st' = amul f (l_dh_c l) /\
    forall ts : list nat,
      backward_loop P a (t :: ts) st = backward_loop P a ts st'.
Proof.
  intros H. pose proof H as Hstep. unfold backward_step in H.
  do 11 inv_bind H.
  repeat match goal with
         | E : dict_get _ _ = Ok _ |- _ => apply dict_get_Ok in E
         end.
  inversion H; subst; clear H. cbn [l_dh l_dh_o l_dh_c dcnext].
  do 5 eexists. repeat (split; [eassumption|]).
  split; [done|]. split; [by rewrite dsigmoid_amap|].
  split; [by rewrite dtanh_amap, amap_amap|].
  split; [done|].
  intros ts. cbn [backward_loop]. by rewrite Hstep.
Qed.

Lemma ex_chunk_valid : valid_chunk 2 ex_inputs ex_targets.
Proof.
  constructor; [reflexivity | |];
    repeat constructor; unfold valid_index; simpl; lia.
Qed.

Lemma ex_trace_eq : ex_trace = [ex_v0; ex_v1].
Proof. reflexivity. Qed.

Lemma ex_acts_hold : acts_hold ex_acts 0 zero_memory.2 ex_trace.
Proof.
  pose proof (acts_hold_forward 2 ex_P zero_memory ex_inputs ex_targets
                (length ex_trace)) as H.
  by rewrite take_ge in H by done.
Qed.

Lemma ex_backward_step_last :
  backward_step ex_P ex_acts 1 (SpecBPTT.init ex_P)
  = Ok (SpecBPTT.step ex_P (v_c ex_v0) ex_v1 (SpecBPTT.init ex_P)).
Proof.
  destruct ex_acts_hold as [_ H].
  apply backward_step_spec.
  - intros fl. apply (H fl 1%nat ex_v1). by rewrite ex_trace_eq.
  - apply (H Fcs 0%nat ex_v0). by rewrite ex_trace_eq.
Qed.

Lemma C2_gradient_witness :
  let r := SpecBPTT.step ex_P (v_c ex_v0) ex_v1 (SpecBPTT.init ex_P) in
  exists o c f p y : ndarray,
    o_gate ex_acts !! 1%Z = Some o /\
    cs ex_acts !! 1%Z = Some c /\
    f_gate ex_acts !! 1%Z = Some f /\
    ps ex_acts !! 1%Z = Some p /\
    ys ex_acts !! 1%Z = Some y /\
    l_dh r.1
    = aadd (dot (transpose (Why ex_P)) (asub p y))
           (dhnext (SpecBPTT.init ex_P)) /\
    l_dh_o r.1
    = amul (amul (amap (fun v => v * (1 - v)) o) (l_dh r.1)) (amap tanh c) /\
    l_dh_c r.1
    = aadd (amul (amul o (l_dh r.1))
                 (amap (fun v => 1 - tanh v * tanh v) c))
           (dcnext (SpecBPTT.init ex_P)) /\
    dcnext r.2 = amul f (l_dh_c r.1) /\
    forall ts : list nat,
      backward_loop ex_P ex_acts (1%nat :: ts) (SpecBPTT.init ex_P)
      = backward_loop ex_P ex_acts ts r.2.
Proof.
  intros r.
  apply (C2_output_gate_and_cell_gradient ex_P ex_acts 1
           (SpecBPTT.init ex_P) r.2 r.1).
  rewrite ex_backward_step_last. reflexivity.
Defined.

(** C9.  [backward] takes its number of time steps from the global
    [inputs], not from the record it is given.  On the record of a valid
    non-empty chunk: when the global has the chunk's length, every dictionary
    read succeeds and the result is the BPTT gradient of the chunk; when it
    is shorter, the result is the BPTT gradient of that many leading time
    steps only; when it is longer, the first dictionary read is out of
    bounds and raises [KeyError]. *)
Theorem C9_backward_reads_global_inputs (V : nat) (P : params)
    (inputs targets g_inputs : list Z) (m m' : memory) (clipping : bool)
    (loss : R) (acts : activations) :
  wf_params V P -> wf_memory m -> valid_chunk V inputs targets ->
  inputs <> [] ->
  forward V P inputs targets m = Ok (loss, acts, m') ->
  (length g_inputs = length inputs ->
   backward P g_inputs acts clipping
   = Ok (clip_if clipping
           (SpecBPTT.bptt P m (trace V P m inputs targets)))) /\
  (length g_inputs < length inputs ->
   backward P g_inputs acts clipping
   = Ok (clip_if clipping
           (SpecBPTT.bptt P m
              (take (length g_inputs) (trace V P m inputs targets)))))%nat /\
  (length inputs < length g_inputs ->
   backward P g_inputs acts clipping = Raise KeyError)%nat.
Proof.
  intros HP Hm Hch Hne Hfw.
  rewrite (forward_trace V P inputs targets m HP Hm Hch) in Hfw.
  inversion Hfw; subst; clear Hfw.
  rewrite (backward_record V P inputs targets g_inputs m clipping HP Hm Hch Hne).
  pose proof (trace_length V P m inputs targets (chunk_length _ _ _ Hch))
    as Hlen.
  repeat split; intros Hn.
  - rewrite decide_True by lia. rewrite take_ge by lia. reflexivity.
  - by rewrite decide_True by lia.
  - by rewrite decide_False by lia.
Qed.

Lemma C9_backward_witness :
  (length [7; 7]%Z = length ex_inputs ->
   backward ex_P [7; 7]%Z ex_acts false
   = Ok (clip_if false (SpecBPTT.bptt ex_P zero_memory ex_trace))) /\
  (length [7; 7]%Z < length ex_inputs ->
   backward ex_P [7; 7]%Z ex_acts false
   = Ok (clip_if false
           (SpecBPTT.bptt ex_P zero_memory
              (take (length [7; 7]%Z) ex_trace))))%nat /\
  (length ex_inputs < length [7; 7]%Z ->
   backward ex_P [7; 7]%Z ex_acts false = Raise KeyError)%nat.
Proof.
  apply (C9_backward_reads_global_inputs 2 ex_P ex_inputs ex_targets
           [7; 7]%Z zero_memory (last_memory zero_memory ex_trace) false
           (total_loss 0 ex_trace) ex_acts).
  - apply wf_zero_params.
  - apply wf_zero_memory.
  - apply ex_chunk_valid.
  - discriminate.
  - apply forward_trace;
      [apply wf_zero_params | apply wf_zero_memory | apply ex_chunk_valid].
Defined.

(** C3.  On the record of a valid chunk, at every time step [t]: the
    concatenated vector [zs[t]] has [hs[t-1]] in its first [hidden_size] rows
    and the embedded input [wes[t]] in its remaining [emb_size] rows; and the
    iteration of [backward] for [t] computes the gate gradients from the
    recorded activations and what the loop carries, recombines them into
    [dz = Wo.T dh_o + Wi.T dc_i + Wf.T dc_f + Wc.T dc_c], a column of
    [concat_size] rows, and splits it at the same row: the first
    [hidden_size] rows become [dhnext], the remaining [emb_size] rows are
    [dwes], which is accumulated into [dWex] through the one-hot input
    [xs[t]]. *)
Theorem C3_concat_layout (V : nat) (P : params) (inputs targets : list Z)
    (m m' : memory) (loss : R) (acts : activations) (t : nat) :
  wf_params V P -> wf_memory m -> valid_chunk V inputs targets ->
  forward V P inputs targets m = Ok (loss, acts, m') ->
  (t < length inputs)%nat ->
  exists z hprev we x f i o cc c cprev p y : ndarray,
    zs acts !! Z.of_nat t = Some z /\
    hs acts !! (Z.of_nat t - 1)%Z = Some hprev /\
    wes acts !! Z.of_nat t = Some we /\
    xs acts !! Z.of_nat t = Some x /\
    f_gate acts !! Z.of_nat t = Some f /\
    i_gate acts !! Z.of_nat t = Some i /\
    o_gate acts !! Z.of_nat t = Some o /\
    c_cand acts !! Z.of_nat t = Some cc /\
    cs acts !! Z.of_nat t = Some c /\
    cs acts !! (Z.of_nat t - 1)%Z = Some cprev /\
    ps acts !! Z.of_nat t = Some p /\
    ys acts !! Z.of_nat t = Some y /\
    has_shape hidden_size 1 hprev /\ has_shape emb_size 1 we /\
    take hidden_size z = hprev /\ drop hidden_size z = we /\
    forall st : bstate, bstate_wf V st ->
      exists (l : blocals) (st' : bstate),
        backward_step P acts t st = Ok (l, st') /\
        l_dh l = aadd (dot (transpose (Why P)) (asub p y)) (dhnext st) /\
        l_dh_o l = amul (amul (dsigmoid o) (l_dh l)) (amap tanh c) /\
        l_dh_c l
        = aadd (amul (amul o (l_dh l)) (dtanh (amap tanh c))) (dcnext st) /\
        l_dc_f l = amul (amul (dsigmoid f) cprev) (l_dh_c l) /\
        l_dc_i l = amul (amul (dsigmoid i) cc) (l_dh_c l) /\
        l_dc_c l = amul (amul (dtanh cc) i) (l_dh_c l) /\
        l_dz l
        = aadd (aadd (aadd (dot (transpose (Wo P)) (l_dh_o l))
                           (dot (transpose (Wi P)) (l_dc_i l)))
                     (dot (transpose (Wf P)) (l_dc_f l)))
               (dot (transpose (Wc P)) (l_dc_c l)) /\
        has_shape concat_size 1 (l_dz l) /\
        dhnext st' = take hidden_size (l_dz l) /\
        has_shape hidden_size 1 (dhnext st') /\
        l_dwes l = drop hidden_size (l_dz l) /\
        has_shape emb_size 1 (l_dwes l) /\
        l_dz l = row_stack (dhnext st') (l_dwes l) /\
        dWex (acc st')
        = aadd (dWex (acc st)) (dot (l_dwes l) (transpose x)) /\
        bstate_wf V st'.
Proof.
  intros HP Hm Hch Hfw Ht.
  rewrite (forward_trace V P inputs targets m HP Hm Hch) in Hfw.
  inversion Hfw; subst; clear Hfw.
  assert (0 < V)%nat as HV.
  { eapply valid_chunk_pos; [done|]. destruct inputs; [simpl in Ht; lia|done]. }
  pose proof (trace_length V P m inputs targets (chunk_length _ _ _ Hch))
    as Hlen.
  pose proof (trace_wf V P inputs targets HP HV m Hm) as Hwf.
  set (tr := trace V P m inputs targets) in *.
  assert (is_Some (tr !! t)) as [v Hv] by (apply lookup_lt_is_Some; lia).
  pose proof (Forall_lookup_1 _ _ _ _ Hwf Hv) as Hwfv.
  destruct (trace_lookup V P inputs targets m t v Hv)
    as (ix & tx & _ & _ & Heq).
  fold tr in Heq.
  pose proof (prev_memory_wf V m tr t Hm Hwf) as [Hph Hpc].
  destruct (record_prev m tr t) as [Hhs Hcs]; [lia|].
  pose proof (acts_hold_forward V P m inputs targets (length tr)) as [_ Hold].
  fold tr in Hold. rewrite take_ge in Hold by lia.
  assert (forall fl : field,
            dict_of fl (record_all (init_activations m) 0 tr) !! Z.of_nat t
            = Some (val_of fl v)) as Hall.
  { intros fl. apply (Hold fl t v Hv). }
  assert (v_z v = row_stack (prev_memory m tr t).1 (v_we v)) as Hz
    by (by rewrite Heq).
  exists (v_z v), (prev_memory m tr t).1, (v_we v), (v_x v),
    (v_f v), (v_i v), (v_o v), (v_cc v), (v_c v), (prev_memory m tr t).2,
    (v_p v), (v_y v).
  split; [apply (Hall Fzs)|]. split; [done|].
  split; [apply (Hall Fwes)|]. split; [apply (Hall Fxs)|].
  split; [apply (Hall Ff)|]. split; [apply (Hall Fi)|].
  split; [apply (Hall Fo)|]. split; [apply (Hall Fcc)|].
  split; [apply (Hall Fcs)|]. split; [done|].
  split; [apply (Hall Fps)|]. split; [apply (Hall Fys)|].
  split; [done|]. split; [apply (wfv_we _ _ Hwfv)|].
  split; [rewrite Hz; apply take_app_length'; symmetry; apply Hph|].
  split; [rewrite Hz; apply drop_app_length'; symmetry; apply Hph|].
  intros st Hst.
  destruct (bptt_step_wf V P (prev_memory m tr t).2 v st HP HV Hwfv Hpc Hst)
    as (Hst' & Hdz & Hdw).
  set (r := SpecBPTT.step P (prev_memory m tr t).2 v st) in *.
  exists r.1, r.2.
  split.
  { rewrite (backward_step_spec P _ t st (prev_memory m tr t).2 v Hall Hcs).
    apply f_equal, surjective_pairing. }
  do 7 (split; [reflexivity|]).
  split; [done|]. split; [done|]. split; [apply Hst'|].
  split; [done|]. split; [done|].
  split; [symmetry; apply take_drop|]. done.
Qed.

(** ** The vocabulary *)

Lemma encode_length (c2i : gmap ascii Z) (s : list ascii) (l : list Z) :
  encode c2i s = Ok l -> length l = length s.
Proof.
  revert l. induction s as [|ch s IH]; intros l H; cbn [encode] in H.
  - by inversion H.
  - destruct (c2i !! ch) as [i|]; [|done].
    destruct (encode c2i s) as [l'|e]; [|done].
    rewrite bind_Ok in H. inversion H; subst. simpl. f_equal. by apply IH.
Qed.

Lemma encode_valid (V : nat) (c2i : gmap ascii Z) (s : list ascii)
    (l : list Z) :
  c2i_valid V c2i -> encode c2i s = Ok l -> Forall (valid_index V) l.
Proof.
  intros Hc. revert l. induction s as [|ch s IH]; intros l H;
    cbn [encode] in H.
  - inversion H. constructor.
  - destruct (c2i !! ch) as [i|] eqn:Hi; [|done].
    destruct (encode c2i s) as [l'|e]; [|done].
    rewrite bind_Ok in H. inversion H; subst.
    constructor; [by eapply Hc | by apply IH].
Qed.

Lemma char_to_ix_valid (data : list ascii) :
  c2i_valid (vocab_size_of data) (char_to_ix data).
Proof.
  intros ch i H. unfold char_to_ix, char_to_ix_of in H.
  apply elem_of_list_to_map_2 in H.
  apply elem_of_lookup_imap in H as (j & y & Heq & Hj).
  inversion Heq; subst. apply lookup_lt_Some in Hj.
  unfold valid_index, vocab_size_of. lia.
Qed.

(** ** Element-wise reading of the array operations *)

Lemma elem_azip (f : R -> R -> R) (a b : ndarray) (r c : nat) :
  elem (azip f a b) r c
  = match elem a r c, elem b r c with
    | Some x, Some y => Some (f x y)
    | _, _ => None
    end.
Proof.
  unfold elem, azip. rewrite lookup_zip_with.
  destruct (a !! r) as [ra|]; [|done]. destruct (b !! r) as [rb|]; simpl.
  - rewrite lookup_zip_with.
    destruct (ra !! c); [|done]. by destruct (rb !! c).
  - by destruct (ra !! c).
Qed.

Lemma elem_amap (f : R -> R) (a : ndarray) (r c : nat) :
  elem (amap f a) r c = f <$> elem a r c.
Proof.
  unfold elem, amap. rewrite list_lookup_fmap.
  destruct (a !! r) as [ra|]; [|done]. simpl. apply list_lookup_fmap.
Qed.

Lemma elem_has_shape (R0 C0 : nat) (a : ndarray) (r c : nat) :
  has_shape R0 C0 a -> (is_Some (elem a r c) <-> (r < R0 /\ c < C0)%nat).
Proof.
  intros [Hl Hr]. unfold elem. split.
  - intros [x Hx]. destruct (a !! r) as [row|] eqn:Hrow; [|done].
    pose proof (Forall_lookup_1 _ _ _ _ Hr Hrow) as Hlen. simpl in Hlen.
    apply lookup_lt_Some in Hrow, Hx. lia.
  - intros [H1 H2].
    assert (is_Some (a !! r)) as [row Hrow]
      by (apply lookup_lt_is_Some; lia).
    rewrite Hrow. pose proof (Forall_lookup_1 _ _ _ _ Hr Hrow) as Hlen.
    simpl in Hlen. apply lookup_lt_is_Some. lia.
Qed.

Lemma get_param_shape (V : nat) (P : params) (n : pname) :
  wf_params V P -> has_shape (pshape V n).1 (pshape V n).2 (get_param n P).
Proof. intros []. by destruct n. Qed.

Lemma get_grad_shape (V : nat) (g : gradients) (n : pname) :
  grads_wf V g -> has_shape (pshape V n).1 (pshape V n).2 (get_grad n g).
Proof. intros []. by destruct n. Qed.

Lemma get_param_adagrad (n : pname) (P : params) (g : gradients)
    (M : momentum) :
  get_param n (adagrad_params P g M)
  = adagrad_param (get_param n P) (get_grad n g) (get_mom n M).
Proof. by destruct n. Qed.

Lemma get_mom_adagrad (n : pname) (g : gradients) (M : momentum) :
  get_mom n (adagrad_momentum g M) = adagrad_mem (get_grad n g) (get_mom n M).
Proof. by destruct n. Qed.

Lemma adagrad_wf (V : nat) (P : params) (g : gradients) (M : momentum) :
  wf_params V P -> grads_wf V g -> mom_wf V M ->
  wf_params V (adagrad_params P g (adagrad_momentum g M)) /\
  mom_wf V (adagrad_momentum g M).
Proof.
  intros HP Hg HM.
  assert (mom_wf V (adagrad_momentum g M)) as HM'.
  { intros n. rewrite get_mom_adagrad. unfold adagrad_mem, aadd, amul.
    apply has_shape_azip; [apply HM|].
    apply has_shape_azip; by apply get_grad_shape. }
  split; [|done].
  assert (forall n, has_shape (pshape V n).1 (pshape V n).2
            (get_param n (adagrad_params P g (adagrad_momentum g M)))) as H.
  { intros n. rewrite get_param_adagrad. unfold adagrad_param, aadd, adiv.
    apply has_shape_azip; [by apply get_param_shape|].
    apply has_shape_azip; apply has_shape_amap;
      [by apply get_grad_shape | apply HM']. }
  constructor;
    [apply (H PWex) | apply (H PWf) | apply (H PWi) | apply (H PWo)
    | apply (H PWc) | apply (H Pbf) | apply (H Pbi) | apply (H Pbo)
    | apply (H Pbc) | apply (H PWhy) | apply (H Pby)].
Qed.

(** Lines 398-399 for one element. *)
Lemma adagrad_elem (param dparam mem : ndarray) (r c : nat) (p gv mv : R) :
  elem param r c = Some p -> elem dparam r c = Some gv ->
  elem mem r c = Some mv ->
  elem (adagrad_mem dparam mem) r c = Some (mv + gv * gv) /\
  elem (adagrad_param param dparam (adagrad_mem dparam mem)) r c
  = Some (p - learning_rate * gv / sqrt (mv + gv * gv + 1 / 100000000)).
Proof.
  intros Hp Hg Hm.
  assert (elem (adagrad_mem dparam mem) r c = Some (mv + gv * gv)) as Hm'.
  { unfold adagrad_mem, aadd, amul. rewrite !elem_azip. by rewrite Hm, Hg. }
  split; [done|].
  unfold adagrad_param, aadd, adiv. rewrite !elem_azip, !elem_amap.
  rewrite Hp, Hg, Hm'. simpl. f_equal. unfold Rdiv, Rminus. lra.
Qed.

(** ** One iteration of the training loop *)

Lemma py_index_Ok_lt {A : Type} (l : list A) (t : nat) (x : A) :
  py_index l (Z.of_nat t) = Ok x -> (t < length l)%nat.
Proof.
  intros H. destruct (decide (t < length l)%nat) as [|Hge]; [done|].
  rewrite py_index_range in H by lia. discriminate.
Qed.

Lemma cell_Ok_target (V : nat) (P : params) (inputs targets : list Z)
    (t : nat) (h c : ndarray) (v : tvals) :
  cell V P inputs targets t h c = Ok v -> (t < length targets)%nat.
Proof.
  intros H. unfold cell in H. do 4 inv_bind H.
  match goal with
  | E : py_index targets _ = Ok _ |- _ => by apply py_index_Ok_lt in E
  end.
Qed.

Lemma run_cells_Ok_targets (V : nat) (P : params) (inputs targets : list Z)
    (n s : nat) (hc : memory) (vs : list tvals) :
  run_cells V P inputs targets (seq s n) hc = Ok vs ->
  (0 < n)%nat -> (s + n <= length targets)%nat.
Proof.
  revert s hc vs. induction n as [|n IH]; intros s hc vs H Hn; [lia|].
  cbn [seq run_cells] in H. inv_bind H. inv_bind H.
  match goal with
  | E : cell _ _ _ _ _ _ _ = Ok _ |- _ => apply cell_Ok_target in E
  end.
  destruct n as [|n]; [lia|].
  match goal with
  | E : run_cells _ _ _ _ _ _ = Ok _ |- _ => apply IH in E; [lia|lia]
  end.
Qed.

Lemma forward_Ok_lengths (V : nat) (P : params) (inputs targets : list Z)
    (m : memory) (r : R * activations * memory) :
  forward V P inputs targets m = Ok r ->
  (length inputs <= length targets)%nat.
Proof.
  rewrite forward_cells. intros H. inv_bind H.
  destruct inputs as [|ix inputs]; [simpl; lia|].
  match goal with
  | E : run_cells _ _ _ _ _ _ = Ok _ |- _ =>
      apply run_cells_Ok_targets in E; [simpl in *; lia | simpl; lia]
  end.
Qed.

Lemma forward_nil (V : nat) (P : params) (targets : list Z) (m : memory) :
  forward V P [] targets m = Ok (0, init_activations m, m).
Proof. rewrite forward_cells. by destruct m. Qed.

Lemma backward_empty_record (P : params) (g_inputs : list Z) (m : memory)
    (clipping : bool) :
  backward P g_inputs (init_activations m) clipping = Raise KeyError.
Proof.
  unfold backward, dict_get. cbn [init_activations hs].
  by rewrite lookup_singleton_ne.
Qed.

Lemma slice_lengths (data : list ascii) (p : nat) :
  (length (slice data (p + 1) (p + seq_length + 1))
   <= length (slice data p (p + seq_length)))%nat.
Proof. unfold slice. rewrite !length_take, !length_drop. lia. Qed.

Lemma prepare_inv (c2i : gmap ascii Z) (data : list ascii)
    (st st1 : train_state) :
  prepare c2i data st = Ok st1 ->
  exists inputs targets : list Z,
    encode c2i (slice data (chunk_start data st)
                  (chunk_start data st + seq_length)) = Ok inputs /\
    encode c2i (slice data (chunk_start data st + 1)
                  (chunk_start data st + seq_length + 1)) = Ok targets /\
    st1 = {| t_n := t_n st; t_p := chunk_start data st;
             t_n_updates := t_n_updates st;
             t_memory := chunk_memory data st;
             t_inputs := inputs; t_targets := targets;
             t_smooth_loss := t_smooth_loss st;
             t_params := t_params st; t_momentum := t_momentum st |}.
Proof.
  unfold prepare, chunk_start, chunk_memory. intros H.
  destruct (must_reset data st);
    cbn [t_p t_memory t_params t_inputs t_targets t_n t_n_updates
         t_smooth_loss t_momentum] in H;
    do 2 inv_bind H; inversion H; subst; eauto.
Qed.

Lemma update_inv (V : nat) (st1 st' : train_state) :
  update V st1 = Ok st' ->
  exists (m m' : memory) (loss : R) (acts : activations) (g : gradients),
    t_memory st1 = Some m /\
    forward V (t_params st1) (t_inputs st1) (t_targets st1) m
    = Ok (loss, acts, m') /\
    backward (t_params st1) (t_inputs st1) acts true = Ok g /\
    st' = {| t_n := t_n st1 + 1; t_p := t_p st1 + seq_length;
             t_n_updates := t_n_updates st1 + 1;
             t_memory := Some m';
             t_inputs := t_inputs st1; t_targets := t_targets st1;
             t_smooth_loss :=
               t_smooth_loss st1 * (999 / 1000) + loss * (1 / 1000);
             t_params :=
               adagrad_params (t_params st1) g
                 (adagrad_momentum g (t_momentum st1));
             t_momentum := adagrad_momentum g (t_momentum st1) |}.
Proof.
  unfold update, forward_call. intros H.
  destruct (t_memory st1) as [m|]; [|discriminate H].
  rewrite bind_Ok in H.
  destruct (forward V (t_params st1) (t_inputs st1) (t_targets st1) m)
    as [[[loss acts] m']|e] eqn:Hf; [|discriminate H].
  rewrite !bind_Ok in H. inv_bind H. inversion H; subst. eauto 10.
Qed.

Lemma train_iteration_inv (V : nat) (c2i : gmap ascii Z) (data : list ascii)
    (st st' : train_state) :
  train_iteration V c2i data st = Ok st' ->
  exists (inputs targets : list Z) (m m' : memory) (loss : R)
         (acts : activations) (g : gradients),
    encode c2i (slice data (chunk_start data st)
                  (chunk_start data st + seq_length)) = Ok inputs /\
    encode c2i (slice data (chunk_start data st + 1)
                  (chunk_start data st + seq_length + 1)) = Ok targets /\
    chunk_memory data st = Some m /\
    forward V (t_params st) inputs targets m = Ok (loss, acts, m') /\
    backward (t_params st) inputs acts true = Ok g /\
    st' = next_state data st inputs targets loss m' g.
Proof.
  unfold train_iteration. intros H. inv_bind H.
  match goal with
  | E : prepare _ _ _ = Ok _ |- _ =>
      apply prepare_inv in E as (inputs & targets & Hi & Ht & ->)
  end.
  apply update_inv in H as (m & m' & loss & acts & g & Hm & Hf & Hb & ->).
  cbn [t_p t_memory t_params t_inputs t_targets t_n t_n_updates
       t_smooth_loss t_momentum] in *.
  exists inputs, targets, m, m', loss, acts, g. done.
Qed.

Lemma bptt_wf (V : nat) (P : params) (m : memory) (vs : list tvals) :
  wf_params V P -> (0 < V)%nat -> wf_memory m -> Forall (tvals_wf V) vs ->
  grads_wf V (SpecBPTT.bptt P m vs).
Proof.
  intros HP HV [_ Hc] Hvs. unfold SpecBPTT.bptt.
  apply (wfb_acc V), bptt_run_wf; try done. by apply bptt_init_wf.
Qed.

Lemma clip_if_wf (V : nat) (clipping : bool) (g : gradients) :
  grads_wf V g -> grads_wf V (clip_if clipping g).
Proof. destruct clipping; [apply grads_wf_clip | done]. Qed.

Lemma train_iteration_facts (V : nat) (c2i : gmap ascii Z)
    (data : list ascii) (st st' : train_state) :
  c2i_valid V c2i -> train_wf V st ->
  train_iteration V c2i data st = Ok st' ->
  exists (inputs targets : list Z) (m m' : memory) (loss : R)
         (acts : activations) (g : gradients),
    chunk_memory data st = Some m /\
    forward V (t_params st) inputs targets m = Ok (loss, acts, m') /\
    backward (t_params st) inputs acts true = Ok g /\
    st' = next_state data st inputs targets loss m' g /\
    wf_memory m /\ valid_chunk V inputs targets /\ inputs <> [] /\
    grads_wf V g /\ train_wf V st'.
Proof.
  intros Hc (HP & HM & Hmem) H.
  apply train_iteration_inv in H
    as (inputs & targets & m & m' & loss & acts & g
        & Hi & Ht & Hm & Hf & Hb & ->).
  assert (wf_memory m) as Hwm.
  { unfold chunk_memory in Hm. destruct (must_reset data st).
    - inversion Hm. apply wf_zero_memory.
    - by apply Hmem. }
  assert (valid_chunk V inputs targets) as Hch.
  { constructor; [|by eapply encode_valid..].
    pose proof (forward_Ok_lengths _ _ _ _ _ _ Hf).
    pose proof (slice_lengths data (chunk_start data st)).
    apply encode_length in Hi, Ht. lia. }
  assert (inputs <> []) as Hne.
  { intros ->. rewrite forward_nil in Hf. inversion Hf; subst.
    by rewrite backward_empty_record in Hb. }
  assert (0 < V)%nat as HV by by eapply valid_chunk_pos.
  rewrite (forward_trace V _ inputs targets m HP Hwm Hch) in Hf.
  inversion Hf; subst; clear Hf.
  rewrite (backward_record V _ inputs targets inputs m true HP Hwm Hch Hne)
    in Hb.
  rewrite decide_True in Hb by lia. injection Hb as Hg.
  assert (grads_wf V g) as Hgw.
  { rewrite <- Hg. apply grads_wf_clip, bptt_wf; try done.
    apply Forall_take. by apply trace_wf. }
  exists inputs, targets, m, (last_memory m (trace V (t_params st) m inputs targets)),
    (total_loss 0 (trace V (t_params st) m inputs targets)),
    (record_all (init_activations m) 0 (trace V (t_params st) m inputs targets)),
    g.
  split; [done|]. split; [by apply forward_trace|].
  split.
  { rewrite (backward_record V _ inputs targets inputs m true HP Hwm Hch Hne).
    rewrite decide_True by lia. f_equal. exact Hg. }
  split; [done|]. split; [done|]. split; [done|]. split; [done|].
  split; [done|].
  destruct (adagrad_wf V (t_params st) g (t_momentum st) HP Hgw HM)
    as [HP' HM'].
  split; [exact HP'|]. split; [exact HM'|].
  cbn [next_state t_memory]. intros m0 Hm0. inversion Hm0; subst.
  by apply wf_last_memory.
Qed.

Lemma iterations_wf (V : nat) (c2i : gmap ascii Z) (data : list ascii)
    (k : nat) :
  c2i_valid V c2i ->
  forall st st' : train_state,
    train_wf V st -> iterations k V c2i data st = Ok st' -> train_wf V st'.
Proof.
  intros Hc. induction k as [|k IH]; intros st st' Hwf H; cbn [iterations] in H.
  - by inversion H; subst.
  - inv_bind H.
    match goal with
    | E : train_iteration _ _ _ _ = Ok ?a |- _ =>
        apply (IH a st'); [|done];
        destruct (train_iteration_facts V c2i data st a Hc Hwf E)
          as (? & ? & ? & ? & ? & ? & ? & ? & ? & ? & ? & ? & ? & ? & ? & ?);
        done
    end.
Qed.

(** The Adagrad accumulators never decrease. *)
Lemma momentum_step_monotone (V : nat) (c2i : gmap ascii Z)
    (data : list ascii) (st st' : train_state) (n : pname) (r c : nat)
    (mv : R) :
  c2i_valid V c2i -> train_wf V st ->
  train_iteration V c2i data st = Ok st' ->
  elem (get_mom n (t_momentum st)) r c = Some mv ->
  exists mv' : R,
    elem (get_mom n (t_momentum st')) r c = Some mv' /\ mv <= mv'.
Proof.
  intros Hc Hwf H Hmv.
  destruct (train_iteration_facts V c2i data st st' Hc Hwf H)
    as (inputs & targets & m & m' & loss & acts & g
        & _ & _ & _ & -> & _ & _ & _ & Hg & _).
  destruct Hwf as (_ & HM & _).
  assert (is_Some (elem (get_grad n g) r c)) as [gv Hgv].
  { apply (elem_has_shape _ _ _ _ _ (get_grad_shape V g n Hg)).
    apply (elem_has_shape _ _ _ _ _ (HM n)). by eexists. }
  exists (mv + gv * gv). cbn [next_state t_momentum].
  rewrite get_mom_adagrad. unfold adagrad_mem, aadd, amul.
  rewrite !elem_azip, Hmv, Hgv. split; [done|]. nra.
Qed.

Lemma momentum_monotone (V : nat) (c2i : gmap ascii Z) (data : list ascii)
    (k : nat) :
  c2i_valid V c2i ->
  forall (st st' : train_state) (n : pname) (r c : nat) (mv : R),
    train_wf V st -> iterations k V c2i data st = Ok st' ->
    elem (get_mom n (t_momentum st)) r c = Some mv ->
    exists mv' : R,
      elem (get_mom n (t_momentum st')) r c = Some mv' /\ mv <= mv'.
Proof.
  intros Hc. induction k as [|k IH]; intros st st' n r c mv Hwf H Hmv;
    cbn [iterations] in H.
  - inversion H; subst. exists mv. split; [done|lra].
  - inv_bind H.
    match goal with
    | E : train_iteration _ _ _ _ = Ok ?a |- _ =>
        destruct (momentum_step_monotone V c2i data st a n r c mv
                    Hc Hwf E Hmv) as (mv1 & Hmv1 & Hle1);
        assert (train_wf V a) as Hwf1
          by (by apply (iterations_wf V c2i data 1 Hc st a Hwf);
              cbn [iterations]; rewrite E)
    end.
    destruct (IH _ st' n r c mv1 Hwf1 H Hmv1) as (mv' & Hmv' & Hle').
    exists mv'. split; [done|lra].
Qed.

Lemma must_reset_iff (data : list ascii) (st : train_state) :
  must_reset data st = true
  <-> (length data <= t_p st + seq_length + 1 \/ t_n st = 0)%nat.
Proof.
  unfold must_reset. rewrite orb_true_iff, Nat.leb_le, Nat.eqb_eq. done.
Qed.

Lemma prepare_ok (c2i : gmap ascii Z) (data : list ascii) (st : train_state)
    (inputs targets : list Z) :
  encode c2i (slice data (chunk_start data st)
                (chunk_start data st + seq_length)) = Ok inputs ->
  encode c2i (slice data (chunk_start data st + 1)
                (chunk_start data st + seq_length + 1)) = Ok targets ->
  prepare c2i data st
  = Ok {| t_n := t_n st; t_p := chunk_start data st;
          t_n_updates := t_n_updates st;
          t_memory := chunk_memory data st;
          t_inputs := inputs; t_targets := targets;
          t_smooth_loss := t_smooth_loss st;
          t_params := t_params st; t_momentum := t_momentum st |}.
Proof.
  unfold prepare, chunk_start, chunk_memory. intros Hi Ht.
  destruct (must_reset data st);
    cbn [t_p t_memory t_params t_inputs t_targets t_n t_n_updates
         t_smooth_loss t_momentum];
    by rewrite Hi, bind_Ok, Ht, bind_Ok.
Qed.

(** An iteration on a valid chunk does not raise. *)
Lemma train_iteration_progress (V : nat) (c2i : gmap ascii Z)
    (data : list ascii) (st : train_state) (inputs targets : list Z)
    (m : memory) :
  wf_params V (t_params st) ->
  encode c2i (slice data (chunk_start data st)
                (chunk_start data st + seq_length)) = Ok inputs ->
  encode c2i (slice data (chunk_start data st + 1)
                (chunk_start data st + seq_length + 1)) = Ok targets ->
  chunk_memory data st = Some m -> wf_memory m ->
  valid_chunk V inputs targets -> inputs <> [] ->
  exists st' : train_state, train_iteration V c2i data st = Ok st'.
Proof.
  intros HP Hi Ht Hm Hwm Hch Hne. unfold train_iteration.
  rewrite (prepare_ok c2i data st inputs targets Hi Ht), bind_Ok.
  unfold update, forward_call.
  cbn [t_p t_memory t_params t_inputs t_targets t_n t_n_updates
       t_smooth_loss t_momentum].
  rewrite Hm, bind_Ok.
  rewrite (forward_trace V _ inputs targets m HP Hwm Hch), !bind_Ok.
  rewrite (backward_record V _ inputs targets inputs m true HP Hwm Hch Hne).
  rewrite decide_True by lia. rewrite bind_Ok. eauto.
Qed.

(** ** The concrete training run *)

Lemma ex_vocab : vocab_size_of ex_data = 1%nat.
Proof. reflexivity. Qed.

Lemma ex_encode (p : nat) :
  (p + seq_length <= 130)%nat ->
  encode (char_to_ix ex_data) (slice ex_data p (p + seq_length))
  = Ok (replicate seq_length 0%Z).
Proof.
  intros Hp. unfold slice, ex_data.
  rewrite drop_replicate, take_replicate.
  replace ((p + seq_length - p) `min` (130 - p))%nat with seq_length by lia.
  remember (char_to_ix (replicate 130 "a"%char)) as c2i eqn:Hc.
  assert (c2i !! "a"%char = Some 0%Z) as Ha
    by (subst c2i; vm_compute; reflexivity).
  clear Hc. generalize seq_length. intros n. induction n as [|n IH]; [done|].
  cbn [replicate encode]. rewrite Ha, IH. reflexivity.
Qed.

Lemma ex_chunk : valid_chunk 1 (replicate seq_length 0%Z)
                   (replicate seq_length 0%Z).
Proof.
  constructor; [done | |]; apply Forall_replicate; unfold valid_index; lia.
Qed.

Lemma zero_momentum_wf (V : nat) (P : params) :
  wf_params V P -> mom_wf V (zero_momentum P).
Proof. intros [] n. destruct n; by apply has_shape_zeros_like. Qed.

Lemma ex_st0_wf : train_wf 1 ex_st0.
Proof.
  split; [apply wf_zero_params|]. split; [|done].
  apply zero_momentum_wf, wf_zero_params.
Qed.

Lemma ex_iteration_1 :
  train_iteration (vocab_size_of ex_data) (char_to_ix ex_data) ex_data ex_st0
  = Ok ex_st1.
Proof.
  destruct (train_iteration_progress 1 (char_to_ix ex_data) ex_data ex_st0
              (replicate seq_length 0%Z) (replicate seq_length 0%Z)
              zero_memory) as [st' H].
  - apply wf_zero_params.
  - apply (ex_encode 0). unfold seq_length. lia.
  - apply (ex_encode 1). unfold seq_length. lia.
  - reflexivity.
  - apply wf_zero_memory.
  - apply ex_chunk.
  - discriminate.
  - unfold ex_st1, ex_iterate. rewrite ex_vocab. by rewrite H.
Qed.

Lemma ex_st1_facts :
  train_wf 1 ex_st1 /\ t_p ex_st1 = seq_length /\ t_n ex_st1 = 1%nat /\
  exists m : memory, t_memory ex_st1 = Some m.
Proof.
  destruct (train_iteration_facts 1 (char_to_ix ex_data) ex_data ex_st0 ex_st1
              (char_to_ix_valid ex_data) ex_st0_wf ex_iteration_1)
    as (inputs & targets & m & m' & loss & acts & g
        & _ & _ & _ & Heq & _ & _ & _ & _ & Hwf).
  split; [done|]. rewrite Heq. cbn [next_state t_p t_n t_memory].
  split; [done|]. split; [done|]. eauto.
Qed.

Lemma ex_no_reset : must_reset ex_data ex_st1 = false.
Proof.
  destruct ex_st1_facts as (_ & Hp & Hn & _).
  unfold must_reset. rewrite Hp, Hn. reflexivity.
Qed.

Lemma ex_iteration_2 :
  train_iteration (vocab_size_of ex_data) (char_to_ix ex_data) ex_data ex_st1
  = Ok ex_st2.
Proof.
  destruct ex_st1_facts as ((HP & HM & Hmem) & Hp & Hn & m & Hm).
  assert (chunk_start ex_data ex_st1 = seq_length) as Hs
    by (unfold chunk_start; by rewrite ex_no_reset).
  destruct (train_iteration_progress 1 (char_to_ix ex_data) ex_data ex_st1
              (replicate seq_length 0%Z) (replicate seq_length 0%Z) m)
    as [st' H].
  - done.
  - rewrite Hs. apply (ex_encode seq_length). unfold seq_length. lia.
  - rewrite Hs. apply (ex_encode (seq_length + 1)). unfold seq_length. lia.
  - unfold chunk_memory. by rewrite ex_no_reset.
  - by apply Hmem.
  - apply ex_chunk.
  - discriminate.
  - unfold ex_st2, ex_iterate. rewrite ex_vocab. by rewrite H.
Qed.

(** ** Training mode: the claims *)

(** C5.  In every iteration of the training loop that completes, with [g]
    the (clipped) gradients that [backward] returned in it: every element of
    every parameter has a gradient and an accumulator element, the
    accumulator becomes [mem + grad * grad] and the parameter becomes
    [param - learning_rate * grad / sqrt(mem' + 1e-8)]; and after any number
    of further iterations the accumulator element is still there and has not
    decreased. *)
Theorem C5_adagrad_update (data : list ascii) (st st' st'' : train_state)
    (k : nat) :
  train_wf (vocab_size_of data) st ->
  train_iteration (vocab_size_of data) (char_to_ix data) data st = Ok st' ->
  iterations k (vocab_size_of data) (char_to_ix data) data st' = Ok st'' ->
  exists (inputs targets : list Z) (m m' : memory) (loss : R)
         (acts : activations) (g : gradients),
    forward (vocab_size_of data) (t_params st) inputs targets m
    = Ok (loss, acts, m') /\
    backward (t_params st) inputs acts true = Ok g /\
    forall (n : pname) (r c : nat) (p : R),
      elem (get_param n (t_params st)) r c = Some p ->
      exists gv mv mv'' : R,
        elem (get_grad n g) r c = Some gv /\
        elem (get_mom n (t_momentum st)) r c = Some mv /\
        elem (get_mom n (t_momentum st')) r c = Some (mv + gv * gv) /\
        elem (get_param n (t_params st')) r c
        = Some (p - learning_rate * gv
                    / sqrt (mv + gv * gv + 1 / 100000000)) /\
        elem (get_mom n (t_momentum st'')) r c = Some mv'' /\
        mv <= mv + gv * gv <= mv''.
Proof.
  intros Hwf H Hk.
  pose proof (char_to_ix_valid data) as Hc.
  destruct (train_iteration_facts _ _ data st st' Hc Hwf H)
    as (inputs & targets & m & m' & loss & acts & g
        & _ & Hf & Hb & Heq & _ & _ & _ & Hg & Hwf').
  exists inputs, targets, m, m', loss, acts, g.
  split; [done|]. split; [done|].
  intros n r c p Hp. destruct Hwf as (HP & HM & _).
  assert (r < (pshape (vocab_size_of data) n).1
          /\ c < (pshape (vocab_size_of data) n).2)%nat as Hrc.
  { apply (elem_has_shape _ _ _ _ _ (get_param_shape _ _ n HP)). by eexists. }
  assert (is_Some (elem (get_grad n g) r c)) as [gv Hgv]
    by by apply (elem_has_shape _ _ _ _ _ (get_grad_shape _ g n Hg)).
  assert (is_Some (elem (get_mom n (t_momentum st)) r c)) as [mv Hmv]
    by by apply (elem_has_shape _ _ _ _ _ (HM n)).
  destruct (adagrad_elem _ _ _ r c p gv mv Hp Hgv Hmv) as [Hm' Hp'].
  assert (elem (get_mom n (t_momentum st')) r c = Some (mv + gv * gv)) as Hm1.
  { rewrite Heq. cbn [next_state t_momentum]. by rewrite get_mom_adagrad. }
  destruct (momentum_monotone _ _ data k Hc st' st'' n r c _ Hwf' Hk Hm1)
    as (mv'' & Hmv'' & Hle).
  exists gv, mv, mv''.
  split; [done|]. split; [done|]. split; [done|].
  split.
  { rewrite Heq. cbn [next_state t_params t_momentum].
    by rewrite get_param_adagrad, get_mom_adagrad. }
  split; [done|]. split; [nra | done].
Qed.

Lemma C5_adagrad_witness :
  exists (inputs targets : list Z) (m m' : memory) (loss : R)
         (acts : activations) (g : gradients),
    forward (vocab_size_of ex_data) (t_params ex_st0) inputs targets m
    = Ok (loss, acts, m') /\
    backward (t_params ex_st0) inputs acts true = Ok g /\
    forall (n : pname) (r c : nat) (p : R),
      elem (get_param n (t_params ex_st0)) r c = Some p ->
      exists gv mv mv'' : R,
        elem (get_grad n g) r c = Some gv /\
        elem (get_mom n (t_momentum ex_st0)) r c = Some mv /\
        elem (get_mom n (t_momentum ex_st1)) r c = Some (mv + gv * gv) /\
        elem (get_param n (t_params ex_st1)) r c
        = Some (p - learning_rate * gv
                    / sqrt (mv + gv * gv + 1 / 100000000)) /\
        elem (get_mom n (t_momentum ex_st2)) r c = Some mv'' /\
        mv <= mv + gv * gv <= mv''.
Proof.
  apply (C5_adagrad_update ex_data ex_st0 ex_st1 ex_st2 1).
  - apply ex_st0_wf.
  - apply ex_iteration_1.
  - cbn [iterations]. rewrite ex_iteration_2. reflexivity.
Defined.



Lemma C3_concat_layout_witness :
  exists z hprev we x f i o cc c cprev p y : ndarray,
    zs ex_acts !! 1%Z = Some z /\
    hs ex_acts !! (1 - 1)%Z = Some hprev /\
    wes ex_acts !! 1%Z = Some we /\
    xs ex_acts !! 1%Z = Some x /\
    f_gate ex_acts !! 1%Z = Some f /\
    i_gate ex_acts !! 1%Z = Some i /\
    o_gate ex_acts !! 1%Z = Some o /\
    c_cand ex_acts !! 1%Z = Some cc /\
    cs ex_acts !! 1%Z = Some c /\
    cs ex_acts !! (1 - 1)%Z = Some cprev /\
    ps ex_acts !! 1%Z = Some p /\
    ys ex_acts !! 1%Z = Some y /\
    has_shape hidden_size 1 hprev /\ has_shape emb_size 1 we /\
    take hidden_size z = hprev /\ drop hidden_size z = we /\
    forall st : bstate, bstate_wf 2 st ->
      exists (l : blocals) (st' : bstate),
        backward_step ex_P ex_acts 1 st = Ok (l, st') /\
        l_dh l = aadd (dot (transpose (Why ex_P)) (asub p y)) (dhnext st) /\
        l_dh_o l = amul (amul (dsigmoid o) (l_dh l)) (amap tanh c) /\
        l_dh_c l
        = aadd (amul (amul o (l_dh l)) (dtanh (amap tanh c))) (dcnext st) /\
        l_dc_f l = amul (amul (dsigmoid f) cprev) (l_dh_c l) /\
        l_dc_i l = amul (amul (dsigmoid i) cc) (l_dh_c l) /\
        l_dc_c l = amul (amul (dtanh cc) i) (l_dh_c l) /\
        l_dz l
        = aadd (aadd (aadd (dot (transpose (Wo ex_P)) (l_dh_o l))
                           (dot (transpose (Wi ex_P)) (l_dc_i l)))
                     (dot (transpose (Wf ex_P)) (l_dc_f l)))
               (dot (transpose (Wc ex_P)) (l_dc_c l)) /\
        has_shape concat_size 1 (l_dz l) /\
        dhnext st' = take hidden_size (l_dz l) /\
        has_shape hidden_size 1 (dhnext st') /\
        l_dwes l = drop hidden_size (l_dz l) /\
        has_shape emb_size 1 (l_dwes l) /\
        l_dz l = row_stack (dhnext st') (l_dwes l) /\
        dWex (acc st')
        = aadd (dWex (acc st)) (dot (l_dwes l) (transpose x)) /\
        bstate_wf 2 st'.
Proof.
  apply (C3_concat_layout 2 ex_P ex_inputs ex_targets zero_memory
           (last_memory zero_memory ex_trace) (total_loss 0 ex_trace)
           ex_acts 1).
  - apply wf_zero_params.
  - apply wf_zero_memory.
  - apply ex_chunk_valid.
  - apply forward_trace;
      [apply wf_zero_params | apply wf_zero_memory | apply ex_chunk_valid].
  - simpl. lia.
Defined.

(** ** Gradient-check mode: the claims *)

Lemma shape_eqb_false (s1 s2 : nat * nat) : s1 <> s2 -> shape_eqb s1 s2 = false.
Proof.
  intros Hne. unfold shape_eqb. destruct s1 as [r1 c1], s2 as [r2 c2].
  cbn [fst snd]. apply andb_false_iff.
  destruct (decide (r1 = r2)) as [->|Hr].
  - right. apply Nat.eqb_neq. congruence.
  - left. by apply Nat.eqb_neq.
Qed.

Lemma check_pairs_mismatch (V : nat) (inputs targets : list Z) (m : memory)
    (n : pname) (grad : ndarray) (name : string)
    (rest : list (pname * ndarray * string)) (P : params) :
  shape (get_param n P) <> shape grad ->
  check_pairs V inputs targets m ((n, grad, name) :: rest) P
  = ([], Raise (AssertionError (mismatch_message (get_param n P) grad))).
Proof.
  intros Hne. cbn [check_pairs]. by rewrite shape_eqb_false.
Qed.

Lemma check_pairs_app (V : nat) (inputs targets : list Z) (m : memory)
    (pre rest : list (pname * ndarray * string)) (P P' : params)
    (out : list event) :
  check_pairs V inputs targets m pre P = (out, Ok P') ->
  check_pairs V inputs targets m (pre ++ rest) P
  = (out ++ (check_pairs V inputs targets m rest P').1,
     (check_pairs V inputs targets m rest P').2).
Proof.
  revert P out. induction pre as [|[[n grad] name] pre IH]; intros P out H.
  - cbn [check_pairs] in H. inversion H; subst. cbn [app].
    by destruct (check_pairs V inputs targets m rest P').
  - cbn [app check_pairs] in *.
    destruct (shape_eqb (shape (get_param n P)) (shape grad)); [|done].
    destruct (check_elements V inputs targets m n grad
                (seq 0 (size_of (get_param n P))) P) as [o1 [P1|e]];
      [|done].
    destruct (check_pairs V inputs targets m pre P1) as [o2 r2] eqn:E2.
    inversion H; subst.
    rewrite (IH P1 o2 E2). cbn [fst snd]. rewrite <- app_comm_cons.
    by rewrite <- app_assoc.
Qed.

(** C7, as the code has it.  In the loop over the (weight, grad, name) triples, when
    the pairs before a pair have been checked and the shapes of that pair
    differ, the run stops there with an [AssertionError]: what has been
    printed is what the earlier pairs printed, so neither the name of the
    pair nor any of its element checks; the message gives the two shapes and
    is the same whatever the name of the pair is. *)
Theorem C7_shape_mismatch_fails_fast (V : nat) (inputs targets : list Z)
    (m : memory) (pre rest : list (pname * ndarray * string)) (n : pname)
    (grad : ndarray) (name : string) (P P' : params) (out : list event) :
  check_pairs V inputs targets m pre P = (out, Ok P') ->
  shape (get_param n P') <> shape grad ->
  (forall name' : string,
     check_pairs V inputs targets m (pre ++ (n, grad, name') :: rest) P
     = (out, Raise (AssertionError (mismatch_message (get_param n P') grad))))
  /\ mismatch_message (get_param n P') grad
     = ("Dimensions dont match between weight and gradient "
        +:+ show_shape (shape (get_param n P')) +:+ " and "
        +:+ show_shape (shape grad) +:+ ".")%string.
Proof.
  intros Hpre Hne. split; [|reflexivity].
  intros name'. rewrite (check_pairs_app _ _ _ _ _ _ _ _ _ Hpre).
  rewrite check_pairs_mismatch by done. cbn [fst snd].
  by rewrite app_nil_r.
Qed.

Lemma C7_shape_mismatch_witness :
  (forall name' : string,
     check_pairs 2 [] [] zero_memory ([] ++ (PWf, [[0]], name') :: [])
       (zero_params 2)
     = ([], Raise (AssertionError
                     (mismatch_message (get_param PWf (zero_params 2))
                        [[0]]))))
  /\ mismatch_message (get_param PWf (zero_params 2)) [[0]]
     = ("Dimensions dont match between weight and gradient "
        +:+ show_shape (shape (get_param PWf (zero_params 2))) +:+ " and "
        +:+ show_shape (shape [[0]]) +:+ ".")%string.
Proof.
  apply (C7_shape_mismatch_fails_fast 2 [] [] zero_memory [] [] PWf [[0]]
           "Wf" (zero_params 2) (zero_params 2) []).
  - reflexivity.
  - intros H. vm_compute in H. discriminate H.
Defined.

(** The diagnostic raised for the offending pair named [Wf] and the one
    raised for the offending pair named [Wi] are the same message, which
    holds two shapes and no name. *)
Lemma C7_diagnostic_without_name :
  check_pairs 2 [] [] zero_memory [(PWf, [[0]], "Wf"%string)] (zero_params 2)
  = ([], Raise (AssertionError
       "Dimensions dont match between weight and gradient (32, 36) and (1, 1)."))
  /\
  check_pairs 2 [] [] zero_memory [(PWi, [[0]], "Wi"%string)] (zero_params 2)
  = ([], Raise (AssertionError
       "Dimensions dont match between weight and gradient (32, 36) and (1, 1).")).
Proof. split; reflexivity. Qed.

Lemma np_divide_zero (x : R) :
  np_divide x 0 = if Req_dec_T x 0 then NaN else Inf.
Proof. unfold np_divide. by destruct (Req_dec_T 0 0). Qed.

Lemma np_divide_nonzero (x y : R) : y <> 0 -> np_divide x y = Finite (x / y).
Proof. intros H. unfold np_divide. by destruct (Req_dec_T y 0). Qed.



(** ** A corpus shorter than a chunk *)

Lemma init_params_wf (V : nat) (d : randn_draws) :
  wf_draws V d -> wf_params V (init_params V d).
Proof.
  intros []. constructor; cbn [init_params Wex Wf Wi Wo Wc bf bi bo bc Why by_];
    first [by apply has_shape_amap | apply has_shape_zeros].
Qed.

Lemma wf_zero_draws (V : nat) : wf_draws V (zero_draws V).
Proof. constructor; apply has_shape_zeros. Qed.

Lemma fst_imap_keys (g : nat -> Z) (l : list ascii) :
  (imap (fun i ch => (ch, g i)) l).*1 = l.
Proof.
  revert g. induction l as [|ch l IH]; intros g; [done|].
  cbn [imap fmap list_fmap]. f_equal. apply (IH (g ∘ S)).
Qed.

Lemma char_to_ix_total (data : list ascii) (ch : ascii) :
  ch ∈ data -> is_Some (char_to_ix data !! ch).
Proof.
  intros Hin. unfold char_to_ix, char_to_ix_of.
  destruct (list_to_map _ !! ch) as [i|] eqn:E; [by eexists|].
  apply not_elem_of_list_to_map in E.
  rewrite (fst_imap_keys Z.of_nat) in E.
  exfalso. apply E. unfold chars_of. by apply elem_of_remove_dups.
Qed.

Lemma encode_total (data s : list ascii) :
  s ⊆ data -> exists l : list Z, encode (char_to_ix data) s = Ok l.
Proof.
  induction s as [|ch s IH]; intros Hsub; [by eexists|].
  destruct (char_to_ix_total data ch) as [i Hi]; [apply Hsub; left|].
  destruct IH as [l Hl]; [intros x Hx; apply Hsub; by right|].
  exists (i :: l). cbn [encode]. by rewrite Hi, Hl.
Qed.

Lemma slice_subseteq (data : list ascii) (i j : nat) : slice data i j ⊆ data.
Proof.
  unfold slice. etransitivity; [apply subseteq_take | apply subseteq_drop].
Qed.

Lemma vocab_size_pos (data : list ascii) :
  data <> [] -> (0 < vocab_size_of data)%nat.
Proof.
  intros Hne. destruct data as [|ch data]; [done|].
  unfold vocab_size_of, chars_of.
  assert (ch ∈ remove_dups (ch :: data)) as Hin
    by (apply elem_of_remove_dups; left).
  destruct (remove_dups (ch :: data)); [by apply elem_of_nil in Hin|].
  simpl. lia.
Qed.

Lemma cell_missing_target (V : nat) (P : params) (inputs targets : list Z)
    (t : nat) (h c : ndarray) (ix : Z) :
  wf_params V P ->
  has_shape hidden_size 1 h -> has_shape hidden_size 1 c ->
  inputs !! t = Some ix -> valid_index V ix ->
  (length targets <= t)%nat ->
  cell V P inputs targets t h c = Raise IndexError.
Proof.
  intros HP Hh Hc Hix Vix Hge.
  assert (0 < V)%nat as HV by (unfold valid_index in Vix; lia).
  pose proof (tvals_of_wf V P h c ix 0 HP HV Hh Hc) as Hwf.
  unfold cell.
  rewrite (py_index_lookup _ _ _ Hix), bind_Ok.
  rewrite (onehot_setitem V ix Vix), bind_Ok.
  rewrite softmax_stable, bind_Ok.
  2:{ apply (flat_nonempty V 1); [apply (wfv_lg _ _ Hwf) | done | lia]. }
  by rewrite py_index_range.
Qed.

Lemma run_cells_missing_target (V : nat) (P : params)
    (inputs targets : list Z) :
  wf_params V P ->
  Forall (valid_index V) inputs -> Forall (valid_index V) targets ->
  forall (n s : nat) (hc : memory),
    wf_memory hc -> (s <= length targets)%nat ->
    (s + n <= length inputs)%nat -> (length targets < s + n)%nat ->
    run_cells V P inputs targets (seq s n) hc = Raise IndexError.
Proof.
  intros HP Hin Htg. induction n as [|n IH]; intros s hc [Hh Hc] Hs Hn Hlt;
    [lia|].
  assert (is_Some (inputs !! s)) as [ix Hix]
    by (apply lookup_lt_is_Some; lia).
  pose proof (Forall_lookup_1 _ _ _ _ Hin Hix) as Vix.
  cbn [seq run_cells].
  destruct (decide (s < length targets)%nat) as [Hlt'|Hge].
  - assert (is_Some (targets !! s)) as [tx Htx]
      by (by apply lookup_lt_is_Some).
    pose proof (Forall_lookup_1 _ _ _ _ Htg Htx) as Vtx.
    rewrite (cell_ok V P inputs targets s _ _ ix tx) by done.
    rewrite bind_Ok.
    assert (0 < V)%nat as HV by (unfold valid_index in Vix; lia).
    pose proof (tvals_of_wf V P hc.1 hc.2 ix tx HP HV Hh Hc) as Hwf.
    rewrite IH; [done | | lia..].
    split; [apply (wfv_h _ _ Hwf) | apply (wfv_c _ _ Hwf)].
  - rewrite (cell_missing_target V P inputs targets s _ _ ix); try done.
    lia.
Qed.

(** With fewer targets than inputs [forward] raises when it reads the
    missing target. *)
Lemma forward_missing_target (V : nat) (P : params) (inputs targets : list Z)
    (m : memory) :
  wf_params V P -> wf_memory m ->
  Forall (valid_index V) inputs -> Forall (valid_index V) targets ->
  (length targets < length inputs)%nat ->
  forward V P inputs targets m = Raise IndexError.
Proof.
  intros HP Hm Hin Htg Hlt. rewrite forward_cells.
  rewrite (run_cells_missing_target V P inputs targets HP Hin Htg); try done;
    lia.
Qed.

Lemma train_loop_unfold (fuel V : nat) (c2i : gmap ascii Z)
    (data : list ascii) (st : train_state) (e : exn) :
  train_iteration V c2i data st = Raise e ->
  train_loop fuel V c2i data st = Raise e.
Proof. intros H. destruct fuel; cbn [train_loop]; by rewrite H. Qed.

Lemma initial_chunk (data : list ascii) (V : nat) (P : params) :
  chunk_start data (initial_state V P) = 0%nat /\
  chunk_memory data (initial_state V P) = Some zero_memory.
Proof.
  unfold chunk_start, chunk_memory, must_reset. cbn [initial_state t_n t_p].
  by rewrite orb_true_r.
Qed.

Lemma short_corpus_chunk (data : list ascii) :
  data <> [] -> (length data <= seq_length)%nat ->
  exists inputs targets : list Z,
    encode (char_to_ix data) (slice data 0 (0 + seq_length)) = Ok inputs /\
    encode (char_to_ix data) (slice data (0 + 1) (0 + seq_length + 1))
    = Ok targets /\
    S (length targets) = length inputs /\
    Forall (valid_index (vocab_size_of data)) inputs /\
    Forall (valid_index (vocab_size_of data)) targets.
Proof.
  intros Hne Hlen.
  destruct (encode_total data (slice data 0 (0 + seq_length)))
    as [inputs Hi]; [apply slice_subseteq|].
  destruct (encode_total data (slice data (0 + 1) (0 + seq_length + 1)))
    as [targets Ht]; [apply slice_subseteq|].
  exists inputs, targets. split; [done|]. split; [done|].
  pose proof (char_to_ix_valid data) as Hc.
  split; [|split; by eapply encode_valid].
  apply encode_length in Hi, Ht. rewrite Hi, Ht. unfold slice.
  rewrite !length_take, !length_drop.
  assert (0 < length data)%nat by (destruct data; [done | simpl; lia]).
  lia.
Qed.

Lemma short_corpus_forward (V : nat) (c2i : gmap ascii Z) (data : list ascii)
    (P : params) (inputs targets : list Z) :
  wf_params V P ->
  encode c2i (slice data 0 (0 + seq_length)) = Ok inputs ->
  encode c2i (slice data (0 + 1) (0 + seq_length + 1)) = Ok targets ->
  forward V P inputs targets zero_memory = Raise IndexError ->
  train V c2i data P
  = (if (V =? 0)%nat then Raise ZeroDivisionError else Raise IndexError) /\
  gradcheck V c2i data P = ([], Raise IndexError).
Proof.
  intros HP Hi Ht Hf. split.
  - unfold train, train_init. destruct (V =? 0)%nat; [done|].
    rewrite bind_Ok. apply train_loop_unfold. unfold train_iteration.
    destruct (initial_chunk data V P) as [Hs Hm].
    rewrite (prepare_ok c2i data _ inputs targets);
      [|by rewrite Hs..].
    rewrite bind_Ok. unfold update, forward_call.
    cbn [t_memory t_params t_inputs t_targets]. rewrite Hm, bind_Ok.
    cbn [initial_state t_params]. by rewrite Hf.
  - unfold gradcheck, forward_call. rewrite Hi, bind_Ok, Ht, bind_Ok.
    fold zero_memory. by rewrite Hf.
Qed.

Lemma main_train (data : list ascii) (d : randn_draws) :
  main "train" data d
  = match train (vocab_size_of data) (char_to_ix data) data
            (init_params (vocab_size_of data) d) with
    | Ok _ => ([], Ok tt)
    | Raise e => ([], Raise e)
    end.
Proof. reflexivity. Qed.

Lemma main_gradcheck (data : list ascii) (d : randn_draws) :
  main "gradcheck" data d
  = match gradcheck (vocab_size_of data) (char_to_ix data) data
            (init_params (vocab_size_of data) d) with
    | (out, Ok _) => (out, Ok tt)
    | (out, Raise e) => (out, Raise e)
    end.
Proof. reflexivity. Qed.

Lemma short_corpus_main (data : list ascii) (d : randn_draws) :
  wf_draws (vocab_size_of data) d ->
  data <> [] -> (length data <= seq_length)%nat ->
  train_init (vocab_size_of data) (init_params (vocab_size_of data) d)
  = Ok (initial_state (vocab_size_of data)
          (init_params (vocab_size_of data) d)) /\
  exists inputs targets : list Z,
    encode (char_to_ix data) (slice data 0 (0 + seq_length)) = Ok inputs /\
    encode (char_to_ix data) (slice data (0 + 1) (0 + seq_length + 1))
    = Ok targets /\
    S (length targets) = length inputs /\
    forward (vocab_size_of data) (init_params (vocab_size_of data) d)
      inputs targets zero_memory = Raise IndexError /\
    main "train" data d = ([], Raise IndexError) /\
    main "gradcheck" data d = ([], Raise IndexError).
Proof.
  intros Hd Hne Hlen.
  pose proof (init_params_wf _ d Hd) as HP.
  pose proof (vocab_size_pos data Hne) as HV.
  assert ((vocab_size_of data =? 0)%nat = false) as HV0
    by (apply Nat.eqb_neq; lia).
  split; [unfold train_init; by rewrite HV0|].
  destruct (short_corpus_chunk data Hne Hlen)
    as (inputs & targets & Hi & Ht & Hl & Vi & Vt).
  exists inputs, targets. split; [done|]. split; [done|]. split; [done|].
  assert (forward (vocab_size_of data) (init_params (vocab_size_of data) d)
            inputs targets zero_memory = Raise IndexError) as Hf.
  { apply forward_missing_target; try done; [apply wf_zero_memory | lia]. }
  split; [done|].
  destruct (short_corpus_forward _ _ data _ inputs targets HP Hi Ht Hf)
    as [Htr Hgc].
  rewrite HV0 in Htr.
  rewrite main_train, main_gradcheck, Htr, Hgc. done.
Qed.

(** ** Start-up: the claims *)

(** C8, as the code has it.  The program has no explicit guard at start-up for a short
    corpus or an empty vocabulary.  On an empty corpus training mode raises
    [ZeroDivisionError] when it computes the initial smoothed loss.  On a
    non-empty corpus of at most [seq_length] characters start-up succeeds,
    the chunk has one target less than it has inputs, and the first call of
    [forward] raises [IndexError]; that is how both modes end. *)
Theorem C8_no_startup_guard (data : list ascii) (d : randn_draws) :
  wf_draws (vocab_size_of data) d ->
  (data = [] -> main "train" data d = ([], Raise ZeroDivisionError)) /\
  (data <> [] -> (length data <= seq_length)%nat ->
   train_init (vocab_size_of data) (init_params (vocab_size_of data) d)
   = Ok (initial_state (vocab_size_of data)
           (init_params (vocab_size_of data) d)) /\
   exists inputs targets : list Z,
     encode (char_to_ix data) (slice data 0 (0 + seq_length)) = Ok inputs /\
     encode (char_to_ix data) (slice data (0 + 1) (0 + seq_length + 1))
     = Ok targets /\
     S (length targets) = length inputs /\
     forward (vocab_size_of data) (init_params (vocab_size_of data) d)
       inputs targets zero_memory = Raise IndexError /\
     main "train" data d = ([], Raise IndexError) /\
     main "gradcheck" data d = ([], Raise IndexError)).
Proof.
  intros Hd. split.
  - intros ->. reflexivity.
  - intros Hne Hlen. by apply short_corpus_main.
Qed.

Lemma C8_no_startup_guard_witness :
  (short_data = [] ->
   main "train" short_data (zero_draws 2) = ([], Raise ZeroDivisionError)) /\
  (short_data <> [] -> (length short_data <= seq_length)%nat ->
   train_init (vocab_size_of short_data)
     (init_params (vocab_size_of short_data) (zero_draws 2))
   = Ok (initial_state (vocab_size_of short_data)
           (init_params (vocab_size_of short_data) (zero_draws 2))) /\
   exists inputs targets : list Z,
     encode (char_to_ix short_data) (slice short_data 0 (0 + seq_length))
     = Ok inputs /\
     encode (char_to_ix short_data)
       (slice short_data (0 + 1) (0 + seq_length + 1)) = Ok targets /\
     S (length targets) = length inputs /\
     forward (vocab_size_of short_data)
       (init_params (vocab_size_of short_data) (zero_draws 2))
       inputs targets zero_memory = Raise IndexError /\
     main "train" short_data (zero_draws 2) = ([], Raise IndexError) /\
     main "gradcheck" short_data (zero_draws 2) = ([], Raise IndexError)).
Proof.
  apply (C8_no_startup_guard short_data (zero_draws 2)).
  apply (wf_zero_draws 2).
Defined.

(** On the corpus [ab]: start-up raises nothing, the first time step of
    [forward] is computed in full, and the run ends with the [IndexError]
    that [forward] raises at its second time step. *)
Lemma C8_short_corpus_reaches_forward :
  let P := init_params 2 (zero_draws 2) in
  (length short_data < seq_length)%nat /\
  vocab_size_of short_data = 2%nat /\
  train_init 2 P = Ok (initial_state 2 P) /\
  encode (char_to_ix short_data) (slice short_data 0 (0 + seq_length))
  = Ok [0; 1]%Z /\
  encode (char_to_ix short_data) (slice short_data (0 + 1) (0 + seq_length + 1))
  = Ok [1]%Z /\
  cell 2 P [0; 1]%Z [1]%Z 0 zero_memory.1 zero_memory.2
  = Ok (tvals_of 2 P zero_memory.1 zero_memory.2 0 1) /\
  forward 2 P [0; 1]%Z [1]%Z zero_memory = Raise IndexError /\
  main "train" short_data (zero_draws 2) = ([], Raise IndexError).
Proof.
  intros P.
  assert (wf_params 2 P) as HP by apply init_params_wf, wf_zero_draws.
  split; [unfold seq_length; simpl; lia|]. split; [reflexivity|].
  split; [reflexivity|].
  assert (encode (char_to_ix short_data) (slice short_data 0 (0 + seq_length))
          = Ok [0; 1]%Z) as Hi by (vm_compute; reflexivity).
  assert (encode (char_to_ix short_data)
            (slice short_data (0 + 1) (0 + seq_length + 1))
          = Ok [1]%Z) as Ht by (vm_compute; reflexivity).
  split; [done|]. split; [done|].
  split.
  { destruct wf_zero_memory.
    apply cell_ok; try done; unfold valid_index; simpl; lia. }
  assert (forward 2 P [0; 1]%Z [1]%Z zero_memory = Raise IndexError) as Hf.
  { apply forward_missing_target; try done; [apply wf_zero_memory | ..].
    - repeat constructor; unfold valid_index; simpl; lia.
    - repeat constructor; unfold valid_index; simpl; lia.
    - simpl. lia. }
  split; [done|].
  destruct (short_corpus_forward 2 (char_to_ix short_data) short_data P
              [0; 1]%Z [1]%Z HP Hi Ht Hf) as [Htr _].
  rewrite main_train.
  change (vocab_size_of short_data) with 2%nat. fold P. by rewrite Htr.
Qed.

(** ** A global [inputs] shorter than the chunk: a concrete run

    On the record of the chunk with inputs [0; 1] and targets [1; 0],
    [backward] with a global [inputs] of one element returns gradients that
    differ from those it returns when the global has the chunk's two
    elements: the gradient of the output bias. *)

Lemma dotp_zeros (k : nat) (col : list R) : dotp (replicate k 0) col = 0.
Proof.
  unfold dotp, rsum. revert col. induction k as [|k IH]; intros [|x col];
    try done.
  cbn [replicate zip_with foldr]. rewrite IH. lra.
Qed.

Lemma dot_zeros_col (r k : nat) (b : ndarray) :
  has_shape k 1 b -> (0 < k)%nat -> dot (zeros r k) b = zeros r 1.
Proof.
  intros Hb Hk. destruct (length_transpose k 1 b Hb Hk) as [Hl _].
  destruct (transpose b) as [|col [|? ?]] eqn:E; try discriminate.
  unfold dot, zeros. rewrite E.
  assert (forall (f : list R -> list R) (x : list R),
            map f (replicate r x) = replicate r (f x)) as Hrep.
  { intros f x. clear. induction r as [|r IH]; [done|].
    cbn [replicate map]. by rewrite IH. }
  rewrite Hrep. cbn [map]. by rewrite dotp_zeros.
Qed.

Lemma ex_probs (h c : ndarray) (ix tx : Z) :
  has_shape hidden_size 1 h -> has_shape hidden_size 1 c ->
  v_p (tvals_of 2 ex_P h c ix tx) = [[1 / 2]; [1 / 2]].
Proof.
  intros Hh Hc.
  assert (0 < 2)%nat as H2 by lia.
  pose proof (tvals_of_wf 2 ex_P h c ix tx (wf_zero_params 2) H2 Hh Hc) as Hwf.
  pose proof (wfv_h _ _ Hwf) as Hh'.
  change (v_p (tvals_of 2 ex_P h c ix tx))
    with (Spec.softmax
            (aadd (dot (zeros 2 hidden_size) (v_h (tvals_of 2 ex_P h c ix tx)))
                  (zeros 2 1))).
  rewrite (dot_zeros_col 2 hidden_size _ Hh' hidden_size_pos).
  unfold Spec.softmax, asum, rsum. cbn.
  replace (0 + 0) with 0 by lra. rewrite exp_0.
  repeat f_equal; lra.
Qed.

Lemma ex_dby_short :
  dby (SpecBPTT.bptt ex_P zero_memory (take 1 ex_trace))
  = [[0 + (1 / 2 - 0)]; [0 + (1 / 2 - 1)]].
Proof.
  change (dby (SpecBPTT.bptt ex_P zero_memory (take 1 ex_trace)))
    with (aadd (zeros_like (zeros 2 1)) (asub (v_p ex_v0) (v_y ex_v0))).
  assert (v_p ex_v0 = [[1 / 2]; [1 / 2]]) as ->
    by (apply ex_probs; apply wf_zero_memory).
  reflexivity.
Qed.

Lemma ex_dby_chunk :
  dby (SpecBPTT.bptt ex_P zero_memory ex_trace)
  = [[0 + (1 / 2 - 1) + (1 / 2 - 0)]; [0 + (1 / 2 - 0) + (1 / 2 - 1)]].
Proof.
  change (dby (SpecBPTT.bptt ex_P zero_memory ex_trace))
    with (aadd (aadd (zeros_like (zeros 2 1))
                     (asub (v_p ex_v1) (v_y ex_v1)))
               (asub (v_p ex_v0) (v_y ex_v0))).
  assert (tvals_wf 2 ex_v0) as Hwf0.
  { apply tvals_of_wf; [apply wf_zero_params | lia | apply wf_zero_memory..]. }
  assert (v_p ex_v1 = [[1 / 2]; [1 / 2]]) as ->
    by (apply ex_probs; apply Hwf0).
  assert (v_p ex_v0 = [[1 / 2]; [1 / 2]]) as ->
    by (apply ex_probs; apply wf_zero_memory).
  reflexivity.
Qed.

Lemma backward_short_global_differs :
  exists g1 g2 : gradients,
    backward ex_P [7]%Z ex_acts false = Ok g1 /\
    backward ex_P [7; 7]%Z ex_acts false = Ok g2 /\
    dby g1 <> dby g2.
Proof.
  exists (SpecBPTT.bptt ex_P zero_memory (take 1 ex_trace)),
         (SpecBPTT.bptt ex_P zero_memory ex_trace).
  assert (forall g_inputs : list Z,
            backward ex_P g_inputs ex_acts false
            = if decide (length g_inputs <= length ex_inputs)%nat
              then Ok (clip_if false
                         (SpecBPTT.bptt ex_P zero_memory
                            (take (length g_inputs) ex_trace)))
              else Raise KeyError) as H.
  { intros g_inputs.
    apply (backward_record 2 ex_P ex_inputs ex_targets g_inputs zero_memory
             false (wf_zero_params 2) wf_zero_memory ex_chunk_valid).
    discriminate. }
  split; [by rewrite H|]. split; [by rewrite H|].
  rewrite ex_dby_short, ex_dby_chunk. intros Heq.
  injection Heq as Heq _. lra.
Qed.

(** * Further properties of the program *)

(** ** Numeric primitives (lines 15-32) *)

Lemma flat_amap (f : R -> R) (a : ndarray) : flat (amap f a) = map f (flat a).
Proof.
  unfold flat, amap. induction a as [|row a IH]; [done|].
  cbn [map concat]. by rewrite IH, map_app.
Qed.

Lemma elem_in_flat (a : ndarray) (r c : nat) (v : R) :
  elem a r c = Some v -> v ∈ flat a.
Proof.
  unfold elem, flat. intros H.
  destruct (a !! r) as [row|] eqn:Hrow; [|done].
  apply list_elem_of_In, in_concat. exists row.
  split; apply list_elem_of_In; by eapply list_elem_of_lookup_2.
Qed.

Lemma rsum_nonneg (l : list R) : Forall (fun v => 0 <= v) l -> 0 <= rsum l.
Proof.
  unfold rsum. induction 1 as [|v l Hv Hl IH]; simpl; lra.
Qed.

Lemma rsum_member_le (l : list R) (v : R) :
  Forall (fun v => 0 <= v) l -> v ∈ l -> v <= rsum l.
Proof.
  intros Hl Hin. induction Hl as [|w l Hw Hl IH].
  - by apply elem_of_nil in Hin.
  - apply elem_of_cons in Hin as [->|Hin]; unfold rsum in *; cbn [foldr].
    + pose proof (rsum_nonneg l Hl). unfold rsum in *. lra.
    + specialize (IH Hin). lra.
Qed.

Lemma exp_flat_nonneg (x : ndarray) :
  Forall (fun v => 0 <= v) (flat (amap exp x)).
Proof.
  rewrite flat_amap. apply Forall_map, Forall_forall. intros v _.
  simpl. left. apply exp_pos.
Qed.

Lemma exp_sum_pos (x : ndarray) : flat x <> [] -> 0 < asum (amap exp x).
Proof.
  intros Hne. unfold asum. rewrite flat_amap.
  destruct (flat x) as [|v l]; [done|]. unfold rsum. cbn [map foldr].
  pose proof (exp_pos v).
  assert (0 <= rsum (map exp l)) as Hl.
  { apply rsum_nonneg, Forall_map, Forall_forall. intros w _. simpl.
    left. apply exp_pos. }
  unfold rsum in Hl. lra.
Qed.

(** X1.  [softmax] raises [ValueError] on an array without elements; on any
    other array it returns an array of the same element positions whose
    elements lie in (0, 1] and sum to 1. *)
Theorem softmax_is_distribution (x : ndarray) :
  (flat x = [] -> softmax x = Raise ValueError) /\
  (flat x <> [] ->
   exists p : ndarray,
     softmax x = Ok p /\ asum p = 1 /\
     (forall r c : nat, is_Some (elem p r c) <-> is_Some (elem x r c)) /\
     forall (r c : nat) (v : R), elem p r c = Some v -> 0 < v <= 1).
Proof.
  split.
  - intros He. unfold softmax, np_max. by rewrite He.
  - intros Hne. exists (Spec.softmax x).
    split; [by apply softmax_stable|].
    pose proof (exp_sum_pos x Hne) as Hs.
    unfold Spec.softmax.
    split.
    { unfold Rdiv. rewrite (asum_amap_scale exp). field. lra. }
    split.
    { intros r c. rewrite elem_amap. destruct (elem x r c); simpl;
        split; intros [? ?]; by eauto. }
    intros r c v Hv. rewrite elem_amap in Hv.
    destruct (elem x r c) as [w|] eqn:Hw; [|done].
    simpl in Hv. inversion Hv; subst; clear Hv.
    assert (exp w <= asum (amap exp x)) as Hle.
    { apply rsum_member_le; [apply exp_flat_nonneg|].
      apply (elem_in_flat _ r c). by rewrite elem_amap, Hw. }
    pose proof (exp_pos w). split.
    + by apply Rdiv_lt_0_compat.
    + apply (Rmult_le_reg_r (asum (amap exp x))); [done|].
      unfold Rdiv. rewrite Rmult_assoc, Rinv_l by lra. lra.
Qed.

Lemma sigma_range (v : R) : 0 < Spec.sigma v < 1.
Proof.
  unfold Spec.sigma. pose proof (exp_pos (- v)) as He.
  split.
  - apply Rdiv_lt_0_compat; lra.
  - apply (Rmult_lt_reg_r (1 + exp (- v))); [lra|].
    unfold Rdiv. rewrite Rmult_assoc, Rinv_l by lra. lra.
Qed.

Lemma sigma_derivative (v : R) :
  derivable_pt_lim Spec.sigma v (Spec.sigma v * (1 - Spec.sigma v)).
Proof.
  pose proof (exp_pos (- v)) as He.
  assert (derivable_pt_lim
            (fct_cte 1 / (fct_cte 1 + comp exp (- id)))%F v
            ((0 * (1 + exp (- v)) - (0 + exp (- v) * (- 1)) * 1)
             / Rsqr (1 + exp (- v)))) as H.
  { apply (derivable_pt_lim_div (fct_cte 1) (fct_cte 1 + comp exp (- id))%F).
    - apply derivable_pt_lim_const.
    - apply derivable_pt_lim_plus; [apply derivable_pt_lim_const|].
      apply (derivable_pt_lim_comp (- id)%F exp).
      + apply derivable_pt_lim_opp, derivable_pt_lim_id.
      + apply derivable_pt_lim_exp.
    - unfold plus_fct, fct_cte, comp, opp_fct, id. lra. }
  replace (Spec.sigma v * (1 - Spec.sigma v))
    with ((0 * (1 + exp (- v)) - (0 + exp (- v) * (- 1)) * 1)
          / Rsqr (1 + exp (- v))).
  - exact H.
  - unfold Spec.sigma, Rsqr. field. lra.
Qed.

(** X2.  Over the reals, as which the model reads [float64]: every element
    of [sigmoid(x)] lies strictly between 0 and 1, and [dsigmoid] applied to
    the output of [sigmoid] gives, element by element, the derivative of the
    sigmoid function at the input.  (In [float64] a saturated sigmoid rounds
    to exactly 0 or 1, and the bounds are then reached.) *)
Theorem dsigmoid_of_sigmoid_is_derivative (x : ndarray) (r c : nat) (v : R) :
  elem x r c = Some v ->
  elem (sigmoid x) r c = Some (1 / (1 + exp (- v))) /\
  0 < 1 / (1 + exp (- v)) < 1 /\
  exists d : R,
    elem (dsigmoid (sigmoid x)) r c = Some d /\
    derivable_pt_lim (fun u => 1 / (1 + exp (- u))) v d.
Proof.
  intros Hv.
  assert (elem (sigmoid x) r c = Some (Spec.sigma v)) as Hs
    by (unfold sigmoid; by rewrite elem_amap, Hv).
  split; [exact Hs|]. split; [apply sigma_range|].
  exists (Spec.sigma v * (1 - Spec.sigma v)). split.
  - rewrite dsigmoid_amap, elem_amap, Hs. reflexivity.
  - apply sigma_derivative.
Qed.

Lemma dsigmoid_of_sigmoid_witness :
  elem (sigmoid [[0]]) 0 0 = Some (1 / (1 + exp (- 0))) /\
  0 < 1 / (1 + exp (- 0)) < 1 /\
  exists d : R,
    elem (dsigmoid (sigmoid [[0]])) 0 0 = Some d /\
    derivable_pt_lim (fun u => 1 / (1 + exp (- u))) 0 d.
Proof.
  apply (dsigmoid_of_sigmoid_is_derivative [[0]] 0 0 0). reflexivity.
Defined.

Lemma cosh_pos (v : R) : 0 < cosh v.
Proof.
  unfold cosh. pose proof (exp_pos v). pose proof (exp_pos (- v)). lra.
Qed.

Lemma cosh_sinh_square (v : R) : cosh v * cosh v - sinh v * sinh v = 1.
Proof.
  unfold cosh, sinh.
  assert (exp v * exp (- v) = 1) as H
    by (rewrite <- exp_plus, Rplus_opp_r; apply exp_0).
  nra.
Qed.

Lemma tanh_derivative (v : R) :
  derivable_pt_lim tanh v (1 - tanh v * tanh v).
Proof.
  pose proof (cosh_pos v) as Hc.
  assert (derivable_pt_lim (sinh / cosh)%F v
            ((cosh v * cosh v - sinh v * sinh v) / Rsqr (cosh v))) as H.
  { apply (derivable_pt_lim_div sinh cosh).
    - apply derivable_pt_lim_sinh.
    - apply derivable_pt_lim_cosh.
    - lra. }
  replace (1 - tanh v * tanh v)
    with ((cosh v * cosh v - sinh v * sinh v) / Rsqr (cosh v)).
  - exact H.
  - unfold tanh, Rsqr. field. lra.
Qed.

(** X3.  Over the reals, as which the model reads [float64]: [dtanh]
    applied to the output of [np.tanh] gives, element by element, the
    derivative of tanh at the input, a number in (0, 1].  (In [float64] a
    saturated tanh rounds to exactly 1 or -1, and [dtanh] then gives 0.) *)
Theorem dtanh_of_tanh_is_derivative (x : ndarray) (r c : nat) (v : R) :
  elem x r c = Some v ->
  exists d : R,
    elem (dtanh (amap tanh x)) r c = Some d /\
    derivable_pt_lim tanh v d /\ 0 < d <= 1.
Proof.
  intros Hv. exists (1 - tanh v * tanh v). split.
  - by rewrite dtanh_amap, !elem_amap, Hv.
  - split; [apply tanh_derivative|].
    pose proof (cosh_pos v) as Hc.
    pose proof (cosh_sinh_square v) as H2.
    assert (1 - tanh v * tanh v = 1 / (cosh v * cosh v)) as ->.
    { unfold tanh. field_simplify_eq; [|lra]. lra. }
    assert (1 <= cosh v * cosh v) as Hge by nra.
    split.
    + apply Rdiv_lt_0_compat; nra.
    + apply (Rmult_le_reg_r (cosh v * cosh v)); [nra|].
      unfold Rdiv. rewrite Rmult_assoc, Rinv_l by nra. lra.
Qed.

Lemma dtanh_of_tanh_witness :
  exists d : R,
    elem (dtanh (amap tanh [[0]])) 0 0 = Some d /\
    derivable_pt_lim tanh 0 d /\ 0 < d <= 1.
Proof.
  apply (dtanh_of_tanh_is_derivative [[0]] 0 0 0). reflexivity.
Defined.

(** ** The vocabulary tables (lines 37-41) *)

Lemma snd_imap_keys (l : list ascii) (s : nat) :
  (imap (fun i ch => (Z.of_nat (s + i), ch)) l).*1
  = map Z.of_nat (seq s (length l)).
Proof.
  revert s. induction l as [|ch l IH]; intros s; [done|].
  cbn [imap fmap list_fmap length seq map fst].
  rewrite Nat.add_0_r. f_equal.
  rewrite <- (IH (S s)). apply (f_equal (fmap fst)).
  apply imap_ext. intros i x _. cbn. by rewrite Nat.add_succ_r.
Qed.

Lemma char_to_ix_lookup (data : list ascii) (ch : ascii) (i : Z) :
  char_to_ix data !! ch = Some i
  <-> (0 <= i)%Z /\ chars_of data !! Z.to_nat i = Some ch.
Proof.
  unfold char_to_ix, char_to_ix_of.
  rewrite <- elem_of_list_to_map.
  2:{ rewrite (fst_imap_keys Z.of_nat). apply NoDup_remove_dups. }
  rewrite elem_of_lookup_imap. split.
  - intros (j & y & Heq & Hj). inversion Heq; subst.
    rewrite Nat2Z.id. split; [lia | done].
  - intros [Hi Hl]. exists (Z.to_nat i), ch. split; [|done].
    f_equal. lia.
Qed.

Lemma ix_to_char_lookup (data : list ascii) (ch : ascii) (i : Z) :
  ix_to_char data !! i = Some ch
  <-> (0 <= i)%Z /\ chars_of data !! Z.to_nat i = Some ch.
Proof.
  unfold ix_to_char, ix_to_char_of.
  rewrite <- elem_of_list_to_map.
  2:{ rewrite (snd_imap_keys _ 0).
      apply NoDup_fmap_2; [intros ? ?; lia | apply NoDup_seq]. }
  rewrite elem_of_lookup_imap. split.
  - intros (j & y & Heq & Hj). inversion Heq; subst.
    rewrite Nat2Z.id. split; [lia | done].
  - intros [Hi Hl]. exists (Z.to_nat i), ch. split; [|done].
    f_equal. lia.
Qed.

Lemma vocabulary_lookup_aux (data : list ascii) (ch : ascii) (i : Z) :
  char_to_ix data !! ch = Some i <-> ix_to_char data !! i = Some ch.
Proof. by rewrite char_to_ix_lookup, ix_to_char_lookup. Qed.

(** X4.  The two tables built from the corpus are inverse to each other;
    [char_to_ix] is defined on the characters of the corpus and on no other;
    [ix_to_char] is defined on the indices [0 .. vocab_size-1] and on no
    other. *)
Theorem vocabulary_round_trip (data : list ascii) :
  (forall (ch : ascii) (i : Z),
     char_to_ix data !! ch = Some i <-> ix_to_char data !! i = Some ch) /\
  (forall ch : ascii, ch ∈ data <-> is_Some (char_to_ix data !! ch)) /\
  (forall i : Z,
     is_Some (ix_to_char data !! i) <-> valid_index (vocab_size_of data) i).
Proof.
  split; [|split].
  - apply vocabulary_lookup_aux.
  - intros ch. split; [apply char_to_ix_total|].
    intros [i Hi]. apply char_to_ix_lookup in Hi as [_ Hi].
    apply list_elem_of_lookup_2 in Hi. unfold chars_of in Hi.
    by rewrite elem_of_remove_dups in Hi.
  - intros i. unfold valid_index, vocab_size_of. split.
    + intros [ch Hch]. apply ix_to_char_lookup in Hch as [Hi Hl].
      apply lookup_lt_Some in Hl. lia.
    + intros [Hi Hlt].
      assert (is_Some (chars_of data !! Z.to_nat i)) as [ch Hch]
        by (apply lookup_lt_is_Some; lia).
      exists ch. by apply ix_to_char_lookup.
Qed.

(** X5.  Encoding a text whose characters all occur in the corpus gives as
    many indices as the text has characters, each of them an index of the
    vocabulary, and decoding them gives the text back; encoding a text with
    a character that does not occur in the corpus raises [KeyError]. *)
Theorem encode_decode_round_trip (data s : list ascii) :
  (s ⊆ data ->
   exists l : list Z,
     encode (char_to_ix data) s = Ok l /\ length l = length s /\
     Forall (valid_index (vocab_size_of data)) l /\
     decode (ix_to_char data) l = Ok s) /\
  (~ s ⊆ data -> encode (char_to_ix data) s = Raise KeyError).
Proof.
  split.
  - intros Hsub. destruct (encode_total data s Hsub) as [l Hl].
    exists l. split; [done|]. split; [by eapply encode_length|].
    split; [eapply encode_valid; [apply char_to_ix_valid | done]|].
    clear Hsub. revert l Hl. induction s as [|ch s IH]; intros l Hl;
      cbn [encode] in Hl.
    + by inversion Hl.
    + destruct (char_to_ix data !! ch) as [i|] eqn:Hi; [|done].
      destruct (encode (char_to_ix data) s) as [l'|e]; [|done].
      rewrite bind_Ok in Hl. inversion Hl; subst. cbn [decode].
      apply (proj1 (vocabulary_lookup_aux data ch i)) in Hi.
      by rewrite Hi, (IH l' eq_refl).
  - induction s as [|ch s IH]; intros Hn.
    + exfalso. apply Hn. intros x Hx. by apply elem_of_nil in Hx.
    + cbn [encode].
      destruct (char_to_ix data !! ch) as [i|] eqn:Hi; [|done].
      rewrite IH; [done|]. intros Hs. apply Hn. intros x Hx.
      apply elem_of_cons in Hx as [->|Hx]; [|by apply Hs].
      apply char_to_ix_lookup in Hi as [_ Hi].
      apply list_elem_of_lookup_2 in Hi. unfold chars_of in Hi.
      by rewrite elem_of_remove_dups in Hi.
Qed.

(** ** The forward pass on a chunk (lines 75-171) *)

Lemma spec_softmax_distribution (x : ndarray) :
  flat x <> [] -> is_distribution (Spec.softmax x).
Proof.
  intros Hne. pose proof (exp_sum_pos x Hne) as Hs.
  unfold Spec.softmax. split.
  { unfold Rdiv. rewrite (asum_amap_scale exp). field. lra. }
  intros r c v Hv. rewrite elem_amap in Hv.
  destruct (elem x r c) as [w|] eqn:Hw; [|done].
  simpl in Hv. inversion Hv; subst; clear Hv.
  assert (exp w <= asum (amap exp x)) as Hle.
  { apply rsum_member_le; [apply exp_flat_nonneg|].
    apply (elem_in_flat _ r c). by rewrite elem_amap, Hw. }
  pose proof (exp_pos w). split.
  - by apply Rdiv_lt_0_compat.
  - apply (Rmult_le_reg_r (asum (amap exp x))); [done|].
    unfold Rdiv. rewrite Rmult_assoc, Rinv_l by lra. lra.
Qed.

Lemma tanh_range (v : R) : -1 < tanh v < 1.
Proof.
  pose proof (cosh_pos v) as Hc.
  assert (cosh v - sinh v = exp (- v)) as H1 by (unfold cosh, sinh; lra).
  assert (cosh v + sinh v = exp v) as H2 by (unfold cosh, sinh; lra).
  pose proof (exp_pos v). pose proof (exp_pos (- v)).
  unfold tanh. split.
  - apply (Rmult_lt_reg_r (cosh v)); [done|].
    unfold Rdiv. rewrite Rmult_assoc, Rinv_l by lra. lra.
  - apply (Rmult_lt_reg_r (cosh v)); [done|].
    unfold Rdiv. rewrite Rmult_assoc, Rinv_l by lra. lra.
Qed.

Lemma entry_elem (V : nat) (p : ndarray) (tx : Z) :
  has_shape V 1 p -> valid_index V tx ->
  elem p (Z.to_nat tx) 0 = Some (Spec.entry p tx).
Proof.
  intros [Hl Hr] [H0 Hlt]. unfold elem, Spec.entry.
  assert (is_Some (p !! Z.to_nat tx)) as [row Hrow]
    by (apply lookup_lt_is_Some; lia).
  rewrite Hrow. pose proof (Forall_lookup_1 _ _ _ _ Hr Hrow) as Hlen.
  simpl in Hlen. by destruct row as [|v [|? ?]].
Qed.

Lemma elem_sigmoid_range (x : ndarray) : strictly_within 0 1 (sigmoid x).
Proof.
  intros r c v Hv. unfold sigmoid in Hv. rewrite elem_amap in Hv.
  destruct (elem x r c) as [w|]; [|done]. simpl in Hv.
  inversion Hv; subst. apply sigma_range.
Qed.

Lemma elem_tanh_range (x : ndarray) : strictly_within (-1) 1 (amap tanh x).
Proof.
  intros r c v Hv. rewrite elem_amap in Hv.
  destruct (elem x r c) as [w|]; [|done]. simpl in Hv.
  inversion Hv; subst. apply tanh_range.
Qed.

Lemma gate_times_tanh_range (o c : ndarray) :
  strictly_within 0 1 o -> strictly_within (-1) 1 (amul o (amap tanh c)).
Proof.
  intros Ho r k v Hv. unfold amul in Hv. rewrite elem_azip in Hv.
  destruct (elem o r k) as [a|] eqn:Ha; [|done].
  destruct (elem (amap tanh c) r k) as [b|] eqn:Hb; [|done].
  inversion Hv; subst. apply Ho in Ha. apply elem_tanh_range in Hb. nra.
Qed.

(** What one time step computes, whatever state it starts from. *)
Lemma tvals_of_facts (V : nat) (P : params) (h c : ndarray) (ix tx : Z) :
  wf_params V P -> has_shape hidden_size 1 h -> has_shape hidden_size 1 c ->
  valid_index V tx ->
  is_distribution (v_p (tvals_of V P h c ix tx)) /\
  0 <= v_loss (tvals_of V P h c ix tx) /\
  strictly_within (-1) 1 (v_h (tvals_of V P h c ix tx)).
Proof.
  intros HP Hh Hc Vtx.
  assert (0 < V)%nat as HV by (unfold valid_index in Vtx; lia).
  pose proof (tvals_of_wf V P h c ix tx HP HV Hh Hc) as Hwf.
  assert (is_distribution (v_p (tvals_of V P h c ix tx))) as Hd.
  { apply spec_softmax_distribution.
    apply (flat_nonempty V 1); [apply (wfv_lg _ _ Hwf) | done | lia]. }
  split; [done|]. split.
  - pose proof (entry_elem V _ tx (wfv_p _ _ Hwf) Vtx) as He.
    apply (proj2 Hd) in He. cbn [tvals_of v_loss v_p] in *.
    destruct He as [Hpos [Hlt|Heq]].
    + apply ln_increasing in Hlt; [|done]. rewrite ln_1 in Hlt. lra.
    + rewrite Heq, ln_1. lra.
  - apply gate_times_tanh_range, elem_sigmoid_range.
Qed.

Lemma total_loss_nonneg (l : R) (vs : list tvals) :
  0 <= l -> Forall (fun v => 0 <= v_loss v) vs -> 0 <= total_loss l vs.
Proof.
  intros Hl Hvs. revert l Hl. induction Hvs as [|v vs Hv Hvs IH]; intros l Hl.
  - done.
  - unfold total_loss. cbn [foldl]. apply IH. lra.
Qed.

(** X6.  Over the reals, as which the model reads [float64]: on a chunk of
    vocabulary indices with as many targets as inputs, with parameters and
    carried state of the program's shapes, [forward] completes; the loss is
    not negative, the returned state has the hidden-state shape, and at
    every time step the recorded [ps[t]] is a (vocab_size, 1) column of
    probabilities in (0, 1] that sum to 1 and every element of the recorded
    [hs[t]] lies strictly between -1 and 1.  (In [float64] the sum is 1 up to
    rounding, and a saturated gate or cell state can round an element of
    [hs[t]] to exactly 1 or -1 and a probability to exactly 0.) *)
Theorem forward_record_invariants (V : nat) (P : params)
    (inputs targets : list Z) (m : memory) :
  wf_params V P -> wf_memory m -> valid_chunk V inputs targets ->
  exists (loss : R) (acts : activations) (m' : memory),
    forward V P inputs targets m = Ok (loss, acts, m') /\
    0 <= loss /\ wf_memory m' /\
    forall t : nat, (t < length inputs)%nat ->
      exists p h : ndarray,
        ps acts !! Z.of_nat t = Some p /\ has_shape V 1 p /\
        is_distribution p /\
        hs acts !! Z.of_nat t = Some h /\ has_shape hidden_size 1 h /\
        strictly_within (-1) 1 h.
Proof.
  intros HP Hm Hch. eexists _, _, _.
  split; [by apply forward_trace|].
  set (tr := trace V P m inputs targets).
  assert (forall (t : nat) (v : tvals), tr !! t = Some v ->
            tvals_wf V v /\ is_distribution (v_p v) /\ 0 <= v_loss v /\
            strictly_within (-1) 1 (v_h v)) as Hall.
  { intros t v Hv.
    assert (inputs <> []) as Hne.
    { intros ->. subst tr. by destruct targets. }
    assert (0 < V)%nat as HV by (by eapply valid_chunk_pos).
    pose proof (trace_wf V P inputs targets HP HV m Hm) as Hwf.
    pose proof (Forall_lookup_1 _ _ _ _ Hwf Hv) as Hwv.
    split; [done|].
    destruct (trace_lookup V P inputs targets m t v Hv)
      as (ix & tx & Hix & Htx & ->).
    pose proof (prev_memory_wf V m tr t Hm Hwf) as [Hph Hpc].
    apply tvals_of_facts; try done.
    destruct Hch as [_ _ Htg]. by eapply Forall_lookup_1. }
  split; [|split].
  - apply total_loss_nonneg; [lra|]. apply Forall_lookup_2.
    intros t v Hv. by apply (Hall t v).
  - by apply wf_last_memory.
  - intros t Ht.
    assert (is_Some (tr !! t)) as [v Hv].
    { apply lookup_lt_is_Some. subst tr. rewrite trace_length; [done|].
      by destruct Hch. }
    destruct (Hall t v Hv) as (Hwv & Hd & _ & Hh).
    exists (v_p v), (v_h v).
    pose proof (lookup_record_all Fps tr (init_activations m) 0
                  (Z.of_nat t)) as Hps.
    pose proof (lookup_record_all Fhs tr (init_activations m) 0
                  (Z.of_nat t)) as Hhs.
    pose proof (lookup_lt_Some _ _ _ Hv) as Hlt.
    cbn [dict_of] in Hps, Hhs.
    rewrite decide_True in Hps by lia. rewrite decide_True in Hhs by lia.
    replace (Z.to_nat (Z.of_nat t) - 0)%nat with t in Hps, Hhs by lia.
    rewrite Hv in Hps, Hhs.
    split; [exact Hps|]. split; [apply (wfv_p _ _ Hwv)|].
    split; [done|]. split; [exact Hhs|].
    split; [apply (wfv_h _ _ Hwv) | done].
Qed.

Lemma forward_record_invariants_witness :
  exists (loss : R) (acts : activations) (m' : memory),
    forward 2 ex_P ex_inputs ex_targets zero_memory = Ok (loss, acts, m') /\
    0 <= loss /\ wf_memory m' /\
    forall t : nat, (t < length ex_inputs)%nat ->
      exists p h : ndarray,
        ps acts !! Z.of_nat t = Some p /\ has_shape 2 1 p /\
        is_distribution p /\
        hs acts !! Z.of_nat t = Some h /\ has_shape hidden_size 1 h /\
        strictly_within (-1) 1 h.
Proof.
  apply (forward_record_invariants 2 ex_P ex_inputs ex_targets zero_memory).
  - apply wf_zero_params.
  - apply wf_zero_memory.
  - apply ex_chunk_valid.
Defined.

Lemma py_index_nat {A : Type} (l : list A) (t : nat) :
  py_index l (Z.of_nat t)
  = match l !! t with Some x => Ok x | None => Raise IndexError end.
Proof.
  destruct (l !! t) as [x|] eqn:Hx.
  - by apply py_index_lookup.
  - apply py_index_range. by apply lookup_ge_None.
Qed.

Lemma setitem_row_out_of_range (V : nat) (ix : Z) (v : R) :
  ~ (- Z.of_nat V <= ix < Z.of_nat V)%Z ->
  setitem_row (zeros V 1) ix v = Raise IndexError.
Proof.
  intros Hout. unfold setitem_row, zeros. rewrite length_replicate.
  destruct (ix <? 0)%Z eqn:Hneg.
  - destruct ((0 <=? Z.of_nat V + ix)%Z
              && (Z.of_nat V + ix <? Z.of_nat V)%Z)%bool eqn:Hin; [|done].
    apply andb_true_iff in Hin. lia.
  - destruct ((0 <=? ix)%Z && (ix <? Z.of_nat V)%Z)%bool eqn:Hin; [|done].
    apply andb_true_iff in Hin. lia.
Qed.

Lemma setitem_row_wrap (V : nat) (ix : Z) (v : R) :
  (- Z.of_nat V <= ix < 0)%Z ->
  setitem_row (zeros V 1) ix v
  = setitem_row (zeros V 1) (ix + Z.of_nat V) v.
Proof.
  intros Hin. unfold setitem_row, zeros. rewrite length_replicate.
  destruct (ix <? 0)%Z eqn:Hneg; [|lia].
  destruct (ix + Z.of_nat V <? 0)%Z eqn:Hneg'; [lia|].
  by replace (Z.of_nat V + ix)%Z with (ix + Z.of_nat V)%Z by lia.
Qed.

Lemma run_cells_bad_input (V : nat) (P : params) (inputs targets : list Z)
    (k : nat) (ix : Z) :
  wf_params V P ->
  inputs !! k = Some ix -> ~ (- Z.of_nat V <= ix < Z.of_nat V)%Z ->
  (forall j : nat, (j < k)%nat ->
     exists jx tx : Z, inputs !! j = Some jx /\ targets !! j = Some tx /\
                       valid_index V jx /\ valid_index V tx) ->
  forall (n s : nat) (hc : memory),
    wf_memory hc -> (s <= k < s + n)%nat ->
    run_cells V P inputs targets (seq s n) hc = Raise IndexError.
Proof.
  intros HP Hix Hout Hpre. induction n as [|n IH]; intros s hc [Hh Hc] Hs;
    [lia|].
  cbn [seq run_cells].
  destruct (decide (s = k)) as [->|Hne].
  - unfold cell. rewrite (py_index_lookup _ _ _ Hix), bind_Ok.
    by rewrite setitem_row_out_of_range.
  - destruct (Hpre s) as (jx & tx & Hjx & Htx & Vjx & Vtx); [lia|].
    rewrite (cell_ok V P inputs targets s _ _ jx tx) by done.
    rewrite bind_Ok.
    assert (0 < V)%nat as HV by (unfold valid_index in Vjx; lia).
    pose proof (tvals_of_wf V P hc.1 hc.2 jx tx HP HV Hh Hc) as Hwf.
    rewrite IH; [done | | lia].
    split; [apply (wfv_h _ _ Hwf) | apply (wfv_c _ _ Hwf)].
Qed.

Lemma forward_loop_ext (V : nat) (P : params) (i1 i2 targets : list Z)
    (ts : list nat) :
  (forall (t : nat) (st : activations * R),
     t ∈ ts ->
     forward_step V P i1 targets t st = forward_step V P i2 targets t st) ->
  forall st : activations * R,
    forward_loop V P i1 targets ts st = forward_loop V P i2 targets ts st.
Proof.
  induction ts as [|t ts IH]; intros Hstep st; [done|].
  cbn [forward_loop]. rewrite Hstep by (apply elem_of_cons; by left).
  destruct (forward_step V P i2 targets t st) as [st'|e]; [|done].
  rewrite !bind_Ok. apply IH. intros t' st'' Hin.
  apply Hstep. apply elem_of_cons. by right.
Qed.

(** X7.  An input index outside [-vocab_size, vocab_size) makes [forward]
    raise [IndexError] at its time step (the steps before it being valid);
    a negative index in [-vocab_size, 0) is accepted and gives the same run
    as the index plus vocab_size. *)
Theorem forward_input_index_bounds (V : nat) (P : params)
    (A tA B tB : list Z) (ix : Z) (m : memory) :
  (wf_params V P -> wf_memory m -> valid_chunk V A tA ->
   ~ (- Z.of_nat V <= ix < Z.of_nat V)%Z ->
   forward V P (A ++ ix :: B) (tA ++ tB) m = Raise IndexError) /\
  ((- Z.of_nat V <= ix < 0)%Z ->
   forward V P (A ++ ix :: B) tB m
   = forward V P (A ++ (ix + Z.of_nat V)%Z :: B) tB m).
Proof.
  split.
  - intros HP Hm [Hlen HA HtA] Hout. rewrite forward_cells.
    rewrite (run_cells_bad_input V P _ _ (length A) ix); try done.
    + by rewrite list_lookup_middle.
    + intros j Hj.
      assert (is_Some (A !! j)) as [jx Hjx] by (by apply lookup_lt_is_Some).
      assert (is_Some (tA !! j)) as [tx Htx]
        by (apply lookup_lt_is_Some; lia).
      exists jx, tx. rewrite !lookup_app_l by lia.
      split; [done|]. split; [done|].
      split; [exact (Forall_lookup_1 _ _ _ _ HA Hjx)
             | exact (Forall_lookup_1 _ _ _ _ HtA Htx)].
    + rewrite length_app. simpl. lia.
  - intros Hin. unfold forward.
    rewrite !length_app. cbn [length].
    rewrite (forward_loop_ext V P (A ++ ix :: B)
               (A ++ (ix + Z.of_nat V)%Z :: B)); [done|].
    intros t [a loss] _. unfold forward_step. rewrite !py_index_nat.
    destruct (decide (t = length A)) as [->|Hne].
    + rewrite !list_lookup_middle by done. rewrite !bind_Ok.
      by rewrite setitem_row_wrap.
    + assert ((A ++ ix :: B) !! t
              = (A ++ (ix + Z.of_nat V)%Z :: B) !! t) as ->; [|done].
      destruct (decide (t < length A)%nat).
      * by rewrite !lookup_app_l by lia.
      * rewrite !lookup_app_r by lia.
        by replace (t - length A)%nat with (S (t - length A - 1)) by lia.
Qed.

(** ** The backward pass (lines 174-286) *)

Lemma get_grad_gmap_all (f : ndarray -> ndarray) (n : pname) (g : gradients) :
  get_grad n (gmap_all f g) = f (get_grad n g).
Proof. by destruct n. Qed.

Lemma elem_clip (a : ndarray) (r c : nat) :
  elem (clip a) r c = (fun v => Rmin (Rmax v (-5)) 5) <$> elem a r c.
Proof. apply elem_amap. Qed.

(** X8.  Clipping does not change whether [backward] raises; with clipping
    every element of every returned gradient lies in [-5, 5], is the
    unclipped element when that lies in [-5, 5], and is the nearer bound
    otherwise. *)
Theorem backward_clipping (P : params) (g_inputs : list Z)
    (a : activations) :
  (forall e : exn,
     backward P g_inputs a false = Raise e <->
     backward P g_inputs a true = Raise e) /\
  forall g : gradients,
    backward P g_inputs a false = Ok g ->
    exists g' : gradients,
      backward P g_inputs a true = Ok g' /\
      forall (n : pname) (r c : nat),
        match elem (get_grad n g) r c with
        | Some v =>
            exists v' : R,
              elem (get_grad n g') r c = Some v' /\ -5 <= v' <= 5 /\
              (-5 <= v <= 5 -> v' = v) /\
              (v < -5 -> v' = -5) /\ (5 < v -> v' = 5)
        | None => elem (get_grad n g') r c = None
        end.
Proof.
  unfold backward.
  destruct (dict_get (hs a) 0) as [h0|e0]; [|by split].
  destruct (dict_get (cs a) 0) as [c0|e0]; [|by split].
  rewrite !bind_Ok.
  match goal with |- context [backward_loop ?P ?a ?ts ?st] =>
    destruct (backward_loop P a ts st) as [st'|e0] end; [|by split].
  rewrite !bind_Ok. split; [by split|].
  intros g Hg. inversion Hg; subst; clear Hg.
  eexists. split; [reflexivity|]. intros n r c.
  rewrite get_grad_gmap_all, elem_clip.
  destruct (elem (get_grad n (acc st')) r c) as [v|]; [|done].
  simpl. eexists. split; [reflexivity|].
  unfold Rmin, Rmax.
  repeat destruct (Rle_dec _ _); repeat split; intros; lra.
Qed.

Lemma rsum_zip_plus (u v : list R) :
  length u = length v -> rsum (zip_with Rplus u v) = rsum u + rsum v.
Proof.
  revert v. induction u as [|x u IH]; intros [|y v] Hlen; try done.
  - unfold rsum. simpl. lra.
  - unfold rsum in *. cbn [zip_with foldr].
    rewrite IH by (simpl in Hlen; lia). lra.
Qed.

Lemma rsum_zip_minus (u v : list R) :
  length u = length v -> rsum (zip_with Rminus u v) = rsum u - rsum v.
Proof.
  revert v. induction u as [|x u IH]; intros [|y v] Hlen; try done.
  - unfold rsum. simpl. lra.
  - unfold rsum in *. cbn [zip_with foldr].
    rewrite IH by (simpl in Hlen; lia). lra.
Qed.

Lemma asum_aadd (r c : nat) (a b : ndarray) :
  has_shape r c a -> has_shape r c b -> asum (aadd a b) = asum a + asum b.
Proof.
  intros [Hla Hra] [Hlb Hrb]. subst r. revert b Hlb Hrb.
  induction Hra as [|ra a Hrow Hra IH]; intros [|rb b] Hlb Hrb; try done.
  - unfold asum, rsum. simpl. lra.
  - inversion Hrb; subst. unfold aadd, azip in *. cbn [zip_with].
    rewrite !asum_cons, IH by (simpl in Hlb; try lia; done).
    rewrite rsum_zip_plus by lia. lra.
Qed.

Lemma asum_asub (r c : nat) (a b : ndarray) :
  has_shape r c a -> has_shape r c b -> asum (asub a b) = asum a - asum b.
Proof.
  intros [Hla Hra] [Hlb Hrb]. subst r. revert b Hlb Hrb.
  induction Hra as [|ra a Hrow Hra IH]; intros [|rb b] Hlb Hrb; try done.
  - unfold asum, rsum. simpl. lra.
  - inversion Hrb; subst. unfold asub, azip in *. cbn [zip_with].
    rewrite !asum_cons, IH by (simpl in Hlb; try lia; done).
    rewrite rsum_zip_minus by lia. lra.
Qed.

Lemma asum_onehot_seq (i s n : nat) :
  asum (map (fun j => [if (j =? i)%nat then 1 else 0]) (seq s n))
  = if decide (s <= i < s + n)%nat then 1 else 0.
Proof.
  revert s. induction n as [|n IH]; intros s.
  - simpl. case_decide; [lia|]. reflexivity.
  - cbn [seq map]. rewrite asum_cons, IH. unfold rsum. cbn [foldr].
    destruct (s =? i)%nat eqn:E.
    + apply Nat.eqb_eq in E. repeat case_decide; try lia. lra.
    + apply Nat.eqb_neq in E. repeat case_decide; try lia; lra.
Qed.

Lemma asum_onehot (V i : nat) : (i < V)%nat -> asum (Spec.onehot V i) = 1.
Proof.
  intros Hi. unfold Spec.onehot. rewrite asum_onehot_seq.
  by rewrite decide_True by lia.
Qed.

Lemma asum_zeros_like (a : ndarray) : asum (zeros_like a) = 0.
Proof.
  unfold zeros_like. induction a as [|row a IH]; [done|].
  cbn [map]. rewrite asum_cons, IH.
  assert (rsum (map (fun _ : R => 0) row) = 0) as ->; [|lra].
  unfold rsum. induction row as [|x row IHr]; simpl; [done|]. lra.
Qed.

Lemma bptt_run_dby_sum (V : nat) (P : params) (vs : list tvals) :
  wf_params V P -> (0 < V)%nat -> Forall (tvals_wf V) vs ->
  Forall (fun v => asum (v_p v) = asum (v_y v)) vs ->
  forall (cprev : ndarray) (st : bstate),
    has_shape hidden_size 1 cprev -> bstate_wf V st ->
    asum (dby (acc (SpecBPTT.run P cprev vs st))) = asum (dby (acc st)).
Proof.
  intros HP HV Hvs. induction Hvs as [|v vs Hv Hvs IH];
    intros Hsum cprev st Hc Hst.
  - done.
  - inversion Hsum as [|? ? Hpv Hsum']; subst.
    cbn [SpecBPTT.run SpecBPTT.step snd acc dby].
    pose proof (bptt_run_wf V P vs HP HV Hvs (v_c v) st (wfv_c _ _ Hv) Hst)
      as [[] _ _].
    rewrite (asum_aadd V 1); [|done|].
    2:{ apply has_shape_azip; [apply (wfv_p _ _ Hv) | apply (wfv_y _ _ Hv)]. }
    rewrite (asum_asub V 1), Hpv by (apply Hv).
    rewrite (IH Hsum' (v_c v) st (wfv_c _ _ Hv) Hst). lra.
Qed.

Lemma trace_probabilities (V : nat) (P : params) (inputs targets : list Z)
    (m : memory) :
  wf_params V P -> wf_memory m -> valid_chunk V inputs targets ->
  Forall (fun v => asum (v_p v) = asum (v_y v))
    (trace V P m inputs targets).
Proof.
  intros HP Hm Hch. apply Forall_lookup_2. intros t v Hv.
  assert (inputs <> []) as Hne by (intros ->; by destruct targets).
  assert (0 < V)%nat as HV by (by eapply valid_chunk_pos).
  pose proof (trace_wf V P inputs targets HP HV m Hm) as Hwf.
  destruct (trace_lookup V P inputs targets m t v Hv)
    as (ix & tx & Hix & Htx & ->).
  pose proof (prev_memory_wf V m _ t Hm Hwf) as [Hph Hpc].
  destruct Hch as [_ _ Htg].
  pose proof (Forall_lookup_1 _ _ _ _ Htg Htx) as Vtx.
  destruct (tvals_of_facts V P _ _ ix tx HP Hph Hpc Vtx) as [[Hs _] _].
  rewrite Hs. cbn [tvals_of v_y]. symmetry. apply asum_onehot.
  unfold valid_index in Vtx. lia.
Qed.

(** X9.  After [forward] on a non-empty valid chunk, [backward] on the
    record it returned (with the global [inputs] that chunk) completes; each
    gradient has the shape of its parameter, and without clipping the
    elements of [dby] sum to zero. *)
Theorem backward_after_forward (V : nat) (P : params)
    (inputs targets : list Z) (m m' : memory) (loss : R)
    (acts : activations) (clipping : bool) :
  wf_params V P -> wf_memory m -> valid_chunk V inputs targets ->
  inputs <> [] ->
  forward V P inputs targets m = Ok (loss, acts, m') ->
  exists g : gradients,
    backward P inputs acts clipping = Ok g /\
    (forall n : pname,
       shape (get_grad n g) = shape (get_param n P) /\
       has_shape (pshape V n).1 (pshape V n).2 (get_grad n g)) /\
    (clipping = false -> asum (dby g) = 0).
Proof.
  intros HP Hm Hch Hne Hf.
  assert (0 < V)%nat as HV by (by eapply valid_chunk_pos).
  rewrite (forward_trace V P inputs targets m HP Hm Hch) in Hf.
  injection Hf as _ <- _.
  rewrite (backward_record V P inputs targets inputs m clipping) by done.
  rewrite decide_True by lia.
  rewrite take_ge by (rewrite trace_length; [lia | by destruct Hch]).
  pose proof (trace_wf V P inputs targets HP HV m Hm) as Hwf.
  eexists. split; [reflexivity|]. split.
  - intros n.
    assert (has_shape (pshape V n).1 (pshape V n).2
              (get_grad n (clip_if clipping
                 (SpecBPTT.bptt P m (trace V P m inputs targets))))) as Hs.
    { apply get_grad_shape, clip_if_wf, bptt_wf; try done. }
    split; [|done].
    pose proof (get_param_shape V P n HP) as Hp.
    assert (0 < (pshape V n).1)%nat as Hpos.
    { pose proof hidden_size_pos. pose proof emb_size_pos.
      by destruct n. }
    by rewrite (shape_has_shape _ _ _ Hs Hpos),
         (shape_has_shape _ _ _ Hp Hpos).
  - intros ->. cbn [clip_if]. unfold SpecBPTT.bptt.
    rewrite (bptt_run_dby_sum V P); try done.
    + cbn [SpecBPTT.init acc zero_gradients dby]. apply asum_zeros_like.
    + by apply trace_probabilities.
    + apply Hm.
    + by apply bptt_init_wf.
Qed.

Lemma backward_after_forward_witness :
  exists g : gradients,
    backward ex_P ex_inputs ex_acts false = Ok g /\
    (forall n : pname,
       shape (get_grad n g) = shape (get_param n ex_P) /\
       has_shape (pshape 2 n).1 (pshape 2 n).2 (get_grad n g)) /\
    (false = false -> asum (dby g) = 0).
Proof.
  apply (backward_after_forward 2 ex_P ex_inputs ex_targets zero_memory
           (last_memory zero_memory ex_trace) (total_loss 0 ex_trace)).
  - apply wf_zero_params.
  - apply wf_zero_memory.
  - apply ex_chunk_valid.
  - discriminate.
  - apply forward_trace;
      [apply wf_zero_params | apply wf_zero_memory | apply ex_chunk_valid].
Defined.

(** ** The initial smoothed loss (line 368) and an output layer of zeros *)

Lemma asum_replicate_col (n : nat) (x : R) :
  asum (replicate n [x]) = INR n * x.
Proof.
  induction n as [|n IH]; [unfold asum, rsum; simpl; lra|].
  cbn [replicate]. rewrite asum_cons, IH, S_INR. unfold rsum. simpl. lra.
Qed.

Lemma amap_replicate_col (f : R -> R) (n : nat) (x : R) :
  amap f (replicate n [x]) = replicate n [f x].
Proof.
  unfold amap. induction n as [|n IH]; [done|].
  cbn [replicate map]. by rewrite IH.
Qed.

Lemma uniform_entry (V : nat) (tx : Z) :
  valid_index V tx ->
  Spec.entry (Spec.softmax (aadd (zeros V 1) (zeros V 1))) tx = 1 / INR V.
Proof.
  intros [H0 Hlt]. unfold aadd, azip, zeros. cbn [replicate].
  rewrite zip_with_replicate. cbn [zip_with].
  unfold Spec.softmax. rewrite !amap_replicate_col, asum_replicate_col.
  unfold Spec.entry. rewrite lookup_replicate_2 by lia.
  assert (0 < INR V) as HV by (apply lt_0_INR; lia).
  pose proof (exp_pos (0 + 0)). field. split; lra.
Qed.

Lemma total_loss_constant (L : R) (vs : list tvals) :
  Forall (fun v => v_loss v = L) vs ->
  forall l : R, total_loss l vs = l + INR (length vs) * L.
Proof.
  induction 1 as [|v vs Hv Hvs IH]; intros l.
  - unfold total_loss. simpl. lra.
  - unfold total_loss in *. cbn [foldl length]. rewrite IH, Hv, S_INR. lra.
Qed.

(** X10.  When the output layer is zero ([Why] and [by] all zeros) every
    prediction is uniform, and the loss [forward] returns on a valid chunk is
    [-ln(1/vocab_size)] times the number of time steps: for a chunk of
    [seq_length] steps it is the value the training mode gives [smooth_loss]
    at startup. *)
Theorem zero_output_layer_loss (V : nat) (P : params)
    (inputs targets : list Z) (m : memory) :
  wf_params V P -> wf_memory m -> valid_chunk V inputs targets ->
  Why P = zeros V hidden_size -> by_ P = zeros V 1 ->
  exists (acts : activations) (m' : memory),
    forward V P inputs targets m
    = Ok (- ln (1 / INR V) * INR (length inputs), acts, m') /\
    (length inputs = seq_length ->
     forward V P inputs targets m
     = Ok (t_smooth_loss (initial_state V P), acts, m')).
Proof.
  intros HP Hm Hch HWhy Hby. eexists _, _.
  assert (forward V P inputs targets m
          = Ok (- ln (1 / INR V) * INR (length inputs),
                record_all (init_activations m) 0
                  (trace V P m inputs targets),
                last_memory m (trace V P m inputs targets))) as Hf.
  { rewrite (forward_trace V P inputs targets m HP Hm Hch).
    do 3 f_equal.
    rewrite (total_loss_constant (- ln (1 / INR V))).
    - rewrite trace_length by (by destruct Hch). lra.
    - apply Forall_lookup_2. intros t v Hv.
      assert (inputs <> []) as Hne by (intros ->; by destruct targets).
      assert (0 < V)%nat as HV by (by eapply valid_chunk_pos).
      pose proof (trace_wf V P inputs targets HP HV m Hm) as Hwf.
      destruct (trace_lookup V P inputs targets m t v Hv)
        as (ix & tx & Hix & Htx & ->).
      pose proof (prev_memory_wf V m _ t Hm Hwf) as [Hph Hpc].
      destruct Hch as [_ _ Htg].
      pose proof (Forall_lookup_1 _ _ _ _ Htg Htx) as Vtx.
      pose proof (tvals_of_wf V P _ _ ix tx HP HV Hph Hpc) as Hwv.
      pose proof (wfv_h _ _ Hwv) as Hh'.
      cbn [tvals_of v_loss v_h] in *. rewrite HWhy, Hby.
      rewrite (dot_zeros_col V hidden_size _ Hh' hidden_size_pos).
      by rewrite uniform_entry. }
  split; [exact Hf|].
  intros Hlen. rewrite Hf. cbn [initial_state t_smooth_loss].
  by rewrite Hlen.
Qed.

Lemma zero_output_layer_loss_witness :
  exists (acts : activations) (m' : memory),
    forward 2 ex_P (replicate seq_length 0%Z) (replicate seq_length 1%Z)
      zero_memory
    = Ok (- ln (1 / INR 2) * INR (length (replicate seq_length 0%Z)),
          acts, m') /\
    (length (replicate seq_length 0%Z) = seq_length ->
     forward 2 ex_P (replicate seq_length 0%Z) (replicate seq_length 1%Z)
       zero_memory
     = Ok (t_smooth_loss (initial_state 2 ex_P), acts, m')).
Proof.
  apply (zero_output_layer_loss 2 ex_P (replicate seq_length 0%Z)
           (replicate seq_length 1%Z) zero_memory).
  - apply wf_zero_params.
  - apply wf_zero_memory.
  - constructor; [by rewrite !length_replicate | |];
      apply Forall_replicate; unfold valid_index; lia.
  - reflexivity.
  - reflexivity.
Defined.

(** ** The training loop (lines 370-405) *)

Lemma max_updates_pos : (0 < max_updates)%nat.
Proof. apply Nat.ltb_lt. vm_compute. reflexivity. Qed.

Lemma seq_length_pos : (0 < seq_length)%nat.
Proof. unfold seq_length. lia. Qed.

Lemma train_iteration_counters (V : nat) (c2i : gmap ascii Z)
    (data : list ascii) (st st' : train_state) :
  train_iteration V c2i data st = Ok st' ->
  t_n_updates st' = (t_n_updates st + 1)%nat /\
  t_n st' = (t_n st + 1)%nat /\
  t_p st' = (chunk_start data st + seq_length)%nat.
Proof.
  intros H. apply train_iteration_inv in H
    as (inputs & targets & m & m' & loss & acts & g & _ & _ & _ & _ & _ & ->).
  done.
Qed.

Lemma train_loop_iterations (V : nat) (c2i : gmap ascii Z)
    (data : list ascii) (fuel : nat) :
  forall st : train_state,
    (t_n_updates st < max_updates)%nat ->
    (max_updates <= t_n_updates st + fuel + 1)%nat ->
    train_loop fuel V c2i data st
    = iterations (max_updates - t_n_updates st) V c2i data st.
Proof.
  induction fuel as [|fuel IH]; intros st Hlt Hfuel.
  - replace (max_updates - t_n_updates st)%nat with 1%nat by lia.
    cbn [train_loop iterations].
    destruct (train_iteration V c2i data st) as [st'|e] eqn:Hit; [|done].
    rewrite !bind_Ok. by destruct (max_updates <=? t_n_updates st')%nat.
  - destruct (max_updates - t_n_updates st)%nat as [|k] eqn:Hk; [lia|].
    cbn [train_loop iterations].
    destruct (train_iteration V c2i data st) as [st'|e] eqn:Hit; [|done].
    rewrite !bind_Ok.
    apply train_iteration_counters in Hit as (Hu & _ & _).
    destruct (max_updates <=? t_n_updates st')%nat eqn:Hle.
    + apply Nat.leb_le in Hle. by replace k with O by lia.
    + apply Nat.leb_gt in Hle. rewrite IH by lia. f_equal. lia.
Qed.

Lemma iterations_counters (V : nat) (c2i : gmap ascii Z) (data : list ascii)
    (k : nat) :
  forall st st' : train_state,
    iterations k V c2i data st = Ok st' ->
    t_n_updates st' = (t_n_updates st + k)%nat /\
    t_n st' = (t_n st + k)%nat.
Proof.
  induction k as [|k IH]; intros st st' H; cbn [iterations] in H.
  - inversion H; subst. lia.
  - destruct (train_iteration V c2i data st) as [st1|e] eqn:Hit; [|done].
    rewrite bind_Ok in H. apply IH in H as [H1 H2].
    apply train_iteration_counters in Hit as (Hu & Hn & _). lia.
Qed.

Lemma train_unfold_iterations (V : nat) (c2i : gmap ascii Z)
    (data : list ascii) (P : params) :
  train V c2i data P
  = (st ← train_init V P; iterations max_updates V c2i data st).
Proof.
  unfold train, train_init. destruct (V =? 0)%nat; [done|].
  rewrite !bind_Ok. pose proof max_updates_pos.
  rewrite train_loop_iterations by (cbn [initial_state t_n_updates]; lia).
  cbn [initial_state t_n_updates]. by rewrite Nat.sub_0_r.
Qed.

(** X11.  The training loop performs exactly [max_updates] iterations of
    its body, one after the other, unless one of them raises; when it
    returns, [n_updates] and [n] both equal [max_updates]. *)
Theorem train_runs_max_updates_iterations (V : nat) (c2i : gmap ascii Z)
    (data : list ascii) (P : params) :
  train V c2i data P
  = (st ← train_init V P; iterations max_updates V c2i data st) /\
  forall st : train_state,
    train V c2i data P = Ok st ->
    t_n_updates st = max_updates /\ t_n st = max_updates.
Proof.
  pose proof (train_unfold_iterations V c2i data P) as Heq.
  split; [exact Heq|]. intros st Hst. rewrite Heq in Hst.
  unfold train_init in Hst. destruct (V =? 0)%nat; [done|].
  rewrite bind_Ok in Hst. by apply iterations_counters in Hst as [-> ->].
Qed.

Lemma chunk_start_bound (data : list ascii) (st : train_state) :
  (seq_length + 1 <= length data)%nat ->
  (chunk_start data st + seq_length + 1 <= length data)%nat.
Proof.
  intros Hlen. unfold chunk_start.
  destruct (must_reset data st) eqn:Hr; [lia|].
  unfold must_reset in Hr. apply orb_false_iff in Hr as [Hr _].
  apply Nat.leb_gt in Hr. lia.
Qed.

Lemma train_iteration_keeps_inv (data : list ascii) (st : train_state) :
  (seq_length + 1 <= length data)%nat ->
  train_inv (vocab_size_of data) data st ->
  exists st' : train_state,
    train_iteration (vocab_size_of data) (char_to_ix data) data st = Ok st' /\
    train_inv (vocab_size_of data) data st' /\
    t_n st' = (t_n st + 1)%nat.
Proof.
  intros Hlen (Hwf & Hcnt & [j Hj] & Hmem).
  pose proof (chunk_start_bound data st Hlen) as Hp0.
  pose proof seq_length_pos as HL.
  set (p0 := chunk_start data st) in *.
  destruct (encode_total data (slice data p0 (p0 + seq_length)))
    as [inputs Hi]; [apply slice_subseteq|].
  destruct (encode_total data (slice data (p0 + 1) (p0 + seq_length + 1)))
    as [targets Ht]; [apply slice_subseteq|].
  pose proof (encode_length _ _ _ Hi) as Hli.
  pose proof (encode_length _ _ _ Ht) as Hlt.
  unfold slice in Hli, Hlt. rewrite length_take, length_drop in Hli, Hlt.
  assert (valid_chunk (vocab_size_of data) inputs targets) as Hch.
  { constructor; [lia | |];
      eapply encode_valid; try apply char_to_ix_valid; done. }
  assert (inputs <> []) as Hne by (intros ->; simpl in Hli; lia).
  assert (exists m : memory, chunk_memory data st = Some m /\ wf_memory m)
    as (m & Hm & Hwm).
  { unfold chunk_memory. destruct (must_reset data st) eqn:Hr.
    - exists zero_memory. split; [done | apply wf_zero_memory].
    - unfold must_reset in Hr. apply orb_false_iff in Hr as [_ Hn].
      apply Nat.eqb_neq in Hn.
      destruct Hmem as [?|[[m Hm] _]]; [lia|].
      exists m. split; [done|]. destruct Hwf as (_ & _ & Hw). by apply Hw. }
  destruct (train_iteration_progress (vocab_size_of data) (char_to_ix data)
              data st inputs targets m) as [st' Hit]; try done.
  { apply Hwf. }
  exists st'. split; [done|].
  pose proof (train_iteration_counters _ _ _ _ _ Hit) as (Hu & Hn & Hp).
  destruct (train_iteration_facts (vocab_size_of data) (char_to_ix data)
              data st st' (char_to_ix_valid data) Hwf Hit)
    as (i' & t' & m1 & m1' & loss & acts & g & _ & _ & _ & Hst' & _ & _ & _
        & _ & Hwf').
  split; [|done].
  split; [done|]. split; [lia|]. split.
  - assert (exists j0 : nat, p0 = (j0 * seq_length)%nat) as [j0 Hj0].
    { subst p0. unfold chunk_start. destruct (must_reset data st).
      - by exists O.
      - by exists j. }
    exists (S j0). fold p0 in Hp. lia.
  - right. fold p0 in Hp. split; [|lia].
    rewrite Hst'. by eexists.
Qed.

Lemma iterations_keep_inv (data : list ascii) (k : nat) :
  (seq_length + 1 <= length data)%nat ->
  forall st : train_state,
    train_inv (vocab_size_of data) data st ->
    exists st' : train_state,
      iterations k (vocab_size_of data) (char_to_ix data) data st = Ok st' /\
      train_inv (vocab_size_of data) data st' /\
      t_n st' = (t_n st + k)%nat.
Proof.
  intros Hlen. induction k as [|k IH]; intros st Hinv.
  - exists st. split; [done|]. split; [done | lia].
  - destruct (train_iteration_keeps_inv data st Hlen Hinv)
      as (st1 & Hit & Hinv1 & Hn1).
    destruct (IH st1 Hinv1) as (st' & Hk & Hinv' & Hn').
    exists st'. cbn [iterations]. rewrite Hit, bind_Ok.
    split; [done|]. split; [done | lia].
Qed.

(** X12.  On a corpus of at least [seq_length + 1] characters, with
    parameters of the program's shapes, no iteration of the training loop
    raises: the run ends after [max_updates] updates, with parameters,
    accumulators and recurrent state of the shapes they started with and the
    cursor a positive multiple of [seq_length] inside the corpus. *)
Theorem train_completes (data : list ascii) (P : params) :
  (seq_length + 1 <= length data)%nat ->
  wf_params (vocab_size_of data) P ->
  exists st : train_state,
    train (vocab_size_of data) (char_to_ix data) data P = Ok st /\
    t_n_updates st = max_updates /\
    train_wf (vocab_size_of data) st /\
    is_Some (t_memory st) /\
    (exists j : nat, (0 < j)%nat /\ t_p st = (j * seq_length)%nat) /\
    (t_p st < length data)%nat.
Proof.
  intros Hlen HP.
  assert (0 < vocab_size_of data)%nat as HV.
  { apply vocab_size_pos. intros ->. simpl in Hlen. lia. }
  assert (train_inv (vocab_size_of data) data
            (initial_state (vocab_size_of data) P)) as Hinv.
  { split; [|split; [done|split; [by exists O | by left]]].
    split; [done|]. split; [apply zero_momentum_wf; done | done]. }
  destruct (iterations_keep_inv data max_updates Hlen _ Hinv)
    as (st & Hit & (Hwf & Hcnt & [j Hj] & Hmem) & Hn).
  exists st. pose proof max_updates_pos as Hmax.
  cbn [initial_state t_n] in Hn.
  destruct Hmem as [?|(Hm & Hge & Hlt)]; [lia|].
  split.
  - rewrite train_unfold_iterations. unfold train_init.
    destruct (vocab_size_of data =? 0)%nat eqn:E;
      [apply Nat.eqb_eq in E; lia|].
    by rewrite bind_Ok.
  - split; [lia|]. split; [done|]. split; [done|]. split; [|done].
    exists j. split; [|done]. pose proof seq_length_pos.
    destruct j; [simpl in Hj; lia | lia].
Qed.

Lemma train_completes_witness :
  exists st : train_state,
    train (vocab_size_of ex_data) (char_to_ix ex_data) ex_data
      (zero_params (vocab_size_of ex_data)) = Ok st /\
    t_n_updates st = max_updates /\
    train_wf (vocab_size_of ex_data) st /\
    is_Some (t_memory st) /\
    (exists j : nat, (0 < j)%nat /\ t_p st = (j * seq_length)%nat) /\
    (t_p st < length ex_data)%nat.
Proof.
  apply (train_completes ex_data (zero_params (vocab_size_of ex_data))).
  - vm_compute. lia.
  - apply wf_zero_params.
Defined.

Lemma encode_lookup (c2i : gmap ascii Z) (s : list ascii) (l : list Z) :
  encode c2i s = Ok l ->
  forall (t : nat) (ix : Z),
    l !! t = Some ix ->
    exists ch : ascii, s !! t = Some ch /\ c2i !! ch = Some ix.
Proof.
  revert l. induction s as [|ch s IH]; intros l H t ix Hl; cbn [encode] in H.
  - inversion H; subst. done.
  - destruct (c2i !! ch) as [i|] eqn:Hi; [|done].
    destruct (encode c2i s) as [l'|e]; [|done].
    rewrite bind_Ok in H. inversion H; subst.
    destruct t as [|t].
    + simpl in Hl. inversion Hl; subst. by exists ch.
    + simpl in Hl. by apply (IH l' eq_refl).
Qed.

Lemma slice_lookup {A : Type} (l : list A) (i j t : nat) (x : A) :
  slice l i j !! t = Some x -> l !! (i + t)%nat = Some x.
Proof.
  unfold slice. intros H. apply lookup_take_Some in H as [H _].
  by rewrite lookup_drop in H.
Qed.

(** X13.  In every completed iteration the chunk is a window of the corpus:
    [inputs[t]] is the index of the character at the cursor plus [t],
    [targets[t]] the index of the character one position later, so the
    targets are the inputs shifted by one; both have the same length. *)
Theorem chunk_is_corpus_window (V : nat) (c2i : gmap ascii Z)
    (data : list ascii) (st st' : train_state) :
  train_iteration V c2i data st = Ok st' ->
  length (t_inputs st') = length (t_targets st') /\
  (forall (t : nat) (ix : Z),
     t_inputs st' !! t = Some ix ->
     exists ch : ascii,
       data !! (chunk_start data st + t)%nat = Some ch /\
       c2i !! ch = Some ix) /\
  (forall (t : nat) (tx : Z),
     t_targets st' !! t = Some tx ->
     exists ch : ascii,
       data !! (chunk_start data st + 1 + t)%nat = Some ch /\
       c2i !! ch = Some tx) /\
  (forall (t : nat) (ix : Z),
     t_inputs st' !! S t = Some ix -> t_targets st' !! t = Some ix).
Proof.
  intros H. apply train_iteration_inv in H
    as (inputs & targets & m & m' & loss & acts & g
        & Hi & Ht & _ & Hf & _ & ->).
  cbn [next_state t_inputs t_targets].
  pose proof (encode_length _ _ _ Hi) as Hli.
  pose proof (encode_length _ _ _ Ht) as Hlt.
  pose proof (slice_lengths data (chunk_start data st)) as Hsl.
  pose proof (forward_Ok_lengths _ _ _ _ _ _ Hf) as Hfl.
  assert (length inputs = length targets) as Hlen by lia.
  split; [done|].
  assert (forall (t : nat) (ix : Z),
            inputs !! t = Some ix ->
            exists ch : ascii,
              data !! (chunk_start data st + t)%nat = Some ch /\
              c2i !! ch = Some ix) as Hin.
  { intros t ix Hix.
    destruct (encode_lookup _ _ _ Hi t ix Hix) as (ch & Hch & Hc).
    exists ch. split; [|done]. by apply slice_lookup in Hch. }
  assert (forall (t : nat) (tx : Z),
            targets !! t = Some tx ->
            exists ch : ascii,
              data !! (chunk_start data st + 1 + t)%nat = Some ch /\
              c2i !! ch = Some tx) as Htg.
  { intros t tx Htx.
    destruct (encode_lookup _ _ _ Ht t tx Htx) as (ch & Hch & Hc).
    exists ch. split; [|done]. by apply slice_lookup in Hch. }
  split; [done|]. split; [done|].
  intros t ix Hix.
  assert (is_Some (targets !! t)) as [tx Htx].
  { apply lookup_lt_is_Some. apply lookup_lt_Some in Hix. lia. }
  destruct (Hin _ _ Hix) as (ch & Hch & Hc).
  destruct (Htg _ _ Htx) as (ch' & Hch' & Hc').
  replace (chunk_start data st + 1 + t)%nat
    with (chunk_start data st + S t)%nat in Hch' by lia.
  congruence.
Qed.

Lemma chunk_is_corpus_window_witness :
  length (t_inputs ex_st1) = length (t_targets ex_st1) /\
  (forall (t : nat) (ix : Z),
     t_inputs ex_st1 !! t = Some ix ->
     exists ch : ascii,
       ex_data !! (chunk_start ex_data ex_st0 + t)%nat = Some ch /\
       char_to_ix ex_data !! ch = Some ix) /\
  (forall (t : nat) (tx : Z),
     t_targets ex_st1 !! t = Some tx ->
     exists ch : ascii,
       ex_data !! (chunk_start ex_data ex_st0 + 1 + t)%nat = Some ch /\
       char_to_ix ex_data !! ch = Some tx) /\
  (forall (t : nat) (ix : Z),
     t_inputs ex_st1 !! S t = Some ix -> t_targets ex_st1 !! t = Some ix).
Proof.
  apply (chunk_is_corpus_window (vocab_size_of ex_data) (char_to_ix ex_data)
           ex_data ex_st0 ex_st1).
  apply ex_iteration_1.
Defined.

(** ** The Adagrad update (lines 395-399) *)

Lemma elem_zeros_like (a : ndarray) (r c : nat) (v : R) :
  elem (zeros_like a) r c = Some v -> v = 0.
Proof.
  intros H. change (zeros_like a) with (amap (fun _ => 0) a) in H.
  rewrite elem_amap in H. destruct (elem a r c); [|done].
  simpl in H. by inversion H.
Qed.

Lemma zero_momentum_nonneg (P : params) : mom_nonneg (zero_momentum P).
Proof.
  intros n r c mv H.
  assert (mv = 0) as ->; [|lra].
  destruct n; by apply elem_zeros_like in H.
Qed.

Lemma adagrad_momentum_nonneg (g : gradients) (M : momentum) :
  mom_nonneg M -> mom_nonneg (adagrad_momentum g M).
Proof.
  intros HM n r c mv H. rewrite get_mom_adagrad in H.
  unfold adagrad_mem, aadd, amul in H. rewrite !elem_azip in H.
  destruct (elem (get_mom n M) r c) as [m0|] eqn:Hm; [|done].
  destruct (elem (get_grad n g) r c) as [gv|]; [|done].
  inversion H; subst. apply HM in Hm. nra.
Qed.

Lemma iterations_mom_nonneg (V : nat) (c2i : gmap ascii Z)
    (data : list ascii) (k : nat) :
  forall st st' : train_state,
    mom_nonneg (t_momentum st) -> iterations k V c2i data st = Ok st' ->
    mom_nonneg (t_momentum st').
Proof.
  induction k as [|k IH]; intros st st' HM H; cbn [iterations] in H.
  - by inversion H; subst.
  - destruct (train_iteration V c2i data st) as [st1|e] eqn:Hit; [|done].
    rewrite bind_Ok in H. apply (IH st1 st'); [|done].
    apply train_iteration_inv in Hit
      as (inputs & targets & m & m' & loss & acts & g & _ & _ & _ & _ & _
          & ->).
    cbn [next_state t_momentum]. by apply adagrad_momentum_nonneg.
Qed.

Lemma adagrad_ratio_bound (gv mv : R) :
  0 <= mv ->
  Rabs (learning_rate * gv / sqrt (mv + gv * gv + 1 / 100000000))
  < learning_rate.
Proof.
  intros Hmv. set (s := sqrt (mv + gv * gv + 1 / 100000000)).
  assert (Rabs gv < s) as Hs.
  { rewrite <- sqrt_Rsqr_abs. apply sqrt_lt_1_alt. unfold Rsqr. nra. }
  pose proof (Rabs_pos gv) as Hpos.
  assert (0 < / s) as Hinv by (apply Rinv_0_lt_compat; lra).
  assert (Rabs gv * / s < 1) as Hq.
  { apply (Rmult_lt_reg_r s); [lra|].
    rewrite Rmult_assoc, Rinv_l by lra. lra. }
  unfold Rdiv. rewrite Rmult_assoc, Rabs_mult, (Rabs_mult gv).
  rewrite (Rabs_pos_eq (/ s)) by lra.
  unfold learning_rate. rewrite Rabs_pos_eq by lra. nra.
Qed.

(** X14.  In the training run no Adagrad accumulator element is ever
    negative, and an update moves every parameter element by less than
    [learning_rate]. *)
Theorem adagrad_step_bounded (data : list ascii) (P : params) (k : nat)
    (st st' : train_state) :
  wf_params (vocab_size_of data) P ->
  iterations k (vocab_size_of data) (char_to_ix data) data
    (initial_state (vocab_size_of data) P) = Ok st ->
  train_iteration (vocab_size_of data) (char_to_ix data) data st = Ok st' ->
  mom_nonneg (t_momentum st) /\ mom_nonneg (t_momentum st') /\
  forall (n : pname) (r c : nat) (p : R),
    elem (get_param n (t_params st)) r c = Some p ->
    exists p' : R,
      elem (get_param n (t_params st')) r c = Some p' /\
      Rabs (p' - p) < learning_rate.
Proof.
  intros HP Hk Hit.
  assert (train_wf (vocab_size_of data)
            (initial_state (vocab_size_of data) P)) as Hwf0.
  { split; [done|]. split; [by apply zero_momentum_wf | done]. }
  pose proof (iterations_wf _ _ _ k (char_to_ix_valid data) _ _ Hwf0 Hk)
    as Hwf.
  assert (mom_nonneg (t_momentum st)) as HM.
  { eapply iterations_mom_nonneg; [|exact Hk]. apply zero_momentum_nonneg. }
  destruct (train_iteration_facts _ _ _ _ _ (char_to_ix_valid data) Hwf Hit)
    as (inputs & targets & m & m' & loss & acts & g & _ & _ & _ & -> & _ & _
        & _ & Hg & _).
  cbn [next_state t_momentum t_params].
  split; [done|]. split; [by apply adagrad_momentum_nonneg|].
  intros n r c p Hp.
  destruct Hwf as (HPs & HMs & _).
  pose proof (get_param_shape _ _ n HPs) as Hsp.
  pose proof (get_grad_shape _ _ n Hg) as Hsg.
  pose proof (HMs n) as Hsm.
  assert (is_Some (elem (get_param n (t_params st)) r c)) as Hin by eauto.
  apply (elem_has_shape _ _ _ _ _ Hsp) in Hin.
  apply (elem_has_shape _ _ _ _ _ Hsg) in Hin as Hing.
  apply (elem_has_shape _ _ _ _ _ Hsm) in Hin as Hinm.
  destruct Hing as [gv Hgv]. destruct Hinm as [mv Hmv].
  destruct (adagrad_elem _ _ _ r c p gv mv Hp Hgv Hmv) as [_ Hnew].
  rewrite get_param_adagrad, get_mom_adagrad.
  eexists. split; [exact Hnew|].
  replace (p - learning_rate * gv / sqrt (mv + gv * gv + 1 / 100000000) - p)
    with (- (learning_rate * gv / sqrt (mv + gv * gv + 1 / 100000000)))
    by lra.
  rewrite Rabs_Ropp. apply adagrad_ratio_bound. by apply (HM n r c).
Qed.

Lemma adagrad_step_bounded_witness :
  mom_nonneg (t_momentum ex_st0) /\ mom_nonneg (t_momentum ex_st1) /\
  forall (n : pname) (r c : nat) (p : R),
    elem (get_param n (t_params ex_st0)) r c = Some p ->
    exists p' : R,
      elem (get_param n (t_params ex_st1)) r c = Some p' /\
      Rabs (p' - p) < learning_rate.
Proof.
  apply (adagrad_step_bounded ex_data (zero_params (vocab_size_of ex_data))
           0 ex_st0 ex_st1).
  - apply wf_zero_params.
  - reflexivity.
  - apply ex_iteration_1.
Defined.

(** ** The gradient check (lines 407-449) *)

Lemma get_set_param (n : pname) (v : ndarray) (P : params) :
  get_param n (set_param n v P) = v.
Proof. by destruct n. Qed.

Lemma set_set_param (n : pname) (v v' : ndarray) (P : params) :
  set_param n v (set_param n v' P) = set_param n v P.
Proof. by destruct n. Qed.

Lemma set_get_param (n : pname) (P : params) :
  set_param n (get_param n P) P = P.
Proof. by destruct n, P. Qed.

Lemma row_set_twice (a : ndarray) (i : nat) (x y : R) :
  row_set (row_set a i x) i y = row_set a i y.
Proof.
  revert i. induction a as [|r a IH]; intros i; [done|].
  cbn [row_set]. destruct (i <? length r)%nat eqn:E; cbn [row_set].
  - by rewrite length_insert, E, list_insert_insert_eq.
  - by rewrite E, IH.
Qed.

Lemma row_set_same (a : ndarray) (i : nat) (w : R) :
  flat a !! i = Some w -> row_set a i w = a.
Proof.
  revert i. induction a as [|r a IH]; intros i H; [done|].
  unfold flat in H. cbn [concat] in H. cbn [row_set].
  destruct (i <? length r)%nat eqn:E.
  - apply Nat.ltb_lt in E. rewrite lookup_app_l in H by done.
    by rewrite list_insert_id.
  - apply Nat.ltb_ge in E. rewrite lookup_app_r in H by done.
    by rewrite IH.
Qed.

Lemma size_of_row_set (a : ndarray) (i : nat) (x : R) :
  size_of (row_set a i x) = size_of a.
Proof.
  unfold size_of, flat. revert i. induction a as [|r a IH]; intros i; [done|].
  cbn [row_set]. destruct (i <? length r)%nat; cbn [concat];
    rewrite !length_app; [by rewrite length_insert|].
  by rewrite IH.
Qed.

Lemma has_shape_row_set (r c : nat) (a : ndarray) (i : nat) (x : R) :
  has_shape r c a -> has_shape r c (row_set a i x).
Proof.
  intros [Hl Hr]. subst r. revert i.
  induction Hr as [|row a Hrow Hr IH]; intros i; [done|].
  cbn [row_set]. destruct (i <? length row)%nat.
  - split; [done|]. constructor; [by rewrite length_insert | done].
  - destruct (IH (i - length row)%nat) as [Hl' Hr'].
    split; [simpl; by rewrite Hl' | by constructor].
Qed.

Lemma size_of_has_shape (r c : nat) (a : ndarray) :
  has_shape r c a -> size_of a = (r * c)%nat.
Proof.
  intros [Hl Hr]. subst r. unfold size_of, flat.
  induction Hr as [|row a Hrow Hr IH]; [done|].
  cbn [concat length]. rewrite length_app, IH. lia.
Qed.

Lemma flat_set_inv (a b : ndarray) (i : nat) (v : R) :
  flat_set a i v = Ok b -> b = row_set a i v.
Proof.
  unfold flat_set. destruct (i <? size_of a)%nat; [|done].
  by inversion 1.
Qed.

Lemma flat_set_ok (a : ndarray) (i : nat) (v : R) :
  (i < size_of a)%nat -> flat_set a i v = Ok (row_set a i v).
Proof.
  intros H. unfold flat_set. apply Nat.ltb_lt in H. by rewrite H.
Qed.

Lemma flat_get_ok (a : ndarray) (i : nat) :
  (i < size_of a)%nat -> exists w : R, flat_get a i = Ok w.
Proof.
  intros H. unfold flat_get.
  destruct (lookup_lt_is_Some_2 (flat a) i H) as [w Hw].
  exists w. by rewrite Hw.
Qed.

Lemma forward_call_inv (V : nat) (inputs targets : list Z) (m : memory)
    (P : params) (r : R * activations * memory) (P' : params) :
  forward_call V inputs targets m P = Ok (r, P') -> P' = P.
Proof.
  unfold forward_call. destruct (forward V P inputs targets m); [|done].
  rewrite bind_Ok. by inversion 1.
Qed.

Lemma perturbed_thrice (n : pname) (P : params) (i : nat) (w x y : R) :
  flat (get_param n P) !! i = Some w ->
  set_param n (row_set (row_set (row_set (get_param n P) i x) i y) i w)
    (set_param n (row_set (row_set (get_param n P) i x) i y)
       (set_param n (row_set (get_param n P) i x) P))
  = P.
Proof.
  intros Hw. rewrite !set_set_param, !row_set_twice.
  by rewrite (row_set_same _ _ _ Hw), set_get_param.
Qed.

Lemma check_element_restores (V : nat) (inputs targets : list Z) (m : memory)
    (n : pname) (grad : ndarray) (i : nat) (P P' : params)
    (out : list event) :
  check_element V inputs targets m n grad i P = Ok (out, P') -> P' = P.
Proof.
  unfold check_element. intros H.
  destruct (flat_get (get_param n P) i) as [w|] eqn:Hw; [|done].
  rewrite bind_Ok in H.
  destruct (flat_set (get_param n P) i (w + delta)) as [wp|] eqn:Hwp; [|done].
  rewrite bind_Ok in H. apply flat_set_inv in Hwp. subst wp.
  destruct (forward_call V inputs targets m
              (set_param n (row_set (get_param n P) i (w + delta)) P))
    as [[[[lp ap] mp] P1]|] eqn:Hf1; [|done].
  rewrite bind_Ok in H. apply forward_call_inv in Hf1. subst P1.
  rewrite get_set_param in H.
  destruct (flat_set (row_set (get_param n P) i (w + delta)) i (w - delta))
    as [wn|] eqn:Hwn; [|done].
  rewrite bind_Ok in H. apply flat_set_inv in Hwn. subst wn.
  match type of H with context [forward_call V inputs targets m ?Q] =>
    destruct (forward_call V inputs targets m Q)
      as [[[[ln an] mn] P2]|] eqn:Hf2; [|done] end.
  rewrite bind_Ok in H. apply forward_call_inv in Hf2. subst P2.
  rewrite get_set_param in H.
  match type of H with context [flat_set ?a i w] =>
    destruct (flat_set a i w) as [w0|] eqn:Hw0; [|done] end.
  rewrite bind_Ok in H. apply flat_set_inv in Hw0. subst w0.
  destruct (flat_get grad i) as [ga|]; [|done].
  rewrite bind_Ok in H. inversion H; subst.
  apply perturbed_thrice. unfold flat_get in Hw.
  by destruct (flat (get_param n P) !! i); inversion Hw.
Qed.

Lemma check_elements_restores (V : nat) (inputs targets : list Z)
    (m : memory) (n : pname) (grad : ndarray) (idx : list nat) :
  forall (P P' : params) (out : list event),
    check_elements V inputs targets m n grad idx P = (out, Ok P') -> P' = P.
Proof.
  induction idx as [|i idx IH]; intros P P' out H; cbn [check_elements] in H.
  - by inversion H.
  - destruct (check_element V inputs targets m n grad i P)
      as [[o1 P1]|e] eqn:E; [|done].
    apply check_element_restores in E. subst P1.
    destruct (check_elements V inputs targets m n grad idx P)
      as [o2 r2] eqn:E2.
    inversion H; subst. by apply (IH P P' o2).
Qed.

Lemma check_pairs_restores (V : nat) (inputs targets : list Z) (m : memory)
    (triples : list (pname * ndarray * string)) :
  forall (P P' : params) (out : list event),
    check_pairs V inputs targets m triples P = (out, Ok P') -> P' = P.
Proof.
  induction triples as [|[[n grad] name] rest IH]; intros P P' out H;
    cbn [check_pairs] in H.
  - by inversion H.
  - destruct (shape_eqb (shape (get_param n P)) (shape grad)); [|done].
    destruct (check_elements V inputs targets m n grad
                (seq 0 (size_of (get_param n P))) P) as [o1 [P1|e]] eqn:E;
      [|done].
    apply check_elements_restores in E. subst P1.
    destruct (check_pairs V inputs targets m rest P) as [o2 r2] eqn:E2.
    inversion H; subst. by apply (IH P P' o2).
Qed.

(** X15.  Whenever the gradient check runs to its end, the parameter store
    it leaves is the one it started with: every element it perturbed has
    been written back. *)
Theorem gradcheck_restores_parameters (V : nat) (c2i : gmap ascii Z)
    (data : list ascii) (P : params) :
  match (gradcheck V c2i data P).2 with
  | Ok P' => P' = P
  | Raise _ => True
  end.
Proof.
  unfold gradcheck.
  destruct (encode c2i (slice data 0 (0 + seq_length))) as [inputs|];
    [|done].
  rewrite bind_Ok.
  destruct (encode c2i (slice data (0 + 1) (0 + seq_length + 1)))
    as [targets|]; [|done].
  rewrite bind_Ok.
  destruct (forward_call V inputs targets
              (zeros hidden_size 1, zeros hidden_size 1) P)
    as [[[[loss acts] m'] P0]|] eqn:Hf; [|done].
  rewrite bind_Ok. apply forward_call_inv in Hf. subst P0.
  destruct (backward P inputs acts false) as [g|]; [|done].
  rewrite bind_Ok.
  destruct (check_pairs V inputs targets
              (zeros hidden_size 1, zeros hidden_size 1)
              (gradcheck_triples g) P) as [out [P'|e]] eqn:E; [|done].
  cbn [snd]. by apply check_pairs_restores in E.
Qed.

Lemma wf_set_param (V : nat) (n : pname) (v : ndarray) (P : params) :
  wf_params V P -> has_shape (pshape V n).1 (pshape V n).2 v ->
  wf_params V (set_param n v P).
Proof. intros [] Hv. destruct n; by constructor. Qed.

Lemma printed_names_compare (ga lp ln : R) :
  printed_names (compare_element ga lp ln) = [].
Proof.
  unfold compare_element. by destruct (np_gt _ _).
Qed.

Lemma forward_call_ok (V : nat) (P : params) (inputs targets : list Z)
    (m : memory) :
  wf_params V P -> wf_memory m -> valid_chunk V inputs targets ->
  exists r : R * activations * memory,
    forward_call V inputs targets m P = Ok (r, P).
Proof.
  intros HP Hm Hch. unfold forward_call.
  rewrite (forward_trace V P inputs targets m HP Hm Hch), bind_Ok.
  by eexists.
Qed.

Lemma check_element_progress (V : nat) (inputs targets : list Z) (m : memory)
    (n : pname) (grad : ndarray) (i : nat) (P : params) :
  wf_params V P -> wf_memory m -> valid_chunk V inputs targets ->
  has_shape (pshape V n).1 (pshape V n).2 grad ->
  (i < size_of (get_param n P))%nat ->
  exists out : list event,
    check_element V inputs targets m n grad i P = Ok (out, P) /\
    printed_names out = [].
Proof.
  intros HP Hm Hch Hg Hi.
  pose proof (get_param_shape V P n HP) as Hs.
  destruct (check_element V inputs targets m n grad i P)
    as [[out P']|e] eqn:E.
  - pose proof (check_element_restores _ _ _ _ _ _ _ _ _ _ E) as ->.
    exists out. split; [done|].
    unfold check_element in E.
    repeat match type of E with
    | (?mm ≫= _) = Ok _ =>
        let x := fresh "x" in
        destruct mm as [x|]; [rewrite bind_Ok in E | discriminate E];
        try destruct x as [[[? ?] ?] ?]
    end.
    inversion E; subst. apply printed_names_compare.
  - exfalso. unfold check_element in E.
    destruct (flat_get_ok _ _ Hi) as [w Hw].
    rewrite Hw, bind_Ok in E.
    rewrite flat_set_ok, bind_Ok in E by done.
    set (a1 := row_set (get_param n P) i (w + delta)) in *.
    assert (has_shape (pshape V n).1 (pshape V n).2 a1) as Ha1
      by by apply has_shape_row_set.
    destruct (forward_call_ok V (set_param n a1 P) inputs targets m)
      as [[[lp ap] mp] Hf1]; try done; [by apply wf_set_param|].
    rewrite Hf1, bind_Ok in E. rewrite get_set_param in E.
    rewrite flat_set_ok, bind_Ok in E
      by (unfold a1; by rewrite size_of_row_set).
    set (a2 := row_set a1 i (w - delta)) in *.
    assert (has_shape (pshape V n).1 (pshape V n).2 a2) as Ha2
      by by apply has_shape_row_set.
    destruct (forward_call_ok V (set_param n a2 (set_param n a1 P))
                inputs targets m)
      as [[[ln an] mn] Hf2]; try done;
      [apply wf_set_param; [by apply wf_set_param | done]|].
    rewrite Hf2, bind_Ok in E. rewrite get_set_param in E.
    rewrite flat_set_ok, bind_Ok in E
      by (unfold a2, a1; by rewrite !size_of_row_set).
    destruct (flat_get_ok grad i) as [ga Hga].
    { rewrite (size_of_has_shape _ _ _ Hg).
      by rewrite <- (size_of_has_shape _ _ _ Hs). }
    by rewrite Hga, bind_Ok in E.
Qed.

Lemma check_elements_progress (V : nat) (inputs targets : list Z)
    (m : memory) (n : pname) (grad : ndarray) (P : params) :
  wf_params V P -> wf_memory m -> valid_chunk V inputs targets ->
  has_shape (pshape V n).1 (pshape V n).2 grad ->
  forall idx : list nat,
    Forall (fun i => (i < size_of (get_param n P))%nat) idx ->
    exists out : list event,
      check_elements V inputs targets m n grad idx P = (out, Ok P) /\
      printed_names out = [].
Proof.
  intros HP Hm Hch Hg idx Hidx.
  induction Hidx as [|i idx Hi Hidx IH]; cbn [check_elements].
  - by exists [].
  - destruct (check_element_progress V inputs targets m n grad i P)
      as (o1 & E1 & N1); try done.
    destruct IH as (o2 & E2 & N2). rewrite E1, E2.
    exists (o1 ++ o2). split; [done|].
    unfold printed_names in *. by rewrite omap_app, N1, N2.
Qed.

Lemma check_pairs_progress (V : nat) (inputs targets : list Z) (m : memory)
    (P : params) (triples : list (pname * ndarray * string)) :
  wf_params V P -> (0 < V)%nat -> wf_memory m ->
  valid_chunk V inputs targets ->
  Forall (fun tr => has_shape (pshape V tr.1.1).1 (pshape V tr.1.1).2 tr.1.2)
    triples ->
  exists out : list event,
    check_pairs V inputs targets m triples P = (out, Ok P) /\
    printed_names out = map snd triples.
Proof.
  intros HP HV Hm Hch Htr.
  induction Htr as [|[[n grad] name] rest Hg Hrest IH]; cbn [check_pairs].
  - by exists [].
  - cbn [fst snd] in Hg.
    pose proof (get_param_shape V P n HP) as Hs.
    assert (0 < (pshape V n).1)%nat as Hpos.
    { pose proof hidden_size_pos. pose proof emb_size_pos. by destruct n. }
    rewrite (shape_has_shape _ _ _ Hs Hpos), (shape_has_shape _ _ _ Hg Hpos).
    unfold shape_eqb. rewrite !Nat.eqb_refl. cbn [andb].
    destruct (check_elements_progress V inputs targets m n grad P HP Hm Hch
                Hg (seq 0 (size_of (get_param n P)))) as (o1 & E1 & N1).
    { apply Forall_forall. intros i Hin. apply elem_of_seq in Hin. lia. }
    destruct IH as (o2 & E2 & N2). rewrite E1, E2.
    exists (PrintName name :: o1 ++ o2). split; [reflexivity|].
    change (printed_names (PrintName name :: o1 ++ o2))
      with (name :: printed_names (o1 ++ o2)).
    unfold printed_names in *. cbn [map snd].
    by rewrite omap_app, N1, N2.
Qed.

Lemma first_chunk (data : list ascii) :
  (seq_length + 1 <= length data)%nat ->
  exists inputs targets : list Z,
    encode (char_to_ix data) (slice data 0 (0 + seq_length)) = Ok inputs /\
    encode (char_to_ix data) (slice data (0 + 1) (0 + seq_length + 1))
    = Ok targets /\
    valid_chunk (vocab_size_of data) inputs targets /\ inputs <> [].
Proof.
  intros Hlen. pose proof seq_length_pos as HL.
  destruct (encode_total data (slice data 0 (0 + seq_length)))
    as [inputs Hi]; [apply slice_subseteq|].
  destruct (encode_total data (slice data (0 + 1) (0 + seq_length + 1)))
    as [targets Ht]; [apply slice_subseteq|].
  pose proof (encode_length _ _ _ Hi) as Hli.
  pose proof (encode_length _ _ _ Ht) as Hlt.
  unfold slice in Hli, Hlt. rewrite length_take, length_drop in Hli, Hlt.
  exists inputs, targets. split; [done|]. split; [done|]. split.
  - constructor; [lia | |];
      eapply encode_valid; try apply char_to_ix_valid; done.
  - intros ->. cbn [length] in Hli. lia.
Qed.

Lemma gradcheck_on_chunk (V : nat) (c2i : gmap ascii Z) (data : list ascii)
    (P : params) (inputs targets : list Z) :
  encode c2i (slice data 0 (0 + seq_length)) = Ok inputs ->
  encode c2i (slice data (0 + 1) (0 + seq_length + 1)) = Ok targets ->
  valid_chunk V inputs targets -> inputs <> [] -> wf_params V P ->
  exists out : list event,
    gradcheck V c2i data P = (out, Ok P) /\
    printed_names out
    = ["Wf"; "Wi"; "Wo"; "Wc"; "bf"; "bi"; "bo"; "bc"; "Wex"; "Why";
       "by"]%string.
Proof.
  intros Hi Ht Hch Hne HP.
  assert (0 < V)%nat as HV by (by eapply valid_chunk_pos).
  pose proof wf_zero_memory as Hm. unfold zero_memory in Hm.
  unfold gradcheck. rewrite Hi, bind_Ok, Ht, bind_Ok.
  unfold forward_call.
  rewrite (forward_trace _ P inputs targets _ HP Hm Hch), !bind_Ok.
  rewrite (backward_record _ P inputs targets inputs _ false HP Hm Hch Hne).
  rewrite decide_True by lia. rewrite bind_Ok.
  rewrite take_ge by (rewrite trace_length; [lia | by destruct Hch]).
  cbn [clip_if].
  pose proof (trace_wf _ P inputs targets HP HV _ Hm) as Hwf.
  pose proof (bptt_wf _ P _ _ HP HV Hm Hwf) as Hg.
  destruct (check_pairs_progress V inputs targets
              (zeros hidden_size 1, zeros hidden_size 1) P
              (gradcheck_triples
                 (SpecBPTT.bptt P (zeros hidden_size 1, zeros hidden_size 1)
                    (trace V P (zeros hidden_size 1, zeros hidden_size 1)
                       inputs targets))))
    as (out & E & N); try done.
  { destruct Hg. unfold gradcheck_triples.
    repeat (constructor; [done|]). constructor. }
  exists out. split; [exact E | exact N].
Qed.

(** X16.  On a corpus of at least [seq_length + 1] characters, with
    parameters of the program's shapes, the gradient check runs to its end:
    no exception, the shape assertion never fails, the eleven names are
    printed in the order Wf, Wi, Wo, Wc, bf, bi, bo, bc, Wex, Why, by, and
    the parameters are left as they were. *)
Theorem gradcheck_completes (data : list ascii) (P : params) :
  (seq_length + 1 <= length data)%nat ->
  wf_params (vocab_size_of data) P ->
  exists out : list event,
    gradcheck (vocab_size_of data) (char_to_ix data) data P = (out, Ok P) /\
    printed_names out
    = ["Wf"; "Wi"; "Wo"; "Wc"; "bf"; "bi"; "bo"; "bc"; "Wex"; "Why";
       "by"]%string.
Proof.
  intros Hlen HP.
  destruct (first_chunk data Hlen) as (inputs & targets & Hi & Ht & Hch & Hne).
  by apply (gradcheck_on_chunk _ _ _ _ inputs targets).
Qed.

Lemma gradcheck_completes_witness :
  exists out : list event,
    gradcheck (vocab_size_of ex_data) (char_to_ix ex_data) ex_data
      (zero_params (vocab_size_of ex_data))
    = (out, Ok (zero_params (vocab_size_of ex_data))) /\
    printed_names out
    = ["Wf"; "Wi"; "Wo"; "Wc"; "bf"; "bi"; "bo"; "bc"; "Wex"; "Why";
       "by"]%string.
Proof.
  apply (gradcheck_completes ex_data (zero_params (vocab_size_of ex_data))).
  - vm_compute. lia.
  - apply wf_zero_params.
Defined.

(** ** Sampling (lines 289-354) *)

Lemma pick_index_from (ix : list Z) (idx : option nat) (s n : nat) :
  (exists j : nat, (s <= j < s + n)%nat /\ ix !! j = Some 1%Z) ->
  exists j : nat,
    foldl (fun idx j => match ix !! j with
                        | Some 1%Z => Some j
                        | _ => idx
                        end) idx (seq s n) = Some j /\
    (s <= j < s + n)%nat /\ ix !! j = Some 1%Z /\
    forall j' : nat, (j < j' < s + n)%nat -> ix !! j' <> Some 1%Z.
Proof.
  induction n as [|n IH]; intros (j & Hj & Hone); [lia|].
  rewrite seq_S, foldl_app. cbn [foldl].
  destruct (decide (ix !! (s + n)%nat = Some 1%Z)) as [Hlast|Hlast].
  - exists (s + n)%nat. rewrite Hlast.
    split; [done|]. split; [lia|]. split; [done|]. intros; lia.
  - assert (exists j : nat, (s <= j < s + n)%nat /\ ix !! j = Some 1%Z)
      as Hex.
    { exists j. split; [|done].
      destruct (decide (j = (s + n)%nat)) as [->|]; [done | lia]. }
    destruct (IH Hex) as (j0 & Hf & Hr & H1 & Hmax).
    exists j0. split.
    + rewrite Hf. destruct (ix !! (s + n)%nat) as [[|[]|]|]; try done.
    + split; [lia|]. split; [done|]. intros j' Hj'.
      destruct (decide (j' = (s + n)%nat)) as [->|]; [done|].
      apply Hmax. lia.
Qed.

Lemma sample_step_inv {G : Type} (multinomial : G -> list R -> list Z * G)
    (V : nat) (P : params) (st st' : sstate) (g g' : G) (ix0 : Z) :
  s_x st = Spec.onehot V (Z.to_nat ix0) ->
  sample_step multinomial V P st g = Ok (st', g') ->
  exists j : nat,
    (j < V)%nat /\
    s_result st' = s_result st ++ [j] /\
    s_x st' = Spec.onehot V (Z.to_nat (Z.of_nat j)) /\
    (s_h st', s_c st') = Spec.step V P (s_h st, s_c st) ix0.
Proof.
  intros Hx H. unfold sample_step in H. rewrite Hx in H.
  match type of H with (softmax ?lg ≫= _) = _ =>
    destruct (softmax lg) as [ps_|]; [|done] end.
  rewrite bind_Ok in H.
  destruct (multinomial g (flat ps_)) as [ix g1].
  destruct (pick_index ix (s_index st)) as [j|]; [|done].
  rewrite bind_Ok in H.
  destruct (setitem_row (zeros V 1) (Z.of_nat j) 1) as [x|] eqn:Hset;
    [|done].
  rewrite bind_Ok in H. inversion H; subst; clear H.
  assert (j < V)%nat as Hj.
  { destruct (decide (j < V)%nat) as [|Hge]; [done|].
    rewrite setitem_row_out_of_range in Hset by lia. done. }
  rewrite onehot_setitem in Hset by lia. inversion Hset; subst.
  exists j. by cbn.
Qed.

Lemma sample_loop_inv {G : Type} (multinomial : G -> list R -> list Z * G)
    (V : nat) (P : params) (n : nat) :
  forall (st st' : sstate) (g g' : G) (ix0 : Z),
    s_x st = Spec.onehot V (Z.to_nat ix0) ->
    sample_loop multinomial V P n st g = Ok (st', g') ->
    exists l : list nat,
      s_result st' = s_result st ++ l /\ length l = n /\
      Forall (fun j => (j < V)%nat) l /\
      (s_h st', s_c st')
      = foldl (Spec.step V P) (s_h st, s_c st)
          (take n (ix0 :: map Z.of_nat l)).
Proof.
  induction n as [|n IH]; intros st st' g g' ix0 Hx H; cbn [sample_loop] in H.
  - inversion H; subst. exists []. by rewrite app_nil_r.
  - destruct (sample_step multinomial V P st g) as [[st1 g1]|] eqn:Hs;
      [|done].
    rewrite bind_Ok in H. cbn [fst snd] in H.
    destruct (sample_step_inv _ _ _ _ _ _ _ ix0 Hx Hs)
      as (j & Hj & Hr & Hx1 & Hhc).
    destruct (IH st1 st' g1 g' (Z.of_nat j) Hx1 H)
      as (l & Hl & Hlen & Hall & Hfold).
    exists (j :: l). split; [by rewrite Hl, Hr, <- app_assoc|].
    split; [simpl; lia|]. split; [by constructor|].
    cbn [map take foldl]. by rewrite <- Hhc.
Qed.

Lemma sample_step_ok {G : Type} (multinomial : G -> list R -> list Z * G)
    (V : nat) (P : params) (st : sstate) (g : G) (ix0 : Z) :
  one_trial multinomial -> wf_params V P -> (0 < V)%nat ->
  has_shape hidden_size 1 (s_h st) -> has_shape hidden_size 1 (s_c st) ->
  s_x st = Spec.onehot V (Z.to_nat ix0) ->
  exists (st' : sstate) (g' : G),
    sample_step multinomial V P st g = Ok (st', g') /\
    has_shape hidden_size 1 (s_h st') /\ has_shape hidden_size 1 (s_c st').
Proof.
  intros Hmn HP HV Hh Hc Hx.
  pose proof (tvals_of_wf V P (s_h st) (s_c st) ix0 0 HP HV Hh Hc) as Hwf.
  pose proof (wfv_lg _ _ Hwf) as Hlg. pose proof (wfv_p _ _ Hwf) as Hp.
  pose proof (wfv_h _ _ Hwf) as Hh'. pose proof (wfv_c _ _ Hwf) as Hc'.
  cbn [tvals_of v_lg v_p v_h v_c] in Hlg, Hp, Hh', Hc'.
  unfold sample_step. rewrite Hx.
  rewrite softmax_stable, bind_Ok
    by (apply (flat_nonempty V 1); [done | done | lia]).
  match goal with |- context [multinomial g (flat ?p)] =>
    set (pv := flat p) end.
  assert (pv <> []) as Hne
    by (apply (flat_nonempty V 1); [done | done | lia]).
  assert (length pv = V) as Hlen.
  { pose proof (size_of_has_shape _ _ _ Hp) as Hs. unfold size_of in Hs.
    subst pv. lia. }
  destruct (Hmn g pv Hne) as [Hl [j Hj]].
  destruct (multinomial g pv) as [ix g1]. cbn [fst] in Hl, Hj.
  destruct (pick_index_from ix (s_index st) 0 (length ix))
    as (j0 & Hpick & Hr & _).
  { exists j. split; [|done]. apply lookup_lt_Some in Hj. lia. }
  unfold pick_index. rewrite Hpick, bind_Ok.
  rewrite onehot_setitem, bind_Ok by lia.
  eexists _, _. split; [reflexivity|]. by cbn.
Qed.

Lemma sample_loop_ok {G : Type} (multinomial : G -> list R -> list Z * G)
    (V : nat) (P : params) (n : nat) :
  one_trial multinomial -> wf_params V P -> (0 < V)%nat ->
  forall (st : sstate) (g : G) (ix0 : Z),
    has_shape hidden_size 1 (s_h st) -> has_shape hidden_size 1 (s_c st) ->
    s_x st = Spec.onehot V (Z.to_nat ix0) ->
    exists (st' : sstate) (g' : G),
      sample_loop multinomial V P n st g = Ok (st', g').
Proof.
  intros Hmn HP HV. induction n as [|n IH]; intros st g ix0 Hh Hc Hx;
    cbn [sample_loop].
  - by eexists _, _.
  - destruct (sample_step_ok multinomial V P st g ix0)
      as (st1 & g1 & Hs & Hh1 & Hc1); try done.
    rewrite Hs, bind_Ok. cbn [fst snd].
    destruct (sample_step_inv _ _ _ _ _ _ _ ix0 Hx Hs)
      as (j & _ & _ & Hx1 & _).
    by apply (IH st1 g1 (Z.of_nat j)).
Qed.

Lemma sample_ok {G : Type} (multinomial : G -> list R -> list Z * G)
    (V : nat) (P : params) (m : memory) (seed_ix : Z) (n : nat) (g : G) :
  one_trial multinomial -> wf_params V P -> wf_memory m ->
  valid_index V seed_ix ->
  exists (l : list nat) (g' : G),
    sample multinomial V P m seed_ix n g = Ok (l, g') /\
    length l = n /\ Forall (fun j => (j < V)%nat) l.
Proof.
  intros Hmn HP [Hh Hc] Hseed.
  assert (0 < V)%nat as HV by (unfold valid_index in Hseed; lia).
  unfold sample. rewrite onehot_setitem, bind_Ok by done.
  destruct (sample_loop_ok multinomial V P n Hmn HP HV
              {| s_h := m.1; s_c := m.2;
                 s_x := Spec.onehot V (Z.to_nat seed_ix);
                 s_index := None; s_result := [] |} g seed_ix)
    as (st' & g' & Hloop); try done.
  rewrite Hloop, bind_Ok. cbn [fst snd].
  destruct (sample_loop_inv multinomial V P n
              {| s_h := m.1; s_c := m.2;
                 s_x := Spec.onehot V (Z.to_nat seed_ix);
                 s_index := None; s_result := [] |} st' g g' seed_ix
              eq_refl Hloop)
    as (l & Hl & Hlen & Hall & _).
  cbn [s_result app] in Hl. rewrite Hl. by exists l, g'.
Qed.

(** X17.  A seed outside [-vocab_size, vocab_size) makes [sample] raise
    [IndexError], also when no character is asked for.  With a valid seed,
    parameters and state of the program's shapes, and a generator whose
    [multinomial(1, pvals)] returns one count per probability with a 1 among
    them, [sample] completes (the variable [index] is always bound) and
    returns [n] indices of the vocabulary. *)
Theorem sample_returns_vocabulary_indices {G : Type}
    (multinomial : G -> list R -> list Z * G) (V : nat) (P : params)
    (m : memory) (seed_ix : Z) (n : nat) (g : G) :
  (~ (- Z.of_nat V <= seed_ix < Z.of_nat V)%Z ->
   sample multinomial V P m seed_ix n g = Raise IndexError) /\
  (one_trial multinomial -> wf_params V P -> wf_memory m ->
   valid_index V seed_ix ->
   exists (l : list nat) (g' : G),
     sample multinomial V P m seed_ix n g = Ok (l, g') /\
     length l = n /\ Forall (fun j => (j < V)%nat) l).
Proof.
  split.
  - intros Hout. unfold sample. by rewrite setitem_row_out_of_range.
  - apply sample_ok.
Qed.

(** X18.  The sampler runs the recurrence of the forward pass: whenever its
    loop completes [n] steps from the state [m] and a valid seed, the
    pair (h, c) it holds is the state [forward] returns for the chunk made
    of the seed followed by the first [n - 1] sampled indices. *)
Theorem sampler_state_is_forward_state {G : Type}
    (multinomial : G -> list R -> list Z * G) (V : nat) (P : params)
    (m : memory) (seed_ix : Z) (n : nat) (g g' : G) (st : sstate)
    (targets : list Z) :
  wf_params V P -> wf_memory m -> valid_index V seed_ix ->
  sample_loop multinomial V P n
    {| s_h := m.1; s_c := m.2; s_x := Spec.onehot V (Z.to_nat seed_ix);
       s_index := None; s_result := [] |} g = Ok (st, g') ->
  length targets = n -> Forall (valid_index V) targets ->
  length (s_result st) = n /\
  exists (loss : R) (acts : activations),
    forward V P (take n (seed_ix :: map Z.of_nat (s_result st))) targets m
    = Ok (loss, acts, (s_h st, s_c st)).
Proof.
  intros HP Hm Hseed Hloop Hlt Htg.
  destruct (sample_loop_inv multinomial V P n
              {| s_h := m.1; s_c := m.2;
                 s_x := Spec.onehot V (Z.to_nat seed_ix);
                 s_index := None; s_result := [] |} st g g' seed_ix
              eq_refl Hloop)
    as (l & Hl & Hlen & Hall & Hfold).
  cbn [s_result s_h s_c app] in Hl, Hfold. rewrite Hl.
  split; [done|].
  set (inputs := take n (seed_ix :: map Z.of_nat l)) in *.
  assert (length inputs = n) as Hli.
  { subst inputs. rewrite length_take. cbn [length].
    rewrite length_map. lia. }
  assert (valid_chunk V inputs targets) as Hch.
  { constructor; [lia | | done]. subst inputs. apply Forall_take.
    constructor; [done|]. apply Forall_map.
    eapply Forall_impl; [exact Hall|]. intros j Hj. simpl in *.
    unfold valid_index. lia. }
  rewrite (forward_trace V P inputs targets m HP Hm Hch).
  eexists _, _. do 2 f_equal.
  rewrite last_memory_trace by lia. rewrite Hfold. by destruct m.
Qed.

Lemma first_outcome_one_trial : one_trial first_outcome.
Proof.
  intros g [|p pvals] Hne; [done|]. cbn [first_outcome fst]. split.
  - cbn [length]. by rewrite length_map.
  - by exists O.
Qed.

Lemma ex_sample_loop :
  sample_loop first_outcome 2 ex_P 1 ex_sample_init tt
  = Ok (ex_sample_state, tt).
Proof.
  assert (0 < 2)%nat as H2 by lia.
  destruct (sample_loop_ok first_outcome 2 ex_P 1 first_outcome_one_trial
              (wf_zero_params 2) H2 ex_sample_init tt 0%Z)
    as (st' & g' & H); [apply has_shape_zeros.. | reflexivity |].
  unfold ex_sample_state. rewrite H. by destruct g'.
Qed.

Lemma sampler_state_is_forward_state_witness :
  length (s_result ex_sample_state) = 1%nat /\
  exists (loss : R) (acts : activations),
    forward 2 ex_P
      (take 1 (0%Z :: map Z.of_nat (s_result ex_sample_state)))
      [0%Z] zero_memory
    = Ok (loss, acts, (s_h ex_sample_state, s_c ex_sample_state)).
Proof.
  apply (sampler_state_is_forward_state first_outcome 2 ex_P zero_memory
           0%Z 1 tt tt ex_sample_state [0%Z]).
  - apply wf_zero_params.
  - apply wf_zero_memory.
  - unfold valid_index. lia.
  - apply ex_sample_loop.
  - reflexivity.
  - constructor; [unfold valid_index; lia | constructor].
Defined.

(** ** The program as a whole (lines 36-72, 356, 407) *)

(** X19.  On a corpus of at least [seq_length + 1] characters, with random
    draws of the shapes the initialisation asks for, the program runs to its
    end in both modes: training ends without an exception after
    [max_updates] updates (the periodic call of [sample] and what training
    prints are not modelled), the gradient check ends without an exception
    after printing the eleven parameter names; with any other option the
    program does nothing. *)
Theorem main_completes (option : string) (data : list ascii)
    (d : randn_draws) :
  (seq_length + 1 <= length data)%nat ->
  wf_draws (vocab_size_of data) d ->
  (main "train" data d).2 = Ok tt /\
  (exists out : list event,
     main "gradcheck" data d = (out, Ok tt) /\
     printed_names out
     = ["Wf"; "Wi"; "Wo"; "Wc"; "bf"; "bi"; "bo"; "bc"; "Wex"; "Why";
        "by"]%string) /\
  (option <> "train"%string -> option <> "gradcheck"%string ->
   main option data d = ([], Ok tt)).
Proof.
  intros Hlen Hd.
  pose proof (init_params_wf _ d Hd) as HP.
  assert (0 < vocab_size_of data)%nat as HV.
  { apply vocab_size_pos. intros ->. simpl in Hlen. lia. }
  split; [|split].
  - rewrite main_train, train_unfold_iterations. unfold train_init.
    destruct (vocab_size_of data =? 0)%nat eqn:E;
      [apply Nat.eqb_eq in E; lia|].
    rewrite bind_Ok.
    destruct (iterations_keep_inv data max_updates Hlen
                (initial_state (vocab_size_of data)
                   (init_params (vocab_size_of data) d)))
      as (st & Hit & _).
    { split; [|split; [done|split; [by exists O | by left]]].
      split; [done|]. split; [by apply zero_momentum_wf | done]. }
    by rewrite Hit.
  - rewrite main_gradcheck.
    destruct (first_chunk data Hlen)
      as (inputs & targets & Hi & Ht & Hch & Hne).
    destruct (gradcheck_on_chunk _ _ _ _ inputs targets Hi Ht Hch Hne HP)
      as (out & E & N).
    exists out. by rewrite E.
  - intros H1 H2. unfold main.
    apply String.eqb_neq in H1, H2. by rewrite H1, H2.
Qed.

Lemma main_completes_witness :
  (main "train" ex_data (zero_draws (vocab_size_of ex_data))).2 = Ok tt /\
  (exists out : list event,
     main "gradcheck" ex_data (zero_draws (vocab_size_of ex_data))
     = (out, Ok tt) /\
     printed_names out
     = ["Wf"; "Wi"; "Wo"; "Wc"; "bf"; "bi"; "bo"; "bc"; "Wex"; "Why";
        "by"]%string) /\
  ("sample"%string <> "train"%string ->
   "sample"%string <> "gradcheck"%string ->
   main "sample" ex_data (zero_draws (vocab_size_of ex_data))
   = ([], Ok tt)).
Proof.
  apply (main_completes "sample" ex_data (zero_draws (vocab_size_of ex_data))).
  - vm_compute. lia.
  - apply wf_zero_draws.
Defined.

(** ** Edge cases of the two passes *)

(** X20.  On an empty chunk [forward] returns the loss 0 and the state it
    was given, and records no time step; [backward] on such a record raises
    [KeyError] when it reads [hs[0]].  So the gradient check on an empty
    corpus ends with [KeyError]. *)
Theorem empty_chunk_behaviour (V : nat) (P : params) (targets g_inputs : list Z)
    (m : memory) (clipping : bool) (d : randn_draws) :
  forward V P [] targets m = Ok (0, init_activations m, m) /\
  backward P g_inputs (init_activations m) clipping = Raise KeyError /\
  main "gradcheck" [] d = ([], Raise KeyError).
Proof.
  split; [apply forward_nil|]. split; [apply backward_empty_record|].
  rewrite main_gradcheck. unfold gradcheck, forward_call, slice.
  rewrite !drop_nil, !take_nil. cbn [encode]. rewrite !bind_Ok.
  rewrite forward_nil, !bind_Ok.
  by rewrite backward_empty_record.
Qed.

Lemma forward_loop_ext_targets (V : nat) (P : params) (inputs t1 t2 : list Z)
    (ts : list nat) :
  (forall t : nat, t ∈ ts -> t1 !! t = t2 !! t) ->
  forall st : activations * R,
    forward_loop V P inputs t1 ts st = forward_loop V P inputs t2 ts st.
Proof.
  induction ts as [|t ts IH]; intros Hts st; [done|].
  cbn [forward_loop].
  assert (forward_step V P inputs t1 t st = forward_step V P inputs t2 t st)
    as ->.
  { destruct st as [a loss]. unfold forward_step.
    rewrite !(py_index_nat t1), !(py_index_nat t2).
    by rewrite (Hts t) by (apply elem_of_cons; by left). }
  destruct (forward_step V P inputs t2 t st) as [st'|e]; [|done].
  rewrite !bind_Ok. apply IH. intros t' Hin.
  apply Hts, elem_of_cons. by right.
Qed.

(** X21.  [forward] reads [targets[t]] only for the time steps of [inputs]:
    targets beyond the length of [inputs] change nothing, whatever they
    are. *)
Theorem forward_ignores_extra_targets (V : nat) (P : params)
    (inputs targets extra : list Z) (m : memory) :
  (length inputs <= length targets)%nat ->
  forward V P inputs (targets ++ extra) m = forward V P inputs targets m.
Proof.
  intros Hlen. unfold forward.
  rewrite (forward_loop_ext_targets V P inputs (targets ++ extra) targets);
    [done|].
  intros t Hin. apply elem_of_seq in Hin.
  apply lookup_app_l. lia.
Qed.

Lemma forward_ignores_extra_targets_witness :
  forward 2 ex_P ex_inputs (ex_targets ++ [7%Z]) zero_memory
  = forward 2 ex_P ex_inputs ex_targets zero_memory.
Proof.
  apply (forward_ignores_extra_targets 2 ex_P ex_inputs ex_targets [7%Z]
           zero_memory).
  simpl. lia.
Defined.

(** ** The smoothed loss (lines 368, 391) *)

Lemma forward_loss_nonneg (V : nat) (P : params) (inputs targets : list Z)
    (m m' : memory) (loss : R) (acts : activations) :
  wf_params V P -> wf_memory m -> valid_chunk V inputs targets ->
  forward V P inputs targets m = Ok (loss, acts, m') -> 0 <= loss.
Proof.
  intros HP Hm Hch Hf.
  rewrite (forward_trace V P inputs targets m HP Hm Hch) in Hf.
  injection Hf as <- _ _.
  apply total_loss_nonneg; [lra|]. apply Forall_lookup_2. intros t v Hv.
  assert (inputs <> []) as Hne by (intros ->; by destruct targets).
  assert (0 < V)%nat as HV by (by eapply valid_chunk_pos).
  pose proof (trace_wf V P inputs targets HP HV m Hm) as Hwf.
  destruct (trace_lookup V P inputs targets m t v Hv)
    as (ix & tx & Hix & Htx & ->).
  pose proof (prev_memory_wf V m _ t Hm Hwf) as [Hph Hpc].
  destruct Hch as [_ _ Htg].
  pose proof (Forall_lookup_1 _ _ _ _ Htg Htx) as Vtx.
  by destruct (tvals_of_facts V P _ _ ix tx HP Hph Hpc Vtx) as (_ & Hl & _).
Qed.

Lemma initial_loss_estimate_nonneg (V : nat) (P : params) :
  (0 < V)%nat -> 0 <= t_smooth_loss (initial_state V P).
Proof.
  intros HV. cbn [initial_state t_smooth_loss].
  assert (1 <= INR V) as H1 by (apply (le_INR 1); lia).
  assert (0 < 1 / INR V <= 1) as [Hpos Hle].
  { split; [apply Rdiv_lt_0_compat; lra|].
    apply (Rmult_le_reg_r (INR V)); [lra|].
    unfold Rdiv. rewrite Rmult_assoc, Rinv_l by lra. lra. }
  assert (ln (1 / INR V) <= 0) as Hln.
  { destruct Hle as [Hlt|Heq].
    - apply ln_increasing in Hlt; [|done]. rewrite ln_1 in Hlt. lra.
    - rewrite Heq, ln_1. lra. }
  pose proof (pos_INR seq_length). nra.
Qed.

(** X22.  During training the smoothed loss is never negative: it starts at
    [-ln(1/vocab_size) * seq_length] and every update mixes it with the
    loss of the chunk, which is not negative. *)
Theorem smooth_loss_nonneg (data : list ascii) (P : params) (k : nat)
    (st : train_state) :
  data <> [] ->
  wf_params (vocab_size_of data) P ->
  iterations k (vocab_size_of data) (char_to_ix data) data
    (initial_state (vocab_size_of data) P) = Ok st ->
  0 <= t_smooth_loss st.
Proof.
  intros Hne HP.
  assert (train_wf (vocab_size_of data)
            (initial_state (vocab_size_of data) P)) as Hwf0.
  { split; [done|]. split; [by apply zero_momentum_wf | done]. }
  pose proof (initial_loss_estimate_nonneg _ P (vocab_size_pos data Hne)) as H0.
  revert Hwf0 H0. generalize (initial_state (vocab_size_of data) P).
  induction k as [|k IH]; intros st0 Hwf0 H0 Hk; cbn [iterations] in Hk.
  - by inversion Hk; subst.
  - destruct (train_iteration (vocab_size_of data) (char_to_ix data) data st0)
      as [st1|] eqn:Hit; [|done].
    rewrite bind_Ok in Hk.
    destruct (train_iteration_facts _ _ _ _ _ (char_to_ix_valid data) Hwf0 Hit)
      as (inputs & targets & m & m' & loss & acts & g & _ & Hf & _ & Hst1
          & Hm & Hch & _ & _ & Hwf1).
    apply (IH st1); [done | | done].
    rewrite Hst1. cbn [next_state t_smooth_loss].
    destruct Hwf0 as [HP0 _].
    pose proof (forward_loss_nonneg _ _ _ _ _ _ _ _ HP0 Hm Hch Hf). lra.
Qed.

Lemma smooth_loss_nonneg_witness : 0 <= t_smooth_loss ex_st1.
Proof.
  apply (smooth_loss_nonneg ex_data (zero_params (vocab_size_of ex_data)) 1
           ex_st1).
  - discriminate.
  - apply wf_zero_params.
  - cbn [iterations]. fold ex_st0. by rewrite ex_iteration_1.
Defined.

(** ** The sample printed during training (lines 380-383) *)

Lemma decode_total (data : list ascii) (l : list Z) :
  Forall (valid_index (vocab_size_of data)) l ->
  exists txt : list ascii,
    decode (ix_to_char data) l = Ok txt /\ length txt = length l /\
    txt ⊆ data.
Proof.
  induction 1 as [|i l Hi Hl IH]; cbn [decode].
  - exists []. split; [done|]. split; [done|]. intros x Hx.
    by apply elem_of_nil in Hx.
  - destruct IH as (txt & Ht & Hlen & Hsub).
    assert (is_Some (chars_of data !! Z.to_nat i)) as [ch Hch].
    { apply lookup_lt_is_Some. unfold valid_index, vocab_size_of in Hi. lia. }
    assert (ix_to_char data !! i = Some ch) as Hlook.
    { apply ix_to_char_lookup. unfold valid_index in Hi. split; [lia|done]. }
    rewrite Hlook, Ht, bind_Ok. exists (ch :: txt).
    split; [done|]. split; [simpl; lia|]. intros x Hx.
    apply elem_of_cons in Hx as [->|Hx]; [|by apply Hsub].
    apply list_elem_of_lookup_2 in Hch. unfold chars_of in Hch.
    by rewrite elem_of_remove_dups in Hch.
Qed.

(** X23.  What the training loop does with a sample never raises: with a
    valid seed, parameters and state of the program's shapes and a generator
    whose [multinomial(1, pvals)] returns one count per probability with a 1
    among them, [sample] returns [n] indices, [ix_to_char] is defined on
    each, and the text has [n] characters, all of them characters of the
    corpus. *)
Theorem sample_text_decodes {G : Type}
    (multinomial : G -> list R -> list Z * G) (data : list ascii)
    (P : params) (m : memory) (seed_ix : Z) (n : nat) (g : G) :
  one_trial multinomial -> wf_params (vocab_size_of data) P ->
  wf_memory m -> valid_index (vocab_size_of data) seed_ix ->
  exists (l : list nat) (g' : G) (txt : list ascii),
    sample multinomial (vocab_size_of data) P m seed_ix n g = Ok (l, g') /\
    decode (ix_to_char data) (map Z.of_nat l) = Ok txt /\
    length txt = n /\ txt ⊆ data.
Proof.
  intros Hmn HP Hm Hseed.
  destruct (sample_ok multinomial _ P m seed_ix n g Hmn HP Hm Hseed)
    as (l & g' & Hs & Hlen & Hall).
  destruct (decode_total data (map Z.of_nat l)) as (txt & Ht & Hlt & Hsub).
  { apply Forall_map. eapply Forall_impl; [exact Hall|].
    intros j Hj. simpl in *. unfold valid_index. lia. }
  exists l, g', txt. rewrite length_map in Hlt.
  split; [done|]. split; [done|]. split; [lia | done].
Qed.

Lemma sample_text_decodes_witness :
  exists (l : list nat) (g' : unit) (txt : list ascii),
    sample first_outcome (vocab_size_of ex_data)
      (zero_params (vocab_size_of ex_data)) zero_memory 0 3 tt = Ok (l, g') /\
    decode (ix_to_char ex_data) (map Z.of_nat l) = Ok txt /\
    length txt = 3%nat /\ txt ⊆ ex_data.
Proof.
  apply (sample_text_decodes first_outcome ex_data
           (zero_params (vocab_size_of ex_data)) zero_memory 0 3 tt).
  - apply first_outcome_one_trial.
  - apply wf_zero_params.
  - apply wf_zero_memory.
  - vm_compute. split; [discriminate | reflexivity].
Defined.
